(** * Gravitational n-body integrators: a shallow embedding

    The two programs of the repository are embedded side by side:
    - [Euler]: nbody.py, the velocity-then-position Euler stepper;
    - [RK4]: scripts/grav_nbody_rk4.py, the Runge-Kutta stepper.

    Numbers are exact reals extended with one value for "not a finite
    real"; particle objects live in a store addressed by location, so that
    object identity and in-place mutation read as in the Python code.
    Drawing (tkinter, pygame) reads the particles and changes none of
    their attributes: it is left out of [Euler] and [RK4], and modelled
    apart, in [Canvas] and [Display], on top of them. [Shared] is
    nbody.py for particles that are built from one position list. *)

From Stdlib Require Import Reals Lra Lia List ZArith String Bool.
From Stdlib Require Import FunctionalExtensionality Permutation.
Import ListNotations.
Local Open Scope R_scope.

(** ** Numbers

    A Python float is modelled by [num]: [Some x] is the finite real [x],
    computed exactly; [None] stands for a value that is not a finite real
    (numpy yields inf or nan when a float is divided by zero, with a
    warning and no exception), and every operation on it gives [None]
    again. *)

Definition num : Type := option R.

Definition fin (x : R) : num := Some x.

Definition lift1 (f : R -> R) (a : num) : num :=
  match a with
  | Some x => Some (f x)
  | None => None
  end.

Definition lift2 (f : R -> R -> R) (a b : num) : num :=
  match a, b with
  | Some x, Some y => Some (f x y)
  | _, _ => None
  end.

Definition nadd : num -> num -> num := lift2 Rplus.
Definition nsub : num -> num -> num := lift2 Rminus.
Definition nmul : num -> num -> num := lift2 Rmult.

(** [a / b] on floats: not a finite real when [b] is zero. *)
Definition ndiv (a b : num) : num :=
  match a, b with
  | Some x, Some y => if Req_dec_T y 0 then None else Some (x / y)
  | _, _ => None
  end.

(** [np.sqrt]: nan below zero. *)
Definition nsqrt (a : num) : num :=
  match a with
  | Some x => if Rlt_dec x 0 then None else Some (sqrt x)
  | None => None
  end.

(** [a ** 2.0] *)
Definition nsqr (a : num) : num := nmul a a.

Definition nsin : num -> num := lift1 sin.
Definition ncos : num -> num := lift1 cos.

(** [np.arctan2 y x] on reals: the angle of the point [(x, y)], in
    (-PI, PI], and 0 at the origin. *)
Definition arctan2 (y x : R) : R :=
  if Rlt_dec 0 x then atan (y / x)
  else if Rlt_dec x 0 then
         (if Rle_dec 0 y then atan (y / x) + PI else atan (y / x) - PI)
  else if Rlt_dec 0 y then PI / 2
  else if Rlt_dec y 0 then - (PI / 2)
  else 0.

Definition narctan2 : num -> num -> num := lift2 arctan2.

(** Truth value of a float in [if x:]: only zero is false (nan is true). *)
Definition truthy (x : num) : bool :=
  match x with
  | Some r => if Req_dec_T r 0 then false else true
  | None => true
  end.

Declare Scope num_scope.
Delimit Scope num_scope with num.
Bind Scope num_scope with num.
Infix "+" := nadd : num_scope.
Infix "-" := nsub : num_scope.
Infix "*" := nmul : num_scope.
Infix "/" := ndiv : num_scope.

(** ** The object store

    A particle object is named by its location; a list of particles is a
    list of locations, so the same object may be listed twice and
    [p1 is not self] is a comparison of locations. *)

Definition loc : Type := nat.
Bind Scope nat_scope with loc.

Section Store.
Context {A : Type}.

Definition store : Type := loc -> A.

Definition upd (h : store) (l : loc) (a : A) : store :=
  fun l' => if Nat.eqb l' l then a else h l'.

(** [for x in xs: h = body h x] *)
Definition for_each {B : Type} (xs : list B) (body : store -> B -> store)
  (h : store) : store :=
  fold_left body xs h.

(** Three objects, at the locations 0, 1 and 2 (a location above 2 names
    the last one). *)
Definition store3 (p0 p1 p2 : A) : store :=
  fun l => match l with
           | O => p0
           | S O => p1
           | _ => p2
           end.

(** Two objects, at the locations 0 and 1; every other location names a
    spare object, which is in no list. *)
Definition store2 (p0 p1 spare : A) : store := store3 p0 p1 spare.
End Store.

Arguments store A : clear implicits.

(** What a call can do: return a value or raise. *)
Inductive outcome (A : Type) : Type :=
| Returns (a : A)
| Raises (e : string).
Arguments Returns {A} a.
Arguments Raises {A} e.

Definition bind {A B : Type} (o : outcome A) (k : A -> outcome B) : outcome B :=
  match o with
  | Returns a => k a
  | Raises e => Raises e
  end.

(** [if args.x:] on an optional integer: absent and zero are false. *)
Definition truthy_int (o : option Z) : option Z :=
  match o with
  | Some z => if Z.eqb z 0 then None else Some z
  | None => None
  end.

(** [if args.x:] on an optional float. *)
Definition truthy_float (o : option num) : option num :=
  match o with
  | Some x => if truthy x then Some x else None
  | None => None
  end.

(** ** scripts/grav_nbody_rk4.py *)

Module RK4.

(** A numpy array of three floats. *)
Record V3 : Type := mkV3 { c0 : num; c1 : num; c2 : num }.

Definition vmap (f : num -> num) (v : V3) : V3 :=
  mkV3 (f (c0 v)) (f (c1 v)) (f (c2 v)).

Definition vadd (u v : V3) : V3 :=
  mkV3 (c0 u + c0 v) (c1 u + c1 v) (c2 u + c2 v).

Definition vsub (u v : V3) : V3 :=
  mkV3 (c0 u - c0 v) (c1 u - c1 v) (c2 u - c2 v).

(** scalar * array *)
Definition smul (k : num) (v : V3) : V3 := vmap (fun x => k * x)%num v.

(** array / scalar *)
Definition sdiv (v : V3) (k : num) : V3 := vmap (fun x => x / k)%num v.

(** [np.zeros(3)] *)
Definition zeros3 : V3 := mkV3 (fin 0) (fin 0) (fin 0).

(** [np.linalg.norm]: the square root of the sum of the squares. *)
Definition norm (v : V3) : num :=
  nsqrt (c0 v * c0 v + c1 v * c1 v + c2 v * c2 v)%num.

Record Particle : Type := mkParticle {
  pos : V3;
  vel : V3;
  mas : num;
  rad : Z;
  col : Z * Z * Z
}.

(** The parsed command line: an option that was not given is [None]. *)
Record Args : Type := mkArgs {
  boxsize : option Z;
  timestep : option num;
  winsize : option Z;
  ticknum : option Z;
  ticklen : option Z
}.

Record Config : Type := mkConfig {
  WINSIZE : Z;
  BOXSIZE : num;
  SCALE : num;
  TIMESTEP : num;
  TICKNUM : Z;
  TICKLEN : Z
}.

(** The local variables of [rk4]. *)
Record Locals : Type := mkLocals {
  kv1 : V3; kp1 : V3; ka1 : V3;
  kv2 : V3; kp2 : V3; ka2 : V3;
  kv3 : V3; kp3 : V3; ka3 : V3;
  kv4 : V3; kp4 : V3; ka4 : V3;
  new_vel : V3; new_pos : V3
}.

Section Constants.
(** The module [constants] (imported as [C]) is not among the sources:
    its values are parameters. *)
Variables XG XRSUN XKM XMSUN XDAY : R.

(** [Particle.__init__]; the window [win] is not used. *)
Definition Particle_init (init_pos init_vel : V3) (mass : num) (rad : Z)
  (col : Z * Z * Z) : outcome Particle :=
  Returns {| pos := vmap (fun x => x * fin XRSUN)%num init_pos;
             vel := vmap (fun v => v * fin XKM)%num init_vel;
             mas := (mass * fin XMSUN)%num;
             rad := rad;
             col := col |}.

Definition dist_to (h : store Particle) (self other : loc) : num :=
  norm (vsub (pos (h self)) (pos (h other))).

(** One turn of the loop of [acceleration], for the list entry [p1]. *)
Definition acceleration_body (h : store Particle) (self : loc)
  (position : V3) (a : V3) (p1 : loc) : V3 :=
  if Nat.eqb p1 self then a
  else
    let delta := vsub (pos (h p1)) position in
    let dist := dist_to h self p1 in
    let dsquared := nsqr dist in
    let Force := (fin XG * mas (h self) * mas (h p1) / dsquared)%num in
    vadd a (smul (Force / mas (h self))%num (sdiv delta dist)).

Definition acceleration (h : store Particle) (self : loc) (position : V3)
  (particleList : list loc) : V3 :=
  fold_left (acceleration_body h self position) particleList zeros3.

(** The body of [rk4]: the value of each of its local variables when it
    returns. *)
Definition rk4_locals (h : store Particle) (particle : loc)
  (particleList : list loc) (dt : num) : Locals :=
  let kv1 := vel (h particle) in
  let kp1 := pos (h particle) in
  let ka1 := acceleration h particle kp1 particleList in
  let kv2 := vadd kv1 (smul (fin (1 / 2) * dt)%num ka1) in
  let kp2 := vadd kp1 (smul (fin (1 / 2) * dt)%num kv2) in
  let ka2 := acceleration h particle kp2 particleList in
  let kv3 := vadd kv1 (smul (fin (1 / 2) * dt)%num ka2) in
  let kp3 := vadd kp1 (smul (fin (1 / 2) * dt)%num kv3) in
  let ka3 := acceleration h particle kp3 particleList in
  let kv4 := vadd kv1 (smul dt ka3) in
  let kp4 := vadd kp1 (smul dt kv4) in
  let ka4 := acceleration h particle kp3 particleList in
  let new_vel :=
    vadd kv1 (smul (fin 1 / fin 6 * dt)%num
                (vadd (vadd ka1 (smul (fin 2) (vadd ka2 ka3))) ka4)) in
  let new_pos :=
    vadd kp1 (smul (fin 1 / fin 6 * dt)%num
                (vadd (vadd kv1 (smul (fin 2) (vadd kv2 kv3))) kv4)) in
  {| kv1 := kv1; kp1 := kp1; ka1 := ka1;
     kv2 := kv2; kp2 := kp2; ka2 := ka2;
     kv3 := kv3; kp3 := kp3; ka3 := ka3;
     kv4 := kv4; kp4 := kp4; ka4 := ka4;
     new_vel := new_vel; new_pos := new_pos |}.

(** [rk4] returns [new_pos, new_vel]. *)
Definition rk4 (h : store Particle) (particle : loc)
  (particleList : list loc) (dt : num) : V3 * V3 :=
  let s := rk4_locals h particle particleList dt in
  (new_pos s, new_vel s).

(** [Plist[i].pos, Plist[i].vel = rk4(Plist[i], Plist, dt)] *)
Definition update_particle (Plist : list loc) (dt : num)
  (h : store Particle) (p : loc) : store Particle :=
  let '(new_pos, new_vel) := rk4 h p Plist dt in
  upd h p {| pos := new_pos; vel := new_vel; mas := mas (h p);
             rad := rad (h p); col := col (h p) |}.

(** [for i in range(len(Plist))] visits the entries of [Plist] in
    order. *)
Definition update_particles (h : store Particle) (Plist : list loc)
  (dt : num) : store Particle :=
  for_each Plist (update_particle Plist dt) h.

Definition read_args (args : Args) : outcome Config :=
  let WINSIZE :=
    match truthy_int (winsize args) with
    | Some w => w
    | None => 1000%Z
    end in
  let '(BOXSIZE, SCALE) :=
    match truthy_int (boxsize args) with
    | Some b => ((fin (IZR b) * fin XRSUN)%num,
                 (fin (IZR WINSIZE) / fin (IZR b))%num)
    | None => ((fin 1000 * fin XRSUN)%num,
               (fin (IZR WINSIZE) / fin 1000)%num)
    end in
  let TIMESTEP :=
    match truthy_float (timestep args) with
    | Some t => t
    | None => (fin XDAY / fin 10)%num
    end in
  let TICKNUM :=
    match truthy_int (ticknum args) with
    | Some n => n
    | None => 10%Z
    end in
  let TICKLEN :=
    match truthy_int (ticklen args) with
    | Some n => n
    | None => 20%Z
    end in
  Returns (mkConfig WINSIZE BOXSIZE SCALE TIMESTEP TICKNUM TICKLEN).

(** The state after [n] turns of the loop of [main]. *)
Fixpoint run (h : store Particle) (Plist : list loc) (dt : num)
  (n : nat) : store Particle :=
  match n with
  | O => h
  | S k => run (update_particles h Plist dt) Plist dt k
  end.
(** [main]: the state after [n] turns of its loop (the loop runs until
    the window is closed). *)
Definition main (args : Args) (n : nat) : outcome (store Particle) :=
  bind (read_args args) (fun cfg =>
  let c := (BOXSIZE cfg / (fin 2 * fin XRSUN))%num in
  bind (Particle_init (mkV3 (c + fin 0) c (fin 0))%num
          (mkV3 (fin 0) (fin (346 / 1000)) (fin 0))
          (fin (77 / 100)) 10 (255, 0, 0)%Z) (fun p0 =>
  bind (Particle_init (mkV3 (c + fin 186) c (fin 0))%num
          (mkV3 (fin 0) (fin (- (208 / 10))) (fin 0))
          (fin (95 / 10000)) 5 (0, 255, 0)%Z) (fun p1 =>
  bind (Particle_init (mkV3 (c + fin 338) c (fin 0))%num
          (mkV3 (fin 0) (fin (- (208 / 10))) (fin 0))
          (fin (95 / 10000)) 5 (0, 0, 255)%Z) (fun p2 =>
  Returns (run (store3 p0 p1 p2) [0; 1; 2]%nat (TIMESTEP cfg) n))))).
End Constants.

End RK4.

(** ** nbody.py *)

Module Euler.

Definition R_sun : R := 695700000.
Definition M_sun : R := 2 * 10 ^ 30.
Definition year : R := 36525 / 100 * 24 * 60 * 60.
Definition grav_constant : R := 667 / 10 ^ 13.
Definition km : R := 1000.

(** A list of two floats, read and written at [0] and [1]. *)
Record V2 : Type := mkV2 { e0 : num; e1 : num }.

Record Particle : Type := mkParticle {
  position : V2;
  velocity : V2;
  mass : num;
  radius : num;
  colour : string;
  index : Z
}.

(** [Particle.__init__]: the position is kept as it is given. Each
    particle of this program is built from a list literal of its own, so
    no two particles share a position list (particles that do are
    modelled in [Shared]). *)
Definition Particle_init (init_pos init_vel : V2) (mass radius : num)
  (index : Z) (colour : string) : outcome Particle :=
  Returns {| position := init_pos;
             velocity := mkV2 (e0 init_vel * fin km) (e1 init_vel * fin km);
             mass := (mass * fin M_sun)%num;
             radius := (radius * fin R_sun)%num;
             colour := colour;
             index := index |}.

Definition distance_to (h : store Particle) (self other : loc) : num :=
  let x1 := e0 (position (h self)) in
  let x2 := e0 (position (h other)) in
  let y1 := e1 (position (h self)) in
  let y2 := e1 (position (h other)) in
  nsqrt (nsqr (x2 - x1) + nsqr (y2 - y1))%num.

Definition set_position (p : Particle) (v : V2) : Particle :=
  {| position := v; velocity := velocity p; mass := mass p;
     radius := radius p; colour := colour p; index := index p |}.

Definition set_velocity (p : Particle) (v : V2) : Particle :=
  {| position := position p; velocity := v; mass := mass p;
     radius := radius p; colour := colour p; index := index p |}.

(** [update_position]: the arguments [cycle] and [tracks] only choose
    what is drawn. *)
Definition update_position (dt : num) (h : store Particle) (self : loc)
  : store Particle :=
  let dx := (e0 (velocity (h self)) * dt)%num in
  let dy := (e1 (velocity (h self)) * dt)%num in
  upd h self
    (set_position (h self)
       (mkV2 (e0 (position (h self)) + dx) (e1 (position (h self)) + dy))).

(** The body of the two loops of [gravitation], for the pair [p1], [p2]. *)
Definition gravitation_body (dt : num) (p1 : loc) (h : store Particle)
  (p2 : loc) : store Particle :=
  if Z.eqb (index (h p1)) (index (h p2)) then h
  else
    let Ftop := (fin grav_constant * mass (h p1) * mass (h p2))%num in
    let Fbot := nsqr (distance_to h p1 p2) in
    let F := (Ftop / Fbot)%num in
    let deltaX := (e0 (position (h p2)) - e0 (position (h p1)))%num in
    let deltaY := (e1 (position (h p2)) - e1 (position (h p1)))%num in
    let theta := narctan2 deltaX deltaY in
    let Fx := (F * nsin theta)%num in
    let Fy := (F * ncos theta)%num in
    let ax := (Fx / mass (h p1))%num in
    let ay := (Fy / mass (h p1))%num in
    upd h p1
      (set_velocity (h p1)
         (mkV2 (e0 (velocity (h p1)) + ax * dt)
               (e1 (velocity (h p1)) + ay * dt))).

Definition gravitation (particles : list loc) (dt : num) (h : store Particle)
  : store Particle :=
  for_each particles
    (fun h p1 => for_each particles (gravitation_body dt p1) h) h.

(** One turn of [for cycle in range(max_cycles)]: for each [j], the whole
    of [gravitation] and then the move of [particles[j]]. *)
Definition cycle (particles : list loc) (dt : num) (h : store Particle)
  : store Particle :=
  for_each particles
    (fun h pj => update_position dt (gravitation particles dt h) pj) h.

(** The state after [n] cycles. *)
Fixpoint run (particles : list loc) (dt : num) (n : nat) (h : store Particle)
  : store Particle :=
  match n with
  | O => h
  | S k => run particles dt k (cycle particles dt h)
  end.

(** The options of the command line that reach the physics. *)
Record Args : Type := mkArgs {
  boxsize : option Z;
  timestep : option num
}.

Definition box_size (args : Args) : num :=
  match truthy_int (boxsize args) with
  | Some b => (fin (IZR b) * fin R_sun)%num
  | None => (fin 1000 * fin R_sun)%num
  end.

Definition time_step (args : Args) : num :=
  match truthy_float (timestep args) with
  | Some t => t
  | None => fin (24 * 3600)
  end.

(** The three particles built by [__main__], at the locations 0, 1, 2. *)
Definition main_particles (args : Args) : outcome (store Particle) :=
  let half := (box_size args / fin 2)%num in
  bind (Particle_init (mkV2 half half) (mkV2 (fin 0) (fin (665 / 100)))
          (fin (99 / 10)) (fin 300) 0 "#FF0000") (fun particle0 =>
  bind (Particle_init (mkV2 (half - fin 1400 * fin R_sun) half)%num
          (mkV2 (fin 0) (fin (- (5985 / 100))))
          (fin (11 / 10)) (fin 30) 1 "#00FF00") (fun particle1 =>
  bind (Particle_init (mkV2 (half - fin 500 * fin R_sun) half)%num
          (mkV2 (fin 0) (fin (- (3679 / 100))))
          (fin (13 / 10)) (fin 30) 2 "#0000FF") (fun particle2 =>
  Returns (store3 particle0 particle1 particle2)))).

(** [__main__]: the state after [n] cycles, [n] at most
    [max_cycles = 100000]. *)
Definition main (args : Args) (n : nat) : outcome (store Particle) :=
  bind (main_particles args) (fun h =>
  Returns (run [0; 1; 2]%nat (time_step args) n h)).

End Euler.

(** ** The force model as the specification words it

    [dist] is the length of [delta], the vector from the candidate
    position to the other body. *)

Module Spec.
Import RK4.

Definition ForceModel_body (XG : R) (h : store Particle) (b : loc) (p : V3)
  (a : V3) (o : loc) : V3 :=
  if Nat.eqb o b then a
  else
    let delta := vsub (pos (h o)) p in
    let dist := norm delta in
    let force_magnitude := (fin XG * mas (h b) * mas (h o) / nsqr dist)%num in
    vadd a (smul (force_magnitude / mas (h b))%num (sdiv delta dist)).

Definition ForceModel (XG : R) (h : store Particle) (b : loc) (p : V3)
  (L : list loc) : V3 :=
  fold_left (ForceModel_body XG h b p) L zeros3.

(** The Runge-Kutta step as the specification words it: the staged
    values, each acceleration taken from [ForceModel] at the staged
    position (the fourth at [kp3]), and the two weighted sums. *)
Definition RungeKutta4 (XG : R) (h : store Particle) (b : loc)
  (L : list loc) (dt : num) : Locals :=
  let v0 := vel (h b) in
  let p0 := pos (h b) in
  let half := (fin (1 / 2) * dt)%num in
  let kv1 := v0 in
  let kp1 := p0 in
  let ka1 := ForceModel XG h b kp1 L in
  let kv2 := vadd kv1 (smul half ka1) in
  let kp2 := vadd kp1 (smul half kv2) in
  let ka2 := ForceModel XG h b kp2 L in
  let kv3 := vadd kv1 (smul half ka2) in
  let kp3 := vadd kp1 (smul half kv3) in
  let ka3 := ForceModel XG h b kp3 L in
  let kv4 := vadd kv1 (smul dt ka3) in
  let kp4 := vadd kp1 (smul dt kv4) in
  let ka4 := ForceModel XG h b kp3 L in
  let new_velocity :=
    vadd v0 (smul (dt / fin 6)%num
               (vadd (vadd (vadd ka1 (smul (fin 2) ka2)) (smul (fin 2) ka3))
                  ka4)) in
  let new_position :=
    vadd p0 (smul (dt / fin 6)%num
               (vadd (vadd (vadd kv1 (smul (fin 2) kv2)) (smul (fin 2) kv3))
                  kv4)) in
  {| kv1 := kv1; kp1 := kp1; ka1 := ka1;
     kv2 := kv2; kp2 := kp2; ka2 := ka2;
     kv3 := kv3; kp3 := kp3; ka3 := ka3;
     kv4 := kv4; kp4 := kp4; ka4 := ka4;
     new_vel := new_velocity; new_pos := new_position |}.

End Spec.

(** Modelled from the spec: the module [constants] imported by
    scripts/grav_nbody_rk4.py is missing; the spec lists its contents
    (gravitational constant, solar mass and radius, metres per kilometre)
    and nbody.py gives the values. Used where a concrete run is
    evaluated. *)
Module C.
Definition XG : R := Euler.grav_constant.
Definition XRSUN : R := Euler.R_sun.
Definition XKM : R := Euler.km.
Definition XMSUN : R := Euler.M_sun.
Definition XDAY : R := 24 * 3600.
End C.

(** ** Concrete configurations *)

(** A body at the origin and a body two metres along the first axis, one
    kilogram each, at rest. *)
Definition origin_body : RK4.Particle :=
  RK4.mkParticle (RK4.mkV3 (fin 0) (fin 0) (fin 0))
    (RK4.mkV3 (fin 0) (fin 0) (fin 0)) (fin 1) 4 (0, 0, 0)%Z.

Definition far_body : RK4.Particle :=
  RK4.mkParticle (RK4.mkV3 (fin 2) (fin 0) (fin 0))
    (RK4.mkV3 (fin 0) (fin 0) (fin 0)) (fin 1) 4 (0, 0, 0)%Z.

Definition midway : RK4.V3 := RK4.mkV3 (fin 1) (fin 0) (fin 0).

(** ** Predicates on stores *)

(** The attributes of a particle other than position and velocity. *)
Definition same_attributes_rk4 (h h' : store RK4.Particle) : Prop :=
  forall l, RK4.mas (h' l) = RK4.mas (h l)
            /\ RK4.rad (h' l) = RK4.rad (h l)
            /\ RK4.col (h' l) = RK4.col (h l).

Definition same_attributes_euler (h h' : store Euler.Particle) : Prop :=
  forall l, Euler.mass (h' l) = Euler.mass (h l)
            /\ Euler.radius (h' l) = Euler.radius (h l)
            /\ Euler.colour (h' l) = Euler.colour (h l)
            /\ Euler.index (h' l) = Euler.index (h l).

(** A float that is a finite real. *)
Definition finite (a : num) : Prop := exists x, a = fin x.

Definition finite3 (v : RK4.V3) : Prop :=
  finite (RK4.c0 v) /\ finite (RK4.c1 v) /\ finite (RK4.c2 v).

Definition finite2 (v : Euler.V2) : Prop :=
  finite (Euler.e0 v) /\ finite (Euler.e1 v).

(** Bodies as the data model has them: position and velocity are vectors
    of reals and the mass is a positive real. *)
Definition bodies_rk4 (h : store RK4.Particle) (L : list loc) : Prop :=
  forall l, In l L ->
    finite3 (RK4.pos (h l)) /\ finite3 (RK4.vel (h l))
    /\ exists m, RK4.mas (h l) = fin m /\ 0 < m.

Definition bodies_euler (h : store Euler.Particle) (L : list loc) : Prop :=
  forall l, In l L ->
    finite2 (Euler.position (h l)) /\ finite2 (Euler.velocity (h l))
    /\ exists m, Euler.mass (h l) = fin m /\ 0 < m.

(** No two bodies of the list coincide. *)
Definition apart_rk4 (h : store RK4.Particle) (L : list loc) : Prop :=
  forall l l', In l L -> In l' L -> l <> l' ->
    RK4.pos (h l) <> RK4.pos (h l').

Definition apart_euler (h : store Euler.Particle) (L : list loc) : Prop :=
  forall l l', In l L -> In l' L -> l <> l' ->
    Euler.position (h l) <> Euler.position (h l').

(** ** Momentum

    The vector sum over the bodies of a list of mass times velocity. *)

Definition momentum_rk4 (h : store RK4.Particle) (L : list loc) : RK4.V3 :=
  fold_right
    (fun l s => RK4.vadd (RK4.smul (RK4.mas (h l)) (RK4.vel (h l))) s)
    RK4.zeros3 L.

Definition momentum_euler (h : store Euler.Particle) (L : list loc)
  : Euler.V2 :=
  fold_right
    (fun l s =>
       Euler.mkV2
         (Euler.mass (h l) * Euler.e0 (Euler.velocity (h l)) + Euler.e0 s)
         (Euler.mass (h l) * Euler.e1 (Euler.velocity (h l)) + Euler.e1 s))
    (Euler.mkV2 (fin 0) (fin 0)) L.

(** No two bodies coincide when [gravitation] is called, at any of its
    calls in one cycle ([todo] lists the particles still to be moved) and
    in [n] cycles. *)
Fixpoint cycle_apart (todo particles : list loc) (dt : num)
  (h : store Euler.Particle) : Prop :=
  match todo with
  | [] => True
  | pj :: rest =>
      apart_euler h particles
      /\ cycle_apart rest particles dt
           (Euler.update_position dt (Euler.gravitation particles dt h) pj)
  end.

Fixpoint run_apart (particles : list loc) (dt : num) (n : nat)
  (h : store Euler.Particle) : Prop :=
  match n with
  | O => True
  | S k =>
      cycle_apart particles particles dt h
      /\ run_apart particles dt k (Euler.cycle particles dt h)
  end.

(** ** The real numbers behind a store of finite values *)

Definition real (a : num) : R :=
  match a with
  | Some x => x
  | None => 0
  end.

Definition sum_over (L : list loc) (f : loc -> R) : R :=
  fold_right (fun l s => f l + s) 0 L.

(** The two components of the force of [gravitation] on [p1] from [p2]. *)
Definition force (h : store Euler.Particle) (p1 p2 : loc) : R * R :=
  if Z.eqb (Euler.index (h p1)) (Euler.index (h p2)) then (0, 0)
  else
    let m1 := real (Euler.mass (h p1)) in
    let m2 := real (Euler.mass (h p2)) in
    let deltaX := real (Euler.e0 (Euler.position (h p2)))
                  - real (Euler.e0 (Euler.position (h p1))) in
    let deltaY := real (Euler.e1 (Euler.position (h p2)))
                  - real (Euler.e1 (Euler.position (h p1))) in
    let d := sqrt (deltaX * deltaX + deltaY * deltaY) in
    let F := Euler.grav_constant * m1 * m2 / (d * d) in
    let theta := arctan2 deltaX deltaY in
    (F * sin theta, F * cos theta).

(** Two stores with the same positions, masses and indices. *)
Definition same_geometry (h h' : store Euler.Particle) : Prop :=
  forall l, Euler.position (h' l) = Euler.position (h l)
            /\ Euler.mass (h' l) = Euler.mass (h l)
            /\ Euler.index (h' l) = Euler.index (h l).

(** The components of the momentum of a store of finite values. *)
Definition momentum_x (h : store Euler.Particle) (L : list loc) : R :=
  sum_over L
    (fun l => real (Euler.mass (h l)) * real (Euler.e0 (Euler.velocity (h l)))).

Definition momentum_y (h : store Euler.Particle) (L : list loc) : R :=
  sum_over L
    (fun l => real (Euler.mass (h l)) * real (Euler.e1 (Euler.velocity (h l)))).

(** Two particles of nbody.py of one solar mass each on the second axis,
    at heights [y0] and [y1] with vertical velocities [v0] and [v1], with
    indices 0 and 1. *)
Definition star (y vy : R) (i : Z) : Euler.Particle :=
  Euler.mkParticle (Euler.mkV2 (fin 0) (fin y)) (Euler.mkV2 (fin 0) (fin vy))
    (fin Euler.M_sun) (fin Euler.R_sun) "#000000" i.

Definition column (y0 v0 y1 v1 : R) : store Euler.Particle :=
  store2 (star y0 v0 0) (star y1 v1 1) (star 0 0 2).

(** The acceleration of one solar mass at the distance [D]. *)
Definition pull (D : R) : R := Euler.grav_constant * Euler.M_sun / (D * D).

(** Two particles of the Runge-Kutta script on the first axis, at [x0] and
    [x1] with velocities [v0] and [v1] along it, of mass [m] each. *)
Definition ball (x vx m : R) : RK4.Particle :=
  RK4.mkParticle (RK4.mkV3 (fin x) (fin 0) (fin 0))
    (RK4.mkV3 (fin vx) (fin 0) (fin 0)) (fin m) 4 (0, 0, 0)%Z.

Definition axis (x0 v0 x1 v1 m : R) : store RK4.Particle :=
  store2 (ball x0 v0 m) (ball x1 v1 m) (ball 0 0 m).

(** [rk4] in one dimension, in real numbers, for the acceleration
    [k * (c - p)] at the candidate position [p]: new position and new
    velocity. *)
Definition rk4_line (k c x v dt : R) : R * R :=
  let a := fun p => k * (c - p) in
  let kv1 := v in
  let kp1 := x in
  let ka1 := a kp1 in
  let kv2 := kv1 + 1 / 2 * dt * ka1 in
  let kp2 := kp1 + 1 / 2 * dt * kv2 in
  let ka2 := a kp2 in
  let kv3 := kv1 + 1 / 2 * dt * ka2 in
  let kp3 := kp1 + 1 / 2 * dt * kv3 in
  let ka3 := a kp3 in
  let kv4 := kv1 + dt * ka3 in
  let ka4 := a kp3 in
  (kp1 + 1 / 6 * dt * (kv1 + 2 * (kv2 + kv3) + kv4),
   kv1 + 1 / 6 * dt * (ka1 + 2 * (ka2 + ka3) + ka4)).

(** The column of the worked run: the stars at heights 0 and 10^10 metres,
    at rest. *)
Definition wide_column : store Euler.Particle := column 0 0 10000000000 0.

(** The axis of the worked run: the balls at 0 and 1 metre, at rest, each
    of the mass for which G times the mass is 1. *)
Definition unit_axis : store RK4.Particle := axis 0 0 1 0 (1 / C.XG).


(** The real coordinates of a particle of nbody.py. *)
Definition pos_x (h : store Euler.Particle) (l : loc) : R :=
  real (Euler.e0 (Euler.position (h l))).

Definition vel_x (h : store Euler.Particle) (l : loc) : R :=
  real (Euler.e0 (Euler.velocity (h l))).

Definition mass_of (h : store Euler.Particle) (l : loc) : R :=
  real (Euler.mass (h l)).

(** The particles of nbody.py as [__main__] builds them when no option is
    given: the box is 1000 solar radii wide. *)
Definition launch : store Euler.Particle :=
  store3
    (Euler.mkParticle
       (Euler.mkV2 (fin (1000 * Euler.R_sun / 2))
          (fin (1000 * Euler.R_sun / 2)))
       (Euler.mkV2 (fin (0 * Euler.km)) (fin (665 / 100 * Euler.km)))
       (fin (99 / 10 * Euler.M_sun)) (fin (300 * Euler.R_sun)) "#FF0000" 0)
    (Euler.mkParticle
       (Euler.mkV2 (fin (1000 * Euler.R_sun / 2 - 1400 * Euler.R_sun))
          (fin (1000 * Euler.R_sun / 2)))
       (Euler.mkV2 (fin (0 * Euler.km)) (fin (- (5985 / 100) * Euler.km)))
       (fin (11 / 10 * Euler.M_sun)) (fin (30 * Euler.R_sun)) "#00FF00" 1)
    (Euler.mkParticle
       (Euler.mkV2 (fin (1000 * Euler.R_sun / 2 - 500 * Euler.R_sun))
          (fin (1000 * Euler.R_sun / 2)))
       (Euler.mkV2 (fin (0 * Euler.km)) (fin (- (3679 / 100) * Euler.km)))
       (fin (13 / 10 * Euler.M_sun)) (fin (30 * Euler.R_sun)) "#0000FF" 2).

(** The command line of nbody.py with no option. *)
Definition no_option : Euler.Args := Euler.mkArgs None None.

(** A store of the three particles in which each is within [d] metres of
    where [launch] has it along the first axis, and moves along it no
    faster than [v] metres per second. *)
Definition near_launch (h : store Euler.Particle) (v d : R) : Prop :=
  bodies_euler h [0; 1; 2]%nat
  /\ (forall l, Euler.mass (h l) = Euler.mass (launch l)
                /\ Euler.index (h l) = Euler.index (launch l))
  /\ (forall l, In l [0; 1; 2]%nat ->
        Rabs (pos_x h l - pos_x launch l) <= d /\ Rabs (vel_x h l) <= v).

(** ** Values that are not finite *)

(** The vector of three floats none of which is a finite real, and the
    pair of two. *)
Definition nowhere : RK4.V3 := RK4.mkV3 None None None.

Definition nowhere2 : Euler.V2 := Euler.mkV2 None None.


(** What [gravitation] keeps of every particle, in any store: position
    and index, and a velocity without a finite component once it is
    one. *)
Definition gravitation_keeps (h h' : store Euler.Particle) : Prop :=
  (forall l, Euler.position (h' l) = Euler.position (h l)
             /\ Euler.index (h' l) = Euler.index (h l))
  /\ (forall l, Euler.velocity (h l) = nowhere2 ->
                Euler.velocity (h' l) = nowhere2).


(** ** The same particles somewhere else *)

(** The store [h] with every particle displaced by the vector
    [(a, b, c)]; for nbody.py, by [(a, b)]. *)
Definition moved (a b c : R) (h : store RK4.Particle) : store RK4.Particle :=
  fun l =>
    RK4.mkParticle
      (RK4.vadd (RK4.pos (h l)) (RK4.mkV3 (fin a) (fin b) (fin c)))
      (RK4.vel (h l)) (RK4.mas (h l)) (RK4.rad (h l)) (RK4.col (h l)).

Definition moved2 (a b : R) (e : store Euler.Particle)
  : store Euler.Particle :=
  fun l =>
    Euler.set_position (e l)
      (Euler.mkV2 (Euler.e0 (Euler.position (e l)) + fin a)
         (Euler.e1 (Euler.position (e l)) + fin b)).


(** ** Newton's law in real numbers

    The real coordinates of a particle of the Runge-Kutta script, the
    distance between the stored positions of two particles, and the
    factor [G m / d^3] of the pull of the particle [o] on the particle
    [self] (nothing when [o] is [self]). *)
Definition px (h : store RK4.Particle) (l : loc) : R :=
  real (RK4.c0 (RK4.pos (h l))).

Definition py (h : store RK4.Particle) (l : loc) : R :=
  real (RK4.c1 (RK4.pos (h l))).

Definition pz (h : store RK4.Particle) (l : loc) : R :=
  real (RK4.c2 (RK4.pos (h l))).

Definition gap (h : store RK4.Particle) (a b : loc) : R :=
  sqrt ((px h a - px h b) * (px h a - px h b)
        + (py h a - py h b) * (py h a - py h b)
        + (pz h a - pz h b) * (pz h a - pz h b)).

Definition tug (XG : R) (h : store RK4.Particle) (self o : loc) : R :=
  if Nat.eqb o self then 0
  else XG * real (RK4.mas (h o)) / (gap h self o * gap h self o * gap h self o).


Definition pos_y (h : store Euler.Particle) (l : loc) : R :=
  real (Euler.e1 (Euler.position (h l))).

Definition vel_y (h : store Euler.Particle) (l : loc) : R :=
  real (Euler.e1 (Euler.velocity (h l))).

(** The distance between two particles of nbody.py, in real numbers. *)
Definition gap2 (h : store Euler.Particle) (a b : loc) : R :=
  sqrt ((pos_x h b - pos_x h a) * (pos_x h b - pos_x h a)
        + (pos_y h b - pos_y h a) * (pos_y h b - pos_y h a)).


(** ** The window of scripts/grav_nbody_rk4.py

    A call that draws on the pygame window is recorded with the
    arguments that place it (the constant colours and thicknesses of the
    ticks, labels and timer are left out); the window is the list of
    these calls, in the order in which they are made. What pygame does
    with a call is outside the model. *)

(** [int(x)] on a float: the integer towards zero; it raises on a float
    that is not a finite real (ValueError on nan, OverflowError on
    inf). *)
Definition trunc (x : R) : Z := if Rle_dec 0 x then Zfloor x else Zceil x.

Definition to_int (a : num) : outcome Z :=
  match a with
  | Some x => Returns (trunc x)
  | None => Raises "cannot convert float to integer"
  end.

(** [range(n)] *)
Definition range (n : Z) : list Z := map Z.of_nat (seq 0 (Z.to_nat n)).

Module Display.
Import RK4.

Inductive drawn : Type :=
| Circle (colour : Z * Z * Z) (centre : Z * Z) (radius : Z)
| Line (start stop : num * num)
| Label (value : num) (corner : num * num)
| Rect (corner : Z * Z) (width height : Z)
| Timer (time : num) (corner : Z * Z).

(** The variables of the loop of [main]: the elapsed time, the particles
    and the window. *)
Record World : Type := mkWorld {
  clock : num;
  bodies : store Particle;
  window : list drawn
}.

Section Window.
Variables XG XRSUN XKM XMSUN XDAY XYR : R.
(** The size in pixels of a rendered text is given by the font:
    [get_width] and [get_height] of the label of a value and
    [get_height] of the timer of a time. *)
Variables label_width label_height timer_height : num -> Z.

(** [Particle.draw]: one circle, at the position in solar radii times
    [SCALE]. *)
Definition draw (p : Particle) (SCALE : num) : outcome drawn :=
  bind (to_int (c0 (pos p) / fin XRSUN * SCALE)%num) (fun x =>
  bind (to_int (c1 (pos p) / fin XRSUN * SCALE)%num) (fun y =>
  bind (to_int (fin (IZR (rad p)) * SCALE)%num) (fun r =>
  Returns (Circle (col p) (x, y) (r + 2)%Z)))).

(** One turn of the loop of [update_particles]: the update of [Plist[i]]
    and then its drawing. *)
Definition update_and_draw (Plist : list loc) (dt SCALE : num)
  (s : outcome (store Particle * list drawn)) (p : loc)
  : outcome (store Particle * list drawn) :=
  bind s (fun '(h, win) =>
  let h' := RK4.update_particle XG Plist dt h p in
  bind (draw (h' p) SCALE) (fun c => Returns (h', win ++ [c]))).

(** [update_particles(win, Plist, dt, SCALE)] *)
Definition update_particles (h : store Particle) (win : list drawn)
  (Plist : list loc) (dt SCALE : num)
  : outcome (store Particle * list drawn) :=
  fold_left (update_and_draw Plist dt SCALE) Plist (Returns (h, win)).

(** The four ticks drawn for [i]: left, right, top, bottom. *)
Definition ticks (WINSIZE TICKLEN : Z) (TICKSPACE : num) (i : Z)
  : list drawn :=
  let at_i := (fin (IZR i) * TICKSPACE)%num in
  [ Line (fin 0, at_i) (fin (IZR TICKLEN), at_i);
    Line (fin (IZR (WINSIZE - TICKLEN)), at_i) (fin (IZR WINSIZE), at_i);
    Line (at_i, fin 0) (at_i, fin (IZR TICKLEN));
    Line (at_i, fin (IZR (WINSIZE - TICKLEN))) (at_i, fin (IZR WINSIZE)) ].

(** The two labels drawn for [i], left and top; [LABELPAD] is 5. The
    text of a label is its value written with one decimal: the value is
    what is recorded. *)
Definition labels (TICKLEN : Z) (TICKJUMP TICKSPACE : num) (i : Z)
  : list drawn :=
  let value := (fin (IZR (i + 1)) * TICKJUMP / fin XRSUN)%num in
  let at_i := (fin (IZR (i + 1)) * TICKSPACE)%num in
  [ Label value
      (fin (IZR (TICKLEN + 5)),
       (at_i - fin (IZR (label_height value)) / fin 2)%num);
    Label value
      ((at_i - fin (IZR (label_width value)) / fin 2)%num,
       fin (IZR (TICKLEN + 5))) ].

(** [draw_axes]: of its two divisions by [TICKNUM], the second is one of
    an integer by an integer. *)
Definition draw_axes (WINSIZE : Z) (BOXSIZE : num) (TICKNUM TICKLEN : Z)
  : outcome (list drawn) :=
  if Z.eqb TICKNUM 0 then Raises "division by zero"
  else
    let TICKJUMP := (BOXSIZE / fin (IZR TICKNUM))%num in
    let TICKSPACE := (fin (IZR WINSIZE) / fin (IZR TICKNUM))%num in
    Returns
      (flat_map (ticks WINSIZE TICKLEN TICKSPACE) (range TICKNUM)
       ++ flat_map (labels TICKLEN TICKJUMP TICKSPACE) (range (TICKNUM - 1))).

(** [time_display]: the box, 110 by 20 pixels, and the time over it. *)
Definition time_display (time : num) (WINSIZE TICKLEN : Z) : list drawn :=
  [ Rect ((WINSIZE - 110 - TICKLEN - 20)%Z, (WINSIZE - 20 - TICKLEN - 20)%Z)
      110 20;
    Timer time
      ((WINSIZE - 110 - TICKLEN - 20)%Z,
       (WINSIZE - TICKLEN - 20 - timer_height time)%Z) ].

(** [initialise_display]: the window as it is when it returns. *)
Definition initialise_display (WINSIZE : Z) (BOXSIZE : num)
  (TICKNUM TICKLEN : Z) : outcome (list drawn) :=
  bind (draw_axes WINSIZE BOXSIZE TICKNUM TICKLEN) (fun axes =>
  Returns (axes ++ time_display (fin 0) WINSIZE TICKLEN)).

(** One turn of the loop of [main]. *)
Definition turn (cfg : Config) (Plist : list loc) (w : World)
  : outcome World :=
  let time := (clock w + TIMESTEP cfg / fin XYR)%num in
  bind (update_particles (bodies w) (window w) Plist (TIMESTEP cfg)
          (SCALE cfg)) (fun '(h, win) =>
  bind (draw_axes (WINSIZE cfg) (BOXSIZE cfg) (TICKNUM cfg) (TICKLEN cfg))
    (fun axes =>
  Returns (mkWorld time h
             (win ++ time_display time (WINSIZE cfg) (TICKLEN cfg) ++ axes)))).

Fixpoint turns (cfg : Config) (Plist : list loc) (n : nat) (w : World)
  : outcome World :=
  match n with
  | O => Returns w
  | S k => bind (turn cfg Plist w) (turns cfg Plist k)
  end.

(** [main] with its window: the variables of its loop after [n] turns. *)
Definition main (args : Args) (n : nat) : outcome World :=
  bind (RK4.read_args XRSUN XDAY args) (fun cfg =>
  bind (initialise_display (WINSIZE cfg) (BOXSIZE cfg) (TICKNUM cfg)
          (TICKLEN cfg)) (fun win =>
  let c := (BOXSIZE cfg / (fin 2 * fin XRSUN))%num in
  bind (RK4.Particle_init XRSUN XKM XMSUN (mkV3 (c + fin 0) c (fin 0))%num
          (mkV3 (fin 0) (fin (346 / 1000)) (fin 0))
          (fin (77 / 100)) 10 (255, 0, 0)%Z) (fun p0 =>
  bind (RK4.Particle_init XRSUN XKM XMSUN (mkV3 (c + fin 186) c (fin 0))%num
          (mkV3 (fin 0) (fin (- (208 / 10))) (fin 0))
          (fin (95 / 10000)) 5 (0, 255, 0)%Z) (fun p1 =>
  bind (RK4.Particle_init XRSUN XKM XMSUN (mkV3 (c + fin 338) c (fin 0))%num
          (mkV3 (fin 0) (fin (- (208 / 10))) (fin 0))
          (fin (95 / 10000)) 5 (0, 0, 255)%Z) (fun p2 =>
  turns cfg [0; 1; 2]%nat n
    (mkWorld (fin 0) (store3 p0 p1 p2) win)))))).
End Window.

End Display.

(** A particle that [draw] can draw at the scale [SCALE]: the three
    numbers it turns into integers are finite reals. *)
Definition drawable (XRSUN : R) (SCALE : num) (p : RK4.Particle) : Prop :=
  finite (RK4.c0 (RK4.pos p) / fin XRSUN * SCALE)%num
  /\ finite (RK4.c1 (RK4.pos p) / fin XRSUN * SCALE)%num
  /\ finite (fin (IZR (RK4.rad p)) * SCALE)%num.


(** A point of the window of side [W]: both coordinates are finite reals
    between 0 and [W]. *)
Definition inside (W : Z) (p : num * num) : Prop :=
  exists x y : R, p = (fin x, fin y) /\ 0 <= x <= IZR W /\ 0 <= y <= IZR W.


(** ** The canvas of nbody.py

    A call that creates an item on the tkinter canvas is recorded with
    its coordinates and its tag (the fill and outline colours are left
    out); the canvas is the list of its items, in the order of their
    creation. [frame.move(tag, dx, dy)] adds [(dx, dy)] to the
    coordinates of every item that carries the tag. *)

Module Canvas.
Import Euler.

(** "Particle" + str(index) + "Shape", "Particle" + str(index) + "Track"
    and the four tags of the ticks. *)
Inductive tag : Type :=
| Shape (index : Z)
| Track (index : Z)
| LeftTicks
| RightTicks
| TopTicks
| BottomTicks.

Definition tag_eqb (s t : tag) : bool :=
  match s, t with
  | Shape i, Shape j => Z.eqb i j
  | Track i, Track j => Z.eqb i j
  | LeftTicks, LeftTicks => true
  | RightTicks, RightTicks => true
  | TopTicks, TopTicks => true
  | BottomTicks, BottomTicks => true
  | _, _ => false
  end.

Inductive item : Type :=
| Oval (t : tag) (x0 y0 x1 y1 : num)
| Line (t : tag) (x0 y0 x1 y1 : num)
| Text (x y : num) (value : num) (anchor : string)
| Rectangle (x0 y0 x1 y1 : Z).

(** [frame.move(t, dx, dy)] *)
Definition move (t : tag) (dx dy : num) (canvas : list item) : list item :=
  map (fun it =>
         match it with
         | Oval t' x0 y0 x1 y1 =>
             if tag_eqb t' t
             then Oval t' (x0 + dx) (y0 + dy) (x1 + dx) (y1 + dy)
             else it
         | Line t' x0 y0 x1 y1 =>
             if tag_eqb t' t
             then Line t' (x0 + dx) (y0 + dy) (x1 + dx) (y1 + dy)
             else it
         | _ => it
         end)%num canvas.

(** The options of the command line that reach the window only. *)
Record Options : Type := mkOptions {
  windowsize : option Z;
  ticknum : option Z;
  ticklength : option Z
}.

Definition window_size (o : Options) : Z :=
  match truthy_int (windowsize o) with
  | Some w => w
  | None => 1000%Z
  end.

Definition tick_num (o : Options) : Z :=
  match truthy_int (ticknum o) with
  | Some n => n
  | None => 10%Z
  end.

Definition tick_length (o : Options) : Z :=
  match truthy_int (ticklength o) with
  | Some n => n
  | None => 20%Z
  end.

(** [scale = window_size/box_size], in pixels per metre. *)
Definition scale (args : Args) (o : Options) : num :=
  (fin (IZR (window_size o)) / box_size args)%num.

(** [Particle.draw]: the oval of the particle; [scale] is a global of
    the program. *)
Definition draw (scale : num) (p : Particle) : item :=
  Oval (Shape (index p))
    (e0 (position p) * scale - radius p * scale - fin 2)%num
    (e1 (position p) * scale - radius p * scale - fin 2)%num
    (e0 (position p) * scale + radius p * scale - fin 2)%num
    (e1 (position p) * scale + radius p * scale - fin 2)%num.

(** [update_position] with what it does on the canvas: the track, on
    even cycles when [tracks] is set, and the move of the shape. *)
Definition update_position (scale : num) (dt : num) (cycle : Z)
  (tracks : bool) (s : store Particle * list item) (self : loc)
  : store Particle * list item :=
  let '(h, canvas) := s in
  let dx := (e0 (velocity (h self)) * dt)%num in
  let dy := (e1 (velocity (h self)) * dt)%num in
  let h' := Euler.update_position dt h self in
  let canvas' :=
    if andb (Z.eqb (cycle mod 2) 0) tracks
    then canvas ++
         [ Oval (Track (index (h' self)))
             (e0 (position (h' self)) * scale - fin 2)%num
             (e1 (position (h' self)) * scale - fin 2)%num
             (e0 (position (h' self)) * scale + fin 2)%num
             (e1 (position (h' self)) * scale + fin 2)%num ]
    else canvas in
  (h', move (Shape (index (h' self))) (dx * scale)%num (dy * scale)%num
         canvas').

(** The four ticks created for [i]. *)
Definition ticks (window_size tick_length : Z) (tick_spacing : num) (i : Z)
  : list item :=
  let at_i := (fin (IZR i) * tick_spacing)%num in
  [ Line LeftTicks (fin 0) at_i (fin (IZR tick_length)) at_i;
    Line RightTicks (fin (IZR (window_size - tick_length))) at_i
      (fin (IZR window_size)) at_i;
    Line TopTicks at_i (fin 0) at_i (fin (IZR tick_length));
    Line BottomTicks at_i (fin (IZR (window_size - tick_length))) at_i
      (fin (IZR window_size)) ].

(** The two texts created for [i]: the value in solar radii (the text
    is the value written with two decimals; the value is what is
    recorded). *)
Definition labels (tick_length : Z) (tick_jump tick_spacing : num) (i : Z)
  : list item :=
  let value := (fin (IZR (i + 1)) * tick_jump / fin R_sun)%num in
  let at_i := (fin (IZR (i + 1)) * tick_spacing)%num in
  [ Text (fin (IZR (tick_length + 5))) at_i value "w";
    Text at_i (fin (IZR (tick_length + 5))) value "c" ].

(** [draw_grid]: its first statement divides a float by the integer
    [tick_num]. *)
Definition draw_grid (window_size : Z) (box_size : num)
  (tick_num tick_length : Z) : outcome (list item) :=
  if Z.eqb tick_num 0 then Raises "float division by zero"
  else
    let tick_jump := (box_size / fin (IZR tick_num))%num in
    let tick_spacing := (fin (IZR window_size) / fin (IZR tick_num))%num in
    Returns
      (flat_map (ticks window_size tick_length tick_spacing) (range tick_num)
       ++ flat_map (labels tick_length tick_jump tick_spacing)
            (range (tick_num - 1))).

(** [time_display]: a rectangle, 120 by 20 pixels, and the time over it;
    [window_size] and [tick_length] are globals of the program. *)
Definition time_display (window_size tick_length : Z) (time : num)
  : list item :=
  [ Rectangle (window_size - 120 - tick_length - 30)%Z
      (window_size - tick_length - 30)%Z
      (window_size - tick_length - 30)%Z
      (window_size - 20 - tick_length - 30)%Z;
    Text (fin (IZR (window_size - 120 - tick_length - 20)))
      (fin (IZR (window_size - tick_length - 40))) time "w" ].

(** One turn of [for j in range(len(particles))], in the cycle [c]. *)
Definition turn (scale dt : num) (window_size tick_length : Z)
  (particles : list loc) (c : Z) (s : store Particle * list item) (pj : loc)
  : store Particle * list item :=
  let '(h, canvas) := s in
  let '(h', canvas') :=
    update_position scale dt c false (gravitation particles dt h, canvas) pj in
  let current_time := (fin (IZR c) * dt / fin year)%num in
  (h', canvas' ++ time_display window_size tick_length current_time).

(** The cycles [c], [c + 1], ..., [c + n - 1] of
    [for cycle in range(max_cycles)]. *)
Fixpoint cycles (scale dt : num) (window_size tick_length : Z)
  (particles : list loc) (c : Z) (n : nat) (s : store Particle * list item)
  : store Particle * list item :=
  match n with
  | O => s
  | S k =>
      cycles scale dt window_size tick_length particles (c + 1) k
        (fold_left (turn scale dt window_size tick_length particles c)
           particles s)
  end.

(** [__main__] with its canvas: the particles and the canvas after [n]
    cycles, [n] at most [max_cycles = 100000]. Each particle draws
    itself when it is built. *)
Definition main (args : Args) (o : Options) (n : nat)
  : outcome (store Particle * list item) :=
  bind (draw_grid (window_size o) (box_size args) (tick_num o)
          (tick_length o)) (fun grid =>
  bind (main_particles args) (fun h =>
  Returns
    (cycles (scale args o) (time_step args) (window_size o) (tick_length o)
       [0; 1; 2]%nat 0 n
       (h, grid ++ [ draw (scale args o) (h 0%nat);
                     draw (scale args o) (h 1%nat);
                     draw (scale args o) (h 2%nat) ])))).

End Canvas.




(** Three balls of one kilogram on the first axis, at 0, 1 and 3 metres,
    at rest. *)
Definition trio : store RK4.Particle :=
  store3 (ball 0 0 1) (ball 1 0 1) (ball 3 0 1).

(** ** nbody.py with its position lists as shared objects

    [Particle.__init__] keeps the list that it is given
    ([self.position = init_pos]) and [update_position] changes that list
    in place: two particles built from one list share their position.
    Here a particle holds the location of its position list, and the
    lists live in a store of their own. The velocity list is made by the
    constructor, one for each particle, and is held by value. [Euler] is
    this program for particles that share no list. *)

Module Shared.

Record Particle : Type := mkParticle {
  position : loc;
  velocity : Euler.V2;
  mass : num;
  radius : num;
  colour : string;
  index : Z
}.

Record State : Type := mkState {
  particles : store Particle;
  lists : store Euler.V2
}.

(** [Particle.__init__], given the list object [init_pos]. *)
Definition Particle_init (init_pos : loc) (init_vel : Euler.V2)
  (mass radius : num) (index : Z) (colour : string) : outcome Particle :=
  Returns {| position := init_pos;
             velocity := Euler.mkV2 (Euler.e0 init_vel * fin Euler.km)
                           (Euler.e1 init_vel * fin Euler.km);
             mass := (mass * fin Euler.M_sun)%num;
             radius := (radius * fin Euler.R_sun)%num;
             colour := colour;
             index := index |}.

(** [self.position]: what the list of the particle holds. *)
Definition place (s : State) (l : loc) : Euler.V2 :=
  lists s (position (particles s l)).

(** The particles as values, each with what its position list holds. *)
Definition look (s : State) : store Euler.Particle :=
  fun l =>
    Euler.mkParticle (place s l) (velocity (particles s l))
      (mass (particles s l)) (radius (particles s l))
      (colour (particles s l)) (index (particles s l)).

Definition distance_to (s : State) (self other : loc) : num :=
  let x1 := Euler.e0 (place s self) in
  let x2 := Euler.e0 (place s other) in
  let y1 := Euler.e1 (place s self) in
  let y2 := Euler.e1 (place s other) in
  nsqrt (nsqr (x2 - x1) + nsqr (y2 - y1))%num.

Definition set_velocity (p : Particle) (v : Euler.V2) : Particle :=
  {| position := position p; velocity := v; mass := mass p;
     radius := radius p; colour := colour p; index := index p |}.

(** [update_position]: the list of [self] is changed in place. *)
Definition update_position (dt : num) (s : State) (self : loc) : State :=
  let dx := (Euler.e0 (velocity (particles s self)) * dt)%num in
  let dy := (Euler.e1 (velocity (particles s self)) * dt)%num in
  mkState (particles s)
    (upd (lists s) (position (particles s self))
       (Euler.mkV2 (Euler.e0 (place s self) + dx)
          (Euler.e1 (place s self) + dy))).

(** The body of the two loops of [gravitation], for the pair [p1], [p2]. *)
Definition gravitation_body (dt : num) (p1 : loc) (s : State) (p2 : loc)
  : State :=
  if Z.eqb (index (particles s p1)) (index (particles s p2)) then s
  else
    let Ftop := (fin Euler.grav_constant * mass (particles s p1)
                 * mass (particles s p2))%num in
    let Fbot := nsqr (distance_to s p1 p2) in
    let F := (Ftop / Fbot)%num in
    let deltaX := (Euler.e0 (place s p2) - Euler.e0 (place s p1))%num in
    let deltaY := (Euler.e1 (place s p2) - Euler.e1 (place s p1))%num in
    let theta := narctan2 deltaX deltaY in
    let Fx := (F * nsin theta)%num in
    let Fy := (F * ncos theta)%num in
    let ax := (Fx / mass (particles s p1))%num in
    let ay := (Fy / mass (particles s p1))%num in
    mkState
      (upd (particles s) p1
         (set_velocity (particles s p1)
            (Euler.mkV2 (Euler.e0 (velocity (particles s p1)) + ax * dt)
               (Euler.e1 (velocity (particles s p1)) + ay * dt))))
      (lists s).

Definition gravitation (L : list loc) (dt : num) (s : State) : State :=
  fold_left (fun s p1 => fold_left (gravitation_body dt p1) L s) L s.

(** One turn of [for cycle in range(max_cycles)]. *)
Definition cycle (L : list loc) (dt : num) (s : State) : State :=
  fold_left (fun s pj => update_position dt (gravitation L dt s) pj) L s.

(** The state after [n] cycles. *)
Fixpoint run (L : list loc) (dt : num) (n : nat) (s : State) : State :=
  match n with
  | O => s
  | S k => run L dt k (cycle L dt s)
  end.

(** [update_position] with what it does on the canvas (see
    [Canvas.update_position]). *)
Definition update_position_on_canvas (scale dt : num) (cycle : Z)
  (tracks : bool) (w : State * list Canvas.item) (self : loc)
  : State * list Canvas.item :=
  let '(s, canvas) := w in
  let dx := (Euler.e0 (velocity (particles s self)) * dt)%num in
  let dy := (Euler.e1 (velocity (particles s self)) * dt)%num in
  let s' := update_position dt s self in
  let canvas' :=
    if andb (Z.eqb (cycle mod 2) 0) tracks
    then canvas ++
         [ Canvas.Oval (Canvas.Track (index (particles s' self)))
             (Euler.e0 (place s' self) * scale - fin 2)%num
             (Euler.e1 (place s' self) * scale - fin 2)%num
             (Euler.e0 (place s' self) * scale + fin 2)%num
             (Euler.e1 (place s' self) * scale + fin 2)%num ]
    else canvas in
  (s', Canvas.move (Canvas.Shape (index (particles s' self)))
         (dx * scale)%num (dy * scale)%num canvas').

End Shared.

(** No particle other than itself holds the position list of a particle
    of the list [L]. *)
Definition unshared (L : list loc) (s : Shared.State) : Prop :=
  forall p l, In p L -> l <> p ->
    Shared.position (Shared.particles s l)
    <> Shared.position (Shared.particles s p).

(** Two states in which every particle holds the same list object. *)
Definition same_places (s s' : Shared.State) : Prop :=
  forall l, Shared.position (Shared.particles s' l)
            = Shared.position (Shared.particles s l).

(** From [s] to [s'] the particle [l] and what its list holds are kept,
    and every particle holds the list object it held. *)
Definition untouched (l : loc) (s s' : Shared.State) : Prop :=
  Shared.particles s' l = Shared.particles s l
  /\ Shared.lists s' (Shared.position (Shared.particles s l))
     = Shared.lists s (Shared.position (Shared.particles s l))
  /\ same_places s s'.

(** Two particles of nbody.py built from one list object (at the
    location 0 of the lists) and a third with a list of its own. *)
Definition twins : Shared.State :=
  Shared.mkState
    (store3
       (Shared.mkParticle 0 (Euler.mkV2 (fin 1) (fin 0)) (fin 1) (fin 1)
          "#000000" 0)
       (Shared.mkParticle 0 (Euler.mkV2 (fin 0) (fin 0)) (fin 1) (fin 1)
          "#000000" 1)
       (Shared.mkParticle 1 (Euler.mkV2 (fin 0) (fin 0)) (fin 1) (fin 1)
          "#000000" 2))
    (store2 (Euler.mkV2 (fin 0) (fin 0)) (Euler.mkV2 (fin 5) (fin 0))
       (Euler.mkV2 (fin 9) (fin 9))).

(** Three particles of nbody.py, each with a list of its own: the
    particle at the location [l] holds the list at the location [l]. *)
Definition apart_lists : Shared.State :=
  Shared.mkState
    (fun l =>
       Shared.mkParticle l (Euler.mkV2 (fin 1) (fin 0)) (fin 1) (fin 1)
         "#000000" (Z.of_nat l))
    (fun l => Euler.mkV2 (fin (INR l)) (fin 0)).

(** * Properties *)

(** ** Arithmetic of [num] *)

Lemma ndiv_fin (x y : R) : y <> 0 -> (fin x / fin y)%num = fin (x / y).
Proof.
  intros Hy. unfold ndiv, fin.
  destruct (Req_dec_T y 0) as [E | _]; [contradiction | reflexivity].
Qed.

Lemma ndiv_zero (a : num) : (a / fin 0)%num = None.
Proof.
  destruct a as [x |]; simpl; [| reflexivity].
  destruct (Req_dec_T 0 0) as [_ | N]; [reflexivity | contradiction N; reflexivity].
Qed.

Lemma nsqrt_fin (x : R) : 0 <= x -> nsqrt (fin x) = fin (sqrt x).
Proof.
  intros Hx. unfold nsqrt, fin.
  destruct (Rlt_dec x 0) as [L | _]; [lra | reflexivity].
Qed.

(** Evaluation of [num] expressions on finite arguments. *)
Ltac num_step :=
  match goal with
  | |- context [ndiv (Some ?x) (Some ?y)] =>
      change (ndiv (Some x) (Some y)) with (ndiv (fin x) (fin y));
      rewrite (ndiv_fin x y) by (lra || nra)
  | |- context [nadd (Some ?x) (Some ?y)] =>
      change (nadd (Some x) (Some y)) with (Some (x + y))
  | |- context [nsub (Some ?x) (Some ?y)] =>
      change (nsub (Some x) (Some y)) with (Some (x - y))
  | |- context [nmul (Some ?x) (Some ?y)] =>
      change (nmul (Some x) (Some y)) with (Some (x * y))
  | |- context [nsqr (Some ?x)] =>
      change (nsqr (Some x)) with (Some (x * x))
  | |- context [nsqrt (Some ?x)] =>
      change (nsqrt (Some x)) with (nsqrt (fin x));
      rewrite (nsqrt_fin x) by lra
  | |- context [fin ?x] => change (fin x) with (Some x)
  end.

Ltac num_eval := repeat num_step.

(** [sqrt e] is [v], for a concrete [e] that is the square of [v]. *)
Ltac sqrt_is v :=
  match goal with
  | |- context [sqrt ?e] =>
      replace (sqrt e) with v by (symmetry; apply sqrt_lem_1; lra)
  end.

(** ** The force model of the Runge-Kutta script *)

Lemma C_XG_pos : 0 < C.XG.
Proof. unfold C.XG, Euler.grav_constant. lra. Qed.

(** C1 (the code departs from the claim). The acceleration on a body at
    the origin, asked for at the candidate position one metre along the
    first axis, with the other body at two metres: the code divides by the
    distance between the stored positions (2) and returns G/8, where the
    force model as the specification words it, with the distance from the
    candidate position (1), gives G. *)
Theorem acceleration_takes_stored_distance :
  RK4.acceleration C.XG (store2 origin_body far_body far_body) 0%nat midway [0; 1]%nat
    = RK4.mkV3 (fin (C.XG / 8)) (fin 0) (fin 0)
  /\ Spec.ForceModel C.XG (store2 origin_body far_body far_body) 0%nat midway [0; 1]%nat
    = RK4.mkV3 (fin C.XG) (fin 0) (fin 0)
  /\ RK4.acceleration C.XG (store2 origin_body far_body far_body) 0%nat midway [0; 1]%nat
    <> Spec.ForceModel C.XG (store2 origin_body far_body far_body) 0%nat midway
         [0; 1]%nat.
Proof.
  pose proof C_XG_pos as HG.
  assert (Hcode : RK4.acceleration C.XG (store2 origin_body far_body far_body) 0%nat
                    midway [0; 1]%nat
                  = RK4.mkV3 (fin (C.XG / 8)) (fin 0) (fin 0)).
  { cbv [RK4.acceleration fold_left RK4.acceleration_body Nat.eqb
         RK4.dist_to RK4.norm RK4.vsub RK4.vadd RK4.smul RK4.sdiv RK4.vmap
         RK4.zeros3 store2 store3 origin_body far_body midway
         RK4.pos RK4.mas RK4.c0 RK4.c1 RK4.c2].
    num_eval. sqrt_is 2. num_eval. f_equal; f_equal; lra. }
  assert (Hspec : Spec.ForceModel C.XG (store2 origin_body far_body far_body) 0%nat
                    midway [0; 1]%nat
                  = RK4.mkV3 (fin C.XG) (fin 0) (fin 0)).
  { cbv [Spec.ForceModel fold_left Spec.ForceModel_body Nat.eqb
         RK4.norm RK4.vsub RK4.vadd RK4.smul RK4.sdiv RK4.vmap
         RK4.zeros3 store2 store3 origin_body far_body midway
         RK4.pos RK4.mas RK4.c0 RK4.c1 RK4.c2].
    num_eval. sqrt_is 1. num_eval. f_equal; f_equal; lra. }
  repeat split; trivial.
  rewrite Hcode, Hspec. intros E.
  assert (E0 : fin (C.XG / 8) = fin C.XG) by exact (f_equal RK4.c0 E).
  injection E0. lra.
Qed.

(** ** The Runge-Kutta step *)

Lemma sixth (dt : num) : (fin 1 / fin 6 * dt)%num = (dt / fin 6)%num.
Proof.
  rewrite ndiv_fin by lra.
  destruct dt as [d |]; [| reflexivity].
  change (Some d) with (fin d). rewrite ndiv_fin by lra.
  unfold fin; simpl. f_equal. field.
Qed.

Lemma twice_sum (a b c d : num) :
  (a + fin 2 * (b + c) + d)%num = (a + fin 2 * b + fin 2 * c + d)%num.
Proof.
  destruct a, b, c, d; simpl; try reflexivity. f_equal. ring.
Qed.

Lemma weights (a b c d : RK4.V3) :
  RK4.vadd (RK4.vadd a (RK4.smul (fin 2) (RK4.vadd b c))) d
  = RK4.vadd (RK4.vadd (RK4.vadd a (RK4.smul (fin 2) b)) (RK4.smul (fin 2) c)) d.
Proof.
  destruct a, b, c, d. unfold RK4.vadd, RK4.smul, RK4.vmap; simpl.
  f_equal; apply twice_sum.
Qed.

(** The staged values of [rk4], for every store, body, body list and
    time step, with [Particle.acceleration] as the force at each stage:
    the fourth acceleration is taken at [kp3], and the two weighted sums
    are returned as new position and new velocity. *)
Lemma rk4_staged_values (XG : R) (h : store RK4.Particle) (b : loc)
  (L : list loc) (dt : num) :
  let ForceModel := fun p => RK4.acceleration XG h b p L in
  let v0 := RK4.vel (h b) in
  let p0 := RK4.pos (h b) in
  let s := RK4.rk4_locals XG h b L dt in
  let half := (fin (1 / 2) * dt)%num in
  let twice := RK4.smul (fin 2) in
  RK4.kv1 s = v0 /\ RK4.kp1 s = p0 /\
  RK4.ka1 s = ForceModel (RK4.kp1 s) /\
  RK4.kv2 s = RK4.vadd (RK4.kv1 s) (RK4.smul half (RK4.ka1 s)) /\
  RK4.kp2 s = RK4.vadd (RK4.kp1 s) (RK4.smul half (RK4.kv2 s)) /\
  RK4.ka2 s = ForceModel (RK4.kp2 s) /\
  RK4.kv3 s = RK4.vadd (RK4.kv1 s) (RK4.smul half (RK4.ka2 s)) /\
  RK4.kp3 s = RK4.vadd (RK4.kp1 s) (RK4.smul half (RK4.kv3 s)) /\
  RK4.ka3 s = ForceModel (RK4.kp3 s) /\
  RK4.kv4 s = RK4.vadd (RK4.kv1 s) (RK4.smul dt (RK4.ka3 s)) /\
  RK4.kp4 s = RK4.vadd (RK4.kp1 s) (RK4.smul dt (RK4.kv4 s)) /\
  RK4.ka4 s = ForceModel (RK4.kp3 s) /\
  RK4.rk4 XG h b L dt =
    (RK4.vadd p0
       (RK4.smul (dt / fin 6)%num
          (RK4.vadd
             (RK4.vadd (RK4.vadd (RK4.kv1 s) (twice (RK4.kv2 s)))
                (twice (RK4.kv3 s)))
             (RK4.kv4 s))),
     RK4.vadd v0
       (RK4.smul (dt / fin 6)%num
          (RK4.vadd
             (RK4.vadd (RK4.vadd (RK4.ka1 s) (twice (RK4.ka2 s)))
                (twice (RK4.ka3 s)))
             (RK4.ka4 s)))).
Proof.
  intros ForceModel v0 p0 s half twice.
  repeat (split; [reflexivity |]).
  unfold RK4.rk4, twice. subst s. cbv [RK4.rk4_locals RK4.new_pos RK4.new_vel
    RK4.kv1 RK4.kv2 RK4.kv3 RK4.kv4 RK4.ka1 RK4.ka2 RK4.ka3 RK4.ka4].
  rewrite !weights, !sixth. reflexivity.
Qed.

(** ** Loops over the store *)

Section Loops.
Context {A B : Type}.
Variable rel : store A -> store A -> Prop.
Hypothesis rel_refl : forall h, rel h h.
Hypothesis rel_trans : forall h1 h2 h3, rel h1 h2 -> rel h2 h3 -> rel h1 h3.

(** A relation between the store before and after, kept by every turn of
    a loop, holds across the loop. *)
Lemma for_each_rel (body : store A -> B -> store A) (xs : list B) :
  (forall h x, rel h (body h x)) ->
  forall h, rel h (for_each xs body h).
Proof.
  intros Hbody. unfold for_each.
  induction xs as [| x xs IH]; intros h; simpl.
  - apply rel_refl.
  - eapply rel_trans; [apply Hbody | apply IH].
Qed.
End Loops.

Lemma upd_same {A : Type} (h : store A) (l : loc) (a : A) : upd h l a l = a.
Proof. unfold upd. now rewrite Nat.eqb_refl. Qed.

Lemma upd_other {A : Type} (h : store A) (l l' : loc) (a : A) :
  l' <> l -> upd h l a l' = h l'.
Proof.
  intros N. unfold upd. destruct (Nat.eqb l' l) eqn:E; [| reflexivity].
  apply Nat.eqb_eq in E. contradiction.
Qed.

(** ** What a step leaves alone *)

Lemma same_attributes_rk4_refl h : same_attributes_rk4 h h.
Proof. intros l. auto. Qed.

Lemma same_attributes_rk4_trans h1 h2 h3 :
  same_attributes_rk4 h1 h2 -> same_attributes_rk4 h2 h3 ->
  same_attributes_rk4 h1 h3.
Proof.
  intros H12 H23 l. destruct (H12 l) as (a & b & c), (H23 l) as (a' & b' & c').
  repeat split; congruence.
Qed.

Lemma same_attributes_euler_refl h : same_attributes_euler h h.
Proof. intros l. auto. Qed.

Lemma same_attributes_euler_trans h1 h2 h3 :
  same_attributes_euler h1 h2 -> same_attributes_euler h2 h3 ->
  same_attributes_euler h1 h3.
Proof.
  intros H12 H23 l.
  destruct (H12 l) as (a & b & c & d), (H23 l) as (a' & b' & c' & d').
  repeat split; congruence.
Qed.

Lemma update_particle_attributes XG Plist dt h p :
  same_attributes_rk4 h (RK4.update_particle XG Plist dt h p).
Proof.
  intros l. unfold RK4.update_particle.
  destruct (RK4.rk4 XG h p Plist dt) as [np nv].
  destruct (Nat.eq_dec l p) as [-> | N].
  - rewrite upd_same. simpl. auto.
  - rewrite upd_other by assumption. auto.
Qed.

Lemma update_particles_attributes XG h Plist dt :
  same_attributes_rk4 h (RK4.update_particles XG h Plist dt).
Proof.
  unfold RK4.update_particles.
  apply for_each_rel.
  - apply same_attributes_rk4_refl.
  - apply same_attributes_rk4_trans.
  - intros h0 x. apply update_particle_attributes.
Qed.

Lemma update_position_attributes dt h self :
  same_attributes_euler h (Euler.update_position dt h self).
Proof.
  intros l. unfold Euler.update_position.
  destruct (Nat.eq_dec l self) as [-> | N].
  - rewrite upd_same. simpl. auto.
  - rewrite upd_other by assumption. auto.
Qed.

Lemma gravitation_body_attributes dt p1 h p2 :
  same_attributes_euler h (Euler.gravitation_body dt p1 h p2).
Proof.
  intros l. unfold Euler.gravitation_body.
  destruct (Z.eqb _ _); [auto |].
  destruct (Nat.eq_dec l p1) as [-> | N].
  - rewrite upd_same. simpl. auto.
  - rewrite upd_other by assumption. auto.
Qed.

Lemma gravitation_attributes particles dt h :
  same_attributes_euler h (Euler.gravitation particles dt h).
Proof.
  unfold Euler.gravitation.
  apply for_each_rel;
    [apply same_attributes_euler_refl | apply same_attributes_euler_trans |].
  intros h0 p1.
  apply for_each_rel;
    [apply same_attributes_euler_refl | apply same_attributes_euler_trans |].
  intros h1 p2. apply gravitation_body_attributes.
Qed.

Lemma cycle_attributes particles dt h :
  same_attributes_euler h (Euler.cycle particles dt h).
Proof.
  unfold Euler.cycle.
  apply for_each_rel;
    [apply same_attributes_euler_refl | apply same_attributes_euler_trans |].
  intros h0 pj.
  eapply same_attributes_euler_trans;
    [apply gravitation_attributes | apply update_position_attributes].
Qed.

(** C10. One step of either integrator, with any time step, leaves the
    mass, radius and colour of every particle as they were (and the index,
    which only the particles of nbody.py carry; in the Runge-Kutta script
    a particle is identified by the object itself, its location here).
    The same holds for [gravitation] and [update_position] on their
    own. *)
Theorem step_keeps_attributes (XG : R) (h : store RK4.Particle)
  (Plist : list loc) (e : store Euler.Particle) (particles : list loc)
  (dt : num) (self : loc) :
  same_attributes_rk4 h (RK4.update_particles XG h Plist dt)
  /\ same_attributes_euler e (Euler.cycle particles dt e)
  /\ same_attributes_euler e (Euler.gravitation particles dt e)
  /\ same_attributes_euler e (Euler.update_position dt e self).
Proof.
  split; [apply update_particles_attributes |].
  split; [apply cycle_attributes |].
  split; [apply gravitation_attributes | apply update_position_attributes].
Qed.

(** ** A body on its own *)

Lemma acceleration_alone XG h b q : RK4.acceleration XG h b q [b] = RK4.zeros3.
Proof.
  unfold RK4.acceleration, RK4.acceleration_body; simpl.
  now rewrite Nat.eqb_refl.
Qed.

Lemma nadd_nothing (a : num) (k : R) :
  (a + fin k * (fin 0 + fin 2 * (fin 0 + fin 0) + fin 0))%num = a.
Proof.
  destruct a as [x |]; simpl; [| reflexivity]. f_equal. ring.
Qed.

Lemma vadd_nothing (v : RK4.V3) (k : R) :
  RK4.vadd v
    (RK4.smul (fin k)
       (RK4.vadd
          (RK4.vadd RK4.zeros3
             (RK4.smul (fin 2) (RK4.vadd RK4.zeros3 RK4.zeros3)))
          RK4.zeros3)) = v.
Proof.
  destruct v as [x y z].
  unfold RK4.vadd, RK4.smul, RK4.vmap, RK4.zeros3; simpl.
  f_equal; apply nadd_nothing.
Qed.

Lemma rk4_alone_velocity XG h b (dt : R) :
  snd (RK4.rk4 XG h b [b] (fin dt)) = RK4.vel (h b).
Proof.
  cbv [RK4.rk4 RK4.rk4_locals snd RK4.new_vel].
  rewrite !acceleration_alone.
  rewrite ndiv_fin by lra.
  change (fin (1 / 6) * fin dt)%num with (fin (1 / 6 * dt)).
  apply vadd_nothing.
Qed.

Lemma update_particles_alone_velocity XG h b (dt : R) :
  RK4.vel (RK4.update_particles XG h [b] (fin dt) b) = RK4.vel (h b).
Proof.
  unfold RK4.update_particles, for_each; simpl. unfold RK4.update_particle.
  pose proof (rk4_alone_velocity XG h b dt) as Hv.
  destruct (RK4.rk4 XG h b [b] (fin dt)) as [np nv].
  rewrite upd_same. simpl. exact Hv.
Qed.

Lemma gravitation_alone p dt e : Euler.gravitation [p] dt e = e.
Proof.
  unfold Euler.gravitation, for_each; simpl.
  unfold Euler.gravitation_body. now rewrite Z.eqb_refl.
Qed.

Lemma cycle_alone_velocity p dt e :
  Euler.velocity (Euler.cycle [p] dt e p) = Euler.velocity (e p).
Proof.
  unfold Euler.cycle, for_each; simpl. rewrite gravitation_alone.
  unfold Euler.update_position. rewrite upd_same. reflexivity.
Qed.

(** C9. In a system of exactly one body the velocity of the body is the
    same after any number of steps, with any time step, under both
    integrators: the force loop skips the body itself, so the acceleration
    of the Runge-Kutta script is the zero vector and [gravitation] changes
    nothing. *)
Theorem lone_body_keeps_velocity (XG : R) (h : store RK4.Particle) (b : loc)
  (q : RK4.V3) (e : store Euler.Particle) (p : loc) (dt : R) (n : nat) :
  RK4.acceleration XG h b q [b] = RK4.zeros3
  /\ RK4.vel (RK4.run XG h [b] (fin dt) n b) = RK4.vel (h b)
  /\ Euler.gravitation [p] (fin dt) e = e
  /\ Euler.velocity (Euler.run [p] (fin dt) n e p) = Euler.velocity (e p).
Proof.
  split; [apply acceleration_alone |].
  split.
  - revert h. induction n as [| k IH]; intros h; simpl; [reflexivity |].
    rewrite IH. apply update_particles_alone_velocity.
  - split; [apply gravitation_alone |].
    revert e. induction n as [| k IH]; intros e; simpl; [reflexivity |].
    rewrite IH. apply cycle_alone_velocity.
Qed.

(** ** Finite values *)

Lemma finite_fin (x : R) : finite (fin x).
Proof. now exists x. Qed.

Lemma finite_add a b : finite a -> finite b -> finite (a + b)%num.
Proof. intros [x ->] [y ->]. now exists (x + y). Qed.

Lemma finite_sub a b : finite a -> finite b -> finite (a - b)%num.
Proof. intros [x ->] [y ->]. now exists (x - y). Qed.

Lemma finite_mul a b : finite a -> finite b -> finite (a * b)%num.
Proof. intros [x ->] [y ->]. now exists (x * y). Qed.

Lemma finite_div a (y : R) : finite a -> y <> 0 -> finite (a / fin y)%num.
Proof. intros [x ->] Hy. exists (x / y). now apply ndiv_fin. Qed.

(** Adding zero times a finite value changes nothing, finite or not. *)
Lemma nadd_zero_times (a s : num) (k : R) :
  k = 0 -> finite s -> (a + fin k * s)%num = a.
Proof.
  intros -> [y ->]. destruct a as [x |]; simpl; [| reflexivity].
  f_equal. ring.
Qed.

Lemma upd_id {A : Type} (h : store A) (l : loc) : upd h l (h l) = h.
Proof.
  apply functional_extensionality. intros l'. unfold upd.
  destruct (Nat.eqb l' l) eqn:E; [| reflexivity].
  apply Nat.eqb_eq in E. now subst.
Qed.

(** *** In the Runge-Kutta script *)

Lemma finite3_zeros : finite3 RK4.zeros3.
Proof. repeat split; apply finite_fin. Qed.

Lemma finite3_vadd u v : finite3 u -> finite3 v -> finite3 (RK4.vadd u v).
Proof.
  intros (a & b & c) (a' & b' & c'). repeat split; now apply finite_add.
Qed.

Lemma finite3_vsub u v : finite3 u -> finite3 v -> finite3 (RK4.vsub u v).
Proof.
  intros (a & b & c) (a' & b' & c'). repeat split; now apply finite_sub.
Qed.

Lemma finite3_smul k v : finite k -> finite3 v -> finite3 (RK4.smul k v).
Proof.
  intros Hk (a & b & c). repeat split; now apply finite_mul.
Qed.

Lemma finite3_sdiv v (k : R) : finite3 v -> k <> 0 -> finite3 (RK4.sdiv v (fin k)).
Proof.
  intros (a & b & c) Hk. repeat split; now apply finite_div.
Qed.

Lemma vadd_zero_times (v s : RK4.V3) (k : R) :
  k = 0 -> finite3 s -> RK4.vadd v (RK4.smul (fin k) s) = v.
Proof.
  intros Hk (a & b & c). destruct v as [x y z].
  unfold RK4.vadd, RK4.smul, RK4.vmap; simpl.
  f_equal; now apply nadd_zero_times.
Qed.

Lemma sq_nonneg (x : R) : 0 <= x * x.
Proof. nra. Qed.

Lemma sq_pos (x : R) : x <> 0 -> 0 < x * x.
Proof. intros N. destruct (Rtotal_order x 0) as [L | [E | G]]; [nra | contradiction | nra]. Qed.

(** The distance between two distinct finite points is a positive real. *)
Lemma norm_apart u v :
  finite3 u -> finite3 v -> u <> v ->
  exists d, RK4.norm (RK4.vsub u v) = fin d /\ 0 < d.
Proof.
  destruct u as [x y z], v as [x' y' z'].
  intros ([a Ha] & [b Hb] & [c Hc]) ([a' Ha'] & [b' Hb'] & [c' Hc']) Hne.
  simpl in *. subst.
  set (s := (a - a') * (a - a') + (b - b') * (b - b') + (c - c') * (c - c')).
  assert (Hs : 0 < s).
  { pose proof (sq_nonneg (a - a')). pose proof (sq_nonneg (b - b')).
    pose proof (sq_nonneg (c - c')).
    destruct (Req_dec a a') as [-> | Na].
    - destruct (Req_dec b b') as [-> | Nb].
      + destruct (Req_dec c c') as [-> | Nc]; [now contradiction Hne |].
        pose proof (sq_pos (c - c')). unfold s. lra.
      + pose proof (sq_pos (b - b')). unfold s. lra.
    - pose proof (sq_pos (a - a')). unfold s. lra. }
  exists (sqrt s). split.
  - unfold RK4.norm, RK4.vsub; simpl. fold s.
    change (Some s) with (fin s). apply nsqrt_fin. lra.
  - now apply sqrt_lt_R0.
Qed.

Lemma acceleration_body_finite XG h L self q a p1 :
  bodies_rk4 h L -> apart_rk4 h L -> In self L -> In p1 L ->
  finite3 q -> finite3 a ->
  finite3 (RK4.acceleration_body XG h self q a p1).
Proof.
  intros Hb Ha Hself Hp1 Hq Hacc. unfold RK4.acceleration_body.
  destruct (Nat.eqb p1 self) eqn:E; [assumption |].
  apply Nat.eqb_neq in E.
  destruct (Hb self Hself) as (Hps & _ & ms & Hms & Hms0).
  destruct (Hb p1 Hp1) as (Hp1s & _ & m1 & Hm1 & _).
  destruct (norm_apart (RK4.pos (h self)) (RK4.pos (h p1)) Hps Hp1s)
    as (d & Hd & Hd0).
  { apply Ha; auto. }
  unfold RK4.dist_to. rewrite Hd, Hms, Hm1.
  apply finite3_vadd; [assumption |].
  apply finite3_smul.
  - apply finite_div; [| lra].
    change (nsqr (fin d)) with (fin (d * d)).
    apply finite_div; [| nra].
    repeat apply finite_mul; apply finite_fin.
  - apply finite3_sdiv; [| lra].
    now apply finite3_vsub.
Qed.

Lemma acceleration_finite XG h L self q :
  bodies_rk4 h L -> apart_rk4 h L -> In self L -> finite3 q ->
  finite3 (RK4.acceleration XG h self q L).
Proof.
  intros Hb Ha Hself Hq. unfold RK4.acceleration.
  assert (Hgen : forall L' a, incl L' L -> finite3 a ->
            finite3 (fold_left (RK4.acceleration_body XG h self q) L' a)).
  { induction L' as [| p1 L' IH]; intros a Hincl Hacc; simpl; [assumption |].
    apply IH.
    - intros x Hx. apply Hincl. now right.
    - eapply acceleration_body_finite; eauto. apply Hincl. now left. }
  apply Hgen; [apply incl_refl | apply finite3_zeros].
Qed.

(** With a time step of zero [rk4] returns the position and velocity it
    was given. *)
Lemma rk4_zero_step XG h L b :
  bodies_rk4 h L -> apart_rk4 h L -> In b L ->
  RK4.rk4 XG h b L (fin 0) = (RK4.pos (h b), RK4.vel (h b)).
Proof.
  intros Hb Ha Hin.
  destruct (Hb b Hin) as (Hp & Hv & _).
  pose proof (acceleration_finite XG h L b (RK4.pos (h b)) Hb Ha Hin Hp) as Hacc.
  cbv [RK4.rk4 RK4.rk4_locals RK4.new_pos RK4.new_vel].
  rewrite ndiv_fin by lra.
  change (fin (1 / 2) * fin 0)%num with (fin (1 / 2 * 0)).
  change (fin (1 / 6) * fin 0)%num with (fin (1 / 6 * 0)).
  repeat match goal with
         | |- context [RK4.vadd ?v (RK4.smul (fin ?k) ?s)] =>
             rewrite (vadd_zero_times v s k) by (try lra; assumption)
         end.
  assert (Hsum : forall u, finite3 u ->
            finite3 (RK4.vadd (RK4.vadd u (RK4.smul (fin 2) (RK4.vadd u u))) u)).
  { intros u Hu. repeat apply finite3_vadd; trivial.
    apply finite3_smul; [apply finite_fin | now apply finite3_vadd]. }
  rewrite !(vadd_zero_times _ _ (1 / 6 * 0)); auto; lra.
Qed.

Lemma update_particles_zero_step XG h L :
  bodies_rk4 h L -> apart_rk4 h L ->
  RK4.update_particles XG h L (fin 0) = h.
Proof.
  intros Hb Ha. unfold RK4.update_particles, for_each.
  assert (Hgen : forall L', incl L' L ->
            fold_left (RK4.update_particle XG L (fin 0)) L' h = h).
  { induction L' as [| p L' IH]; intros Hincl; simpl; [reflexivity |].
    assert (Hp : RK4.update_particle XG L (fin 0) h p = h).
    { unfold RK4.update_particle.
      rewrite (rk4_zero_step XG h L p Hb Ha) by (apply Hincl; now left).
      replace {| RK4.pos := RK4.pos (h p); RK4.vel := RK4.vel (h p);
                 RK4.mas := RK4.mas (h p); RK4.rad := RK4.rad (h p);
                 RK4.col := RK4.col (h p) |} with (h p)
        by (now destruct (h p)).
      apply upd_id. }
    rewrite Hp. apply IH. intros x Hx. apply Hincl. now right. }
  apply Hgen, incl_refl.
Qed.

(** *** In nbody.py *)

(** The angle of the opposite direction: sine and cosine change sign. *)
Lemma arctan2_opposite (y x : R) :
  ~ (x = 0 /\ y = 0) ->
  sin (arctan2 (- y) (- x)) = - sin (arctan2 y x)
  /\ cos (arctan2 (- y) (- x)) = - cos (arctan2 y x).
Proof.
  intros Horigin. unfold arctan2.
  destruct (Rlt_dec 0 x) as [Hx | Hx].
  - (* x > 0 *)
    destruct (Rlt_dec 0 (- x)) as [C | _]; [lra |].
    destruct (Rlt_dec (- x) 0) as [_ | C]; [| lra].
    replace (- y / - x) with (y / x) by (field; lra).
    destruct (Rle_dec 0 (- y)) as [_ | _].
    + now rewrite neg_sin, neg_cos.
    + replace (atan (y / x) - PI) with (- (PI - atan (y / x))) by ring.
      rewrite sin_neg, cos_neg.
      replace (PI - atan (y / x)) with (- atan (y / x) + PI) by ring.
      rewrite neg_sin, neg_cos, sin_neg, cos_neg. split; ring.
  - destruct (Rlt_dec x 0) as [Hx' | Hx'].
    + (* x < 0 *)
      destruct (Rlt_dec 0 (- x)) as [_ | C]; [| lra].
      replace (- y / - x) with (y / x) by (field; lra).
      destruct (Rle_dec 0 y) as [_ | _].
      * rewrite neg_sin, neg_cos. split; ring.
      * replace (atan (y / x) - PI) with (- (PI - atan (y / x))) by ring.
        rewrite sin_neg, cos_neg.
        replace (PI - atan (y / x)) with (- atan (y / x) + PI) by ring.
        rewrite neg_sin, neg_cos, sin_neg, cos_neg. split; ring.
    + (* x = 0 *)
      assert (x = 0) by lra. subst x.
      destruct (Rlt_dec 0 (- 0)) as [C | _]; [lra |].
      destruct (Rlt_dec (- 0) 0) as [C | _]; [lra |].
      destruct (Rlt_dec 0 y) as [Hy | Hy].
      * destruct (Rlt_dec 0 (- y)) as [C | _]; [lra |].
        destruct (Rlt_dec (- y) 0) as [_ | C]; [| lra].
        rewrite sin_neg, cos_neg, cos_PI2. split; ring.
      * destruct (Rlt_dec y 0) as [Hy' | Hy'].
        -- destruct (Rlt_dec 0 (- y)) as [_ | C]; [| lra].
           rewrite sin_neg, cos_neg, cos_PI2. split; ring.
        -- exfalso. apply Horigin. split; lra.
Qed.

Lemma set_velocity_id (p : Euler.Particle) :
  Euler.set_velocity p (Euler.velocity p) = p.
Proof. now destruct p. Qed.

Lemma set_position_id (p : Euler.Particle) :
  Euler.set_position p (Euler.position p) = p.
Proof. now destruct p. Qed.

Lemma V2_eta (v : Euler.V2) : Euler.mkV2 (Euler.e0 v) (Euler.e1 v) = v.
Proof. now destruct v. Qed.

(** One turn of the loops of [gravitation] on bodies that are apart: the
    velocity of [p1] gains force / mass * dt, in real numbers. *)
Lemma gravitation_body_real L h p1 p2 (dt : R) :
  bodies_euler h L -> apart_euler h L -> In p1 L -> In p2 L ->
  Euler.gravitation_body (fin dt) p1 h p2
  = upd h p1
      (Euler.set_velocity (h p1)
         (Euler.mkV2
            (fin (real (Euler.e0 (Euler.velocity (h p1)))
                  + fst (force h p1 p2) / real (Euler.mass (h p1)) * dt))
            (fin (real (Euler.e1 (Euler.velocity (h p1)))
                  + snd (force h p1 p2) / real (Euler.mass (h p1)) * dt)))).
Proof.
  intros Hb Ha H1 H2.
  destruct (Hb p1 H1) as (([x1 Hx1] & [y1 Hy1]) & ([vx Hvx] & [vy Hvy])
                          & m1 & Hm1 & Hm1pos).
  destruct (Hb p2 H2) as (([x2 Hx2] & [y2 Hy2]) & _ & m2 & Hm2 & _).
  unfold Euler.gravitation_body, force.
  destruct (Z.eqb (Euler.index (h p1)) (Euler.index (h p2))) eqn:E.
  - rewrite Hvx, Hvy, Hm1. simpl.
    replace (vx + 0 / m1 * dt) with vx by (field; lra).
    replace (vy + 0 / m1 * dt) with vy by (field; lra).
    change (Some vx) with (fin vx). change (Some vy) with (fin vy).
    rewrite <- Hvx, <- Hvy, V2_eta, set_velocity_id. symmetry. apply upd_id.
  - assert (Hne : p1 <> p2).
    { intros ->. now rewrite Z.eqb_refl in E. }
    pose proof (Ha p1 p2 H1 H2 Hne) as Hpos.
    set (dX := x2 - x1). set (dY := y2 - y1).
    assert (Hs : 0 < dX * dX + dY * dY).
    { pose proof (sq_nonneg dX). pose proof (sq_nonneg dY).
      destruct (Req_dec x1 x2) as [Ex | Nx].
      - destruct (Req_dec y1 y2) as [Ey | Ny].
        + exfalso. apply Hpos.
          rewrite <- (V2_eta (Euler.position (h p1))).
          rewrite <- (V2_eta (Euler.position (h p2))).
          rewrite Hx1, Hy1, Hx2, Hy2. now subst.
        + pose proof (sq_pos dY). unfold dY in *. lra.
      - pose proof (sq_pos dX). unfold dX in *. lra. }
    pose proof (sqrt_lt_R0 _ Hs) as Hd.
    unfold Euler.distance_to.
    rewrite Hx1, Hy1, Hx2, Hy2, Hvx, Hvy, Hm1, Hm2. simpl real.
    fold dX dY.
    change (nsqr (fin x2 - fin x1)%num) with (fin (dX * dX)).
    change (nsqr (fin y2 - fin y1)%num) with (fin (dY * dY)).
    change (fin (dX * dX) + fin (dY * dY))%num
      with (fin (dX * dX + dY * dY)).
    rewrite nsqrt_fin by lra.
    set (d := sqrt (dX * dX + dY * dY)) in *.
    change (nsqr (fin d)) with (fin (d * d)).
    change (fin x2 - fin x1)%num with (fin dX).
    change (fin y2 - fin y1)%num with (fin dY).
    change (fin Euler.grav_constant * fin m1 * fin m2)%num
      with (fin (Euler.grav_constant * m1 * m2)).
    rewrite (ndiv_fin _ (d * d)) by nra.
    change (narctan2 (fin dX) (fin dY)) with (fin (arctan2 dX dY)).
    set (F := Euler.grav_constant * m1 * m2 / (d * d)).
    set (theta := arctan2 dX dY).
    change (nsin (fin theta)) with (fin (sin theta)).
    change (ncos (fin theta)) with (fin (cos theta)).
    change (fin F * fin (sin theta))%num with (fin (F * sin theta)).
    change (fin F * fin (cos theta))%num with (fin (F * cos theta)).
    rewrite !ndiv_fin by lra.
    reflexivity.
Qed.

(** *** Sums over a list of locations *)

Lemma sum_over_ext L f g :
  (forall l, In l L -> f l = g l) -> sum_over L f = sum_over L g.
Proof.
  induction L as [| a L IH]; intros H; simpl; [reflexivity |].
  rewrite (H a) by now left. rewrite IH; [reflexivity |].
  intros l Hl. apply H. now right.
Qed.

Lemma sum_over_plus L f g :
  sum_over L (fun l => f l + g l) = sum_over L f + sum_over L g.
Proof. induction L as [| a L IH]; simpl; [lra | rewrite IH; lra]. Qed.

Lemma sum_over_opp L f : sum_over L (fun l => - f l) = - sum_over L f.
Proof. induction L as [| a L IH]; simpl; [lra | rewrite IH; lra]. Qed.

(** A function changed at one location of a duplicate-free list. *)
Lemma sum_over_change L f g p c :
  NoDup L -> In p L ->
  (forall l, l <> p -> g l = f l) -> g p = f p + c ->
  sum_over L g = sum_over L f + c.
Proof.
  intros Hnd Hin Hother Hp.
  induction Hnd as [| a L Hna Hnd IH]; [contradiction |].
  simpl. destruct Hin as [-> | Hin].
  - rewrite Hp. rewrite (sum_over_ext L g f); [lra |].
    intros l Hl. apply Hother. intros ->. contradiction.
  - rewrite IH by assumption. rewrite Hother; [lra |].
    intros ->. contradiction.
Qed.

(** An antisymmetric function sums to zero over all pairs. *)
Lemma sum_over_pairs L (f : loc -> loc -> R) :
  (forall a b, In a L -> In b L -> f a b = - f b a) ->
  sum_over L (fun a => sum_over L (fun b => f a b)) = 0.
Proof.
  induction L as [| x L IH]; intros Hanti; simpl; [reflexivity |].
  assert (Hxx : f x x = 0).
  { pose proof (Hanti x x (or_introl eq_refl) (or_introl eq_refl)). lra. }
  rewrite sum_over_plus, IH.
  - rewrite Hxx.
    rewrite (sum_over_ext L (fun l => f l x) (fun l => - f x l)).
    + rewrite sum_over_opp.
      change (fun l => f x l) with (f x). lra.
    + intros l Hl. apply Hanti; [now right | now left].
  - intros a b Ha Hb. apply Hanti; now right.
Qed.

(** *** The forces of [gravitation] cancel in pairs *)

Lemma force_same_geometry h h' p1 p2 :
  same_geometry h h' -> force h' p1 p2 = force h p1 p2.
Proof.
  intros Hg. unfold force.
  destruct (Hg p1) as (-> & -> & ->), (Hg p2) as (-> & -> & ->).
  reflexivity.
Qed.

Lemma apart_same_geometry h h' L :
  same_geometry h h' -> apart_euler h L -> apart_euler h' L.
Proof.
  intros Hg Ha l l' Hl Hl' Hne.
  destruct (Hg l) as (-> & _), (Hg l') as (-> & _). now apply Ha.
Qed.

Lemma force_opposite L h p1 p2 :
  bodies_euler h L -> apart_euler h L -> In p1 L -> In p2 L ->
  fst (force h p1 p2) = - fst (force h p2 p1)
  /\ snd (force h p1 p2) = - snd (force h p2 p1).
Proof.
  intros Hb Ha H1 H2. unfold force.
  rewrite (Z.eqb_sym (Euler.index (h p2))).
  destruct (Z.eqb (Euler.index (h p1)) (Euler.index (h p2))) eqn:E.
  - simpl. split; ring.
  - assert (Hne : p1 <> p2).
    { intros ->. now rewrite Z.eqb_refl in E. }
    destruct (Hb p1 H1) as (([x1 Hx1] & [y1 Hy1]) & _).
    destruct (Hb p2 H2) as (([x2 Hx2] & [y2 Hy2]) & _).
    pose proof (Ha p1 p2 H1 H2 Hne) as Hpos.
    rewrite Hx1, Hy1, Hx2, Hy2. simpl real.
    set (m1 := real (Euler.mass (h p1))). set (m2 := real (Euler.mass (h p2))).
    assert (Horigin : ~ (y2 - y1 = 0 /\ x2 - x1 = 0)).
    { intros [Ey Ex]. apply Hpos.
      rewrite <- (V2_eta (Euler.position (h p1))).
      rewrite <- (V2_eta (Euler.position (h p2))).
      rewrite Hx1, Hy1, Hx2, Hy2.
      replace x2 with x1 by lra. replace y2 with y1 by lra. reflexivity. }
    destruct (arctan2_opposite (x2 - x1) (y2 - y1) Horigin) as [Hsin Hcos].
    replace (x1 - x2) with (- (x2 - x1)) by ring.
    replace (y1 - y2) with (- (y2 - y1)) by ring.
    rewrite Hsin, Hcos. simpl fst. simpl snd.
    replace (- (x2 - x1) * - (x2 - x1) + - (y2 - y1) * - (y2 - y1))
      with ((x2 - x1) * (x2 - x1) + (y2 - y1) * (y2 - y1)) by ring.
    set (d := sqrt ((x2 - x1) * (x2 - x1) + (y2 - y1) * (y2 - y1))).
    unfold Rdiv. split; ring.
Qed.

(** One turn of the loops: positions, masses and indices stay; the
    momentum gains force * dt. *)
Lemma gravitation_body_effect L h0 h p1 p2 (dt : R) :
  NoDup L -> apart_euler h0 L ->
  bodies_euler h L -> same_geometry h0 h -> In p1 L -> In p2 L ->
  bodies_euler (Euler.gravitation_body (fin dt) p1 h p2) L
  /\ same_geometry h0 (Euler.gravitation_body (fin dt) p1 h p2)
  /\ momentum_x (Euler.gravitation_body (fin dt) p1 h p2) L
     = momentum_x h L + fst (force h0 p1 p2) * dt
  /\ momentum_y (Euler.gravitation_body (fin dt) p1 h p2) L
     = momentum_y h L + snd (force h0 p1 p2) * dt.
Proof.
  intros Hnd Ha0 Hb Hg H1 H2.
  pose proof (apart_same_geometry h0 h L Hg Ha0) as Ha.
  rewrite (gravitation_body_real L h p1 p2 dt Hb Ha H1 H2).
  rewrite (force_same_geometry h0 h p1 p2 Hg).
  destruct (Hb p1 H1) as (Hp1 & ([vx Hvx] & [vy Hvy]) & m1 & Hm1 & Hm1pos).
  set (fx := fst (force h0 p1 p2)). set (fy := snd (force h0 p1 p2)).
  set (h' := upd h p1 _).
  assert (Hsame : forall l, l <> p1 -> h' l = h l).
  { intros l N. unfold h'. now apply upd_other. }
  assert (Hat : h' p1 = Euler.set_velocity (h p1)
                          (Euler.mkV2
                             (fin (real (Euler.e0 (Euler.velocity (h p1)))
                                   + fx / real (Euler.mass (h p1)) * dt))
                             (fin (real (Euler.e1 (Euler.velocity (h p1)))
                                   + fy / real (Euler.mass (h p1)) * dt)))).
  { unfold h'. apply upd_same. }
  split; [| split; [| split]].
  - intros l Hl. destruct (Nat.eq_dec l p1) as [-> | N].
    + rewrite Hat. simpl. split; [assumption |]. split.
      * split; apply finite_fin.
      * now exists m1.
    + rewrite Hsame by assumption. now apply Hb.
  - intros l. destruct (Nat.eq_dec l p1) as [-> | N].
    + rewrite Hat. simpl. apply Hg.
    + rewrite Hsame by assumption. apply Hg.
  - unfold momentum_x. apply sum_over_change with (p := p1); trivial.
    + intros l N. now rewrite Hsame.
    + rewrite Hat. simpl. rewrite Hvx, Hm1. simpl. field. lra.
  - unfold momentum_y. apply sum_over_change with (p := p1); trivial.
    + intros l N. now rewrite Hsame.
    + rewrite Hat. simpl. rewrite Hvy, Hm1. simpl. field. lra.
Qed.

Lemma same_geometry_refl h : same_geometry h h.
Proof. intros l. auto. Qed.

Lemma inner_loop_effect L h0 p1 (dt : R) :
  NoDup L -> apart_euler h0 L -> In p1 L ->
  forall L2, incl L2 L ->
  forall h, bodies_euler h L -> same_geometry h0 h ->
    bodies_euler (for_each L2 (Euler.gravitation_body (fin dt) p1) h) L
    /\ same_geometry h0 (for_each L2 (Euler.gravitation_body (fin dt) p1) h)
    /\ momentum_x (for_each L2 (Euler.gravitation_body (fin dt) p1) h) L
       = momentum_x h L + dt * sum_over L2 (fun p2 => fst (force h0 p1 p2))
    /\ momentum_y (for_each L2 (Euler.gravitation_body (fin dt) p1) h) L
       = momentum_y h L + dt * sum_over L2 (fun p2 => snd (force h0 p1 p2)).
Proof.
  intros Hnd Ha0 H1. unfold for_each.
  induction L2 as [| p2 L2 IH]; intros Hincl h Hb Hg; simpl.
  - split; [assumption |]. split; [assumption |]. split; ring.
  - destruct (gravitation_body_effect L h0 h p1 p2 dt Hnd Ha0 Hb Hg H1)
      as (Hb' & Hg' & Hx & Hy).
    { apply Hincl. now left. }
    destruct (IH (fun x Hx => Hincl x (or_intror Hx)) _ Hb' Hg')
      as (Hb'' & Hg'' & Hx' & Hy').
    split; [assumption |]. split; [assumption |].
    rewrite Hx', Hy', Hx, Hy. split; ring.
Qed.

Lemma outer_loop_effect L h0 (dt : R) :
  NoDup L -> apart_euler h0 L ->
  forall L1, incl L1 L ->
  forall h, bodies_euler h L -> same_geometry h0 h ->
    let h' := for_each L1
                (fun h p1 => for_each L (Euler.gravitation_body (fin dt) p1) h)
                h in
    bodies_euler h' L
    /\ same_geometry h0 h'
    /\ momentum_x h' L
       = momentum_x h L
         + dt * sum_over L1
                  (fun p1 => sum_over L (fun p2 => fst (force h0 p1 p2)))
    /\ momentum_y h' L
       = momentum_y h L
         + dt * sum_over L1
                  (fun p1 => sum_over L (fun p2 => snd (force h0 p1 p2))).
Proof.
  intros Hnd Ha0. unfold for_each.
  induction L1 as [| p1 L1 IH]; intros Hincl h Hb Hg; simpl.
  - split; [assumption |]. split; [assumption |]. split; ring.
  - destruct (inner_loop_effect L h0 p1 dt Hnd Ha0 (Hincl p1 (or_introl eq_refl))
                L (incl_refl L) h Hb Hg) as (Hb' & Hg' & Hx & Hy).
    unfold for_each in Hb', Hg', Hx, Hy.
    destruct (IH (fun x Hx => Hincl x (or_intror Hx)) _ Hb' Hg')
      as (Hb'' & Hg'' & Hx' & Hy').
    split; [assumption |]. split; [assumption |].
    rewrite Hx', Hy', Hx, Hy. split; ring.
Qed.

(** A call of [gravitation] on bodies that are apart keeps the momentum,
    the positions and the masses. *)
Lemma gravitation_momentum L h (dt : R) :
  NoDup L -> bodies_euler h L -> apart_euler h L ->
  bodies_euler (Euler.gravitation L (fin dt) h) L
  /\ same_geometry h (Euler.gravitation L (fin dt) h)
  /\ momentum_x (Euler.gravitation L (fin dt) h) L = momentum_x h L
  /\ momentum_y (Euler.gravitation L (fin dt) h) L = momentum_y h L.
Proof.
  intros Hnd Hb Ha.
  destruct (outer_loop_effect L h dt Hnd Ha L (incl_refl L) h Hb
              (same_geometry_refl h)) as (Hb' & Hg' & Hx & Hy).
  unfold Euler.gravitation.
  split; [assumption |]. split; [assumption |].
  rewrite Hx, Hy.
  rewrite (sum_over_pairs L (fun a b => fst (force h a b))).
  - rewrite (sum_over_pairs L (fun a b => snd (force h a b))).
    + split; ring.
    + intros a b Hin_a Hin_b. now apply (force_opposite L h a b).
  - intros a b Hin_a Hin_b. now apply (force_opposite L h a b).
Qed.

Lemma update_position_momentum L h pj (dt : R) :
  bodies_euler h L ->
  bodies_euler (Euler.update_position (fin dt) h pj) L
  /\ momentum_x (Euler.update_position (fin dt) h pj) L = momentum_x h L
  /\ momentum_y (Euler.update_position (fin dt) h pj) L = momentum_y h L.
Proof.
  intros Hb. unfold Euler.update_position.
  set (h' := upd h pj _).
  assert (Hvm : forall l, Euler.velocity (h' l) = Euler.velocity (h l)
                          /\ Euler.mass (h' l) = Euler.mass (h l)).
  { intros l. unfold h'. destruct (Nat.eq_dec l pj) as [-> | N].
    - rewrite upd_same. simpl. auto.
    - rewrite upd_other by assumption. auto. }
  split; [| split].
  - intros l Hl. destruct (Hvm l) as [-> ->].
    destruct (Hb l Hl) as (Hp & Hv & Hm).
    split; [| now split].
    unfold h'. destruct (Nat.eq_dec l pj) as [-> | N].
    + rewrite upd_same. simpl.
      destruct Hp as [Hp0 Hp1], Hv as [Hv0 Hv1].
      split; apply finite_add; trivial; apply finite_mul; trivial;
        apply finite_fin.
    + now rewrite upd_other.
  - unfold momentum_x. apply sum_over_ext. intros l _.
    now destruct (Hvm l) as [-> ->].
  - unfold momentum_y. apply sum_over_ext. intros l _.
    now destruct (Hvm l) as [-> ->].
Qed.

Lemma momentum_real L h :
  bodies_euler h L ->
  momentum_euler h L = Euler.mkV2 (fin (momentum_x h L)) (fin (momentum_y h L)).
Proof.
  unfold momentum_euler, momentum_x, momentum_y, sum_over.
  induction L as [| a L IH]; intros Hb; simpl; [reflexivity |].
  rewrite IH by (intros l Hl; apply Hb; now right).
  destruct (Hb a (or_introl eq_refl))
    as (_ & ([vx Hvx] & [vy Hvy]) & m & Hm & _).
  rewrite Hvx, Hvy, Hm. reflexivity.
Qed.

Lemma cycle_momentum L (dt : R) :
  NoDup L ->
  forall todo h, bodies_euler h L -> cycle_apart todo L (fin dt) h ->
    let h' := for_each todo
                (fun h pj =>
                   Euler.update_position (fin dt)
                     (Euler.gravitation L (fin dt) h) pj) h in
    bodies_euler h' L
    /\ momentum_x h' L = momentum_x h L
    /\ momentum_y h' L = momentum_y h L.
Proof.
  intros Hnd. unfold for_each.
  induction todo as [| pj todo IH]; intros h Hb Hsafe; simpl.
  - auto.
  - destruct Hsafe as [Ha Hrest].
    destruct (gravitation_momentum L h dt Hnd Hb Ha) as (Hb1 & _ & Hx1 & Hy1).
    destruct (update_position_momentum L _ pj dt Hb1) as (Hb2 & Hx2 & Hy2).
    destruct (IH _ Hb2 Hrest) as (Hb3 & Hx3 & Hy3).
    split; [assumption |]. split; congruence.
Qed.

Lemma run_momentum L (dt : R) :
  NoDup L ->
  forall n h, bodies_euler h L -> run_apart L (fin dt) n h ->
    bodies_euler (Euler.run L (fin dt) n h) L
    /\ momentum_x (Euler.run L (fin dt) n h) L = momentum_x h L
    /\ momentum_y (Euler.run L (fin dt) n h) L = momentum_y h L.
Proof.
  intros Hnd. induction n as [| k IH]; intros h Hb Hsafe; simpl.
  - auto.
  - destruct Hsafe as [Hcycle Hrest].
    destruct (cycle_momentum L dt Hnd L h Hb Hcycle) as (Hb1 & Hx1 & Hy1).
    destruct (IH _ Hb1 Hrest) as (Hb2 & Hx2 & Hy2).
    unfold Euler.cycle.
    split; [assumption |]. split; congruence.
Qed.

(** *** A time step of zero in nbody.py *)

Lemma gravitation_body_zero L h p1 p2 :
  bodies_euler h L -> apart_euler h L -> In p1 L -> In p2 L ->
  Euler.gravitation_body (fin 0) p1 h p2 = h.
Proof.
  intros Hb Ha H1 H2.
  rewrite (gravitation_body_real L h p1 p2 0 Hb Ha H1 H2).
  destruct (Hb p1 H1) as (_ & ([vx Hvx] & [vy Hvy]) & m1 & Hm1 & Hm1pos).
  rewrite Hm1. simpl real.
  replace (fin (real (Euler.e0 (Euler.velocity (h p1)))
                + fst (force h p1 p2) / m1 * 0))
    with (Euler.e0 (Euler.velocity (h p1))).
  2:{ rewrite Hvx. simpl. unfold fin. f_equal. field. lra. }
  replace (fin (real (Euler.e1 (Euler.velocity (h p1)))
                + snd (force h p1 p2) / m1 * 0))
    with (Euler.e1 (Euler.velocity (h p1))).
  2:{ rewrite Hvy. simpl. unfold fin. f_equal. field. lra. }
  rewrite V2_eta, set_velocity_id. apply upd_id.
Qed.

Lemma gravitation_zero L h :
  bodies_euler h L -> apart_euler h L -> Euler.gravitation L (fin 0) h = h.
Proof.
  intros Hb Ha. unfold Euler.gravitation, for_each.
  assert (Hinner : forall p1, In p1 L -> forall L2, incl L2 L ->
            fold_left (Euler.gravitation_body (fin 0) p1) L2 h = h).
  { intros p1 H1. induction L2 as [| p2 L2 IH]; intros Hincl; simpl;
      [reflexivity |].
    rewrite (gravitation_body_zero L h p1 p2 Hb Ha H1)
      by (apply Hincl; now left).
    apply IH. intros x Hx. apply Hincl. now right. }
  assert (Houter : forall L1, incl L1 L ->
            fold_left
              (fun h0 p1 => fold_left (Euler.gravitation_body (fin 0) p1) L h0)
              L1 h = h).
  { induction L1 as [| p1 L1 IH]; intros Hincl; simpl; [reflexivity |].
    rewrite (Hinner p1 (Hincl p1 (or_introl eq_refl)) L (incl_refl L)).
    apply IH. intros x Hx. apply Hincl. now right. }
  apply Houter, incl_refl.
Qed.

Lemma update_position_zero L h pj :
  bodies_euler h L -> In pj L -> Euler.update_position (fin 0) h pj = h.
Proof.
  intros Hb Hin. unfold Euler.update_position.
  destruct (Hb pj Hin) as (_ & ([vx Hvx] & [vy Hvy]) & _).
  rewrite Hvx, Hvy.
  change (fin vx * fin 0)%num with (fin (vx * 0)).
  change (fin vy * fin 0)%num with (fin (vy * 0)).
  replace (Euler.e0 (Euler.position (h pj)) + fin (vx * 0))%num
    with (Euler.e0 (Euler.position (h pj))).
  2:{ destruct (Euler.e0 (Euler.position (h pj))); simpl; [| reflexivity].
      f_equal. ring. }
  replace (Euler.e1 (Euler.position (h pj)) + fin (vy * 0))%num
    with (Euler.e1 (Euler.position (h pj))).
  2:{ destruct (Euler.e1 (Euler.position (h pj))); simpl; [| reflexivity].
      f_equal. ring. }
  rewrite V2_eta, set_position_id. apply upd_id.
Qed.

Lemma cycle_zero L h :
  bodies_euler h L -> apart_euler h L -> Euler.cycle L (fin 0) h = h.
Proof.
  intros Hb Ha. unfold Euler.cycle, for_each.
  assert (Hgen : forall todo, incl todo L ->
            fold_left
              (fun h0 pj =>
                 Euler.update_position (fin 0)
                   (Euler.gravitation L (fin 0) h0) pj) todo h = h).
  { induction todo as [| pj todo IH]; intros Hincl; simpl; [reflexivity |].
    rewrite (gravitation_zero L h Hb Ha).
    rewrite (update_position_zero L h pj Hb) by (apply Hincl; now left).
    apply IH. intros x Hx. apply Hincl. now right. }
  apply Hgen, incl_refl.
Qed.

(** ** Two stars in a column (nbody.py) *)

Lemma M_sun_pos : 0 < Euler.M_sun.
Proof. unfold Euler.M_sun. lra. Qed.

Lemma grav_constant_pos : 0 < Euler.grav_constant.
Proof. unfold Euler.grav_constant. lra. Qed.

Lemma stars_constructed (y : R) (i : Z) :
  Euler.Particle_init (Euler.mkV2 (fin 0) (fin y)) (Euler.mkV2 (fin 0) (fin 0))
    (fin 1) (fin 1) i "#000000" = Returns (star y 0 i).
Proof.
  unfold Euler.Particle_init, star. simpl. unfold fin.
  repeat f_equal; unfold Euler.km; ring.
Qed.

Lemma column_bodies y0 v0 y1 v1 : bodies_euler (column y0 v0 y1 v1) [0; 1]%nat.
Proof.
  intros l [<- | [<- | []]]; simpl;
    (split; [split; apply finite_fin |]);
    (split; [split; apply finite_fin |]);
    exists Euler.M_sun; split; auto using M_sun_pos.
Qed.

Lemma column_apart y0 v0 y1 v1 :
  y0 <> y1 -> apart_euler (column y0 v0 y1 v1) [0; 1]%nat.
Proof.
  intros Hy l l' [<- | [<- | []]] [<- | [<- | []]] Hne; simpl;
    try (now contradiction Hne); intros E; injection E; intros; lra.
Qed.

Lemma arctan2_up (x : R) : 0 < x -> arctan2 0 x = 0.
Proof.
  intros Hx. unfold arctan2. destruct (Rlt_dec 0 x) as [_ | C]; [| lra].
  replace (0 / x) with 0 by (field; lra). apply atan_0.
Qed.

Lemma arctan2_down (x : R) : x < 0 -> arctan2 0 x = PI.
Proof.
  intros Hx. unfold arctan2. destruct (Rlt_dec 0 x) as [C | _]; [lra |].
  destruct (Rlt_dec x 0) as [_ | C]; [| lra].
  destruct (Rle_dec 0 0) as [_ | C]; [| lra].
  replace (0 / x) with 0 by (field; lra). rewrite atan_0. ring.
Qed.

Lemma force_column_low y0 v0 y1 v1 :
  y0 < y1 ->
  force (column y0 v0 y1 v1) 0%nat 1%nat
  = (0, Euler.grav_constant * Euler.M_sun * Euler.M_sun
        / ((y1 - y0) * (y1 - y0))).
Proof.
  intros Hy. unfold force. simpl.
  replace (0 - 0) with 0 by ring.
  rewrite arctan2_up by lra. rewrite sin_0, cos_0.
  replace (sqrt (0 * 0 + (y1 - y0) * (y1 - y0))) with (y1 - y0).
  2:{ symmetry. apply sqrt_lem_1; nra. }
  f_equal; ring.
Qed.

Lemma force_column_high y0 v0 y1 v1 :
  y0 < y1 ->
  force (column y0 v0 y1 v1) 1%nat 0%nat
  = (0, - (Euler.grav_constant * Euler.M_sun * Euler.M_sun
           / ((y1 - y0) * (y1 - y0)))).
Proof.
  intros Hy. unfold force. simpl.
  replace (0 - 0) with 0 by ring.
  rewrite arctan2_down by lra. rewrite sin_PI, cos_PI.
  replace (sqrt (0 * 0 + (y0 - y1) * (y0 - y1))) with (y1 - y0).
  2:{ symmetry. apply sqrt_lem_1; nra. }
  f_equal; field; lra.
Qed.

Lemma store2_ext {A : Type} (h : store A) (p0 p1 spare : A) :
  h 0%nat = p0 -> h 1%nat = p1 -> (forall l, h (S (S l)) = spare) ->
  h = store2 p0 p1 spare.
Proof.
  intros H0 H1 H2. apply functional_extensionality.
  intros [| [| l]]; simpl; auto.
Qed.

Lemma set_velocity_star y v i a b b' :
  a = 0 -> b = b' ->
  Euler.set_velocity (star y v i) (Euler.mkV2 (fin a) (fin b)) = star y b' i.
Proof. now intros -> ->. Qed.

Lemma set_position_star y v i a b b' :
  a = 0 -> b = b' ->
  Euler.set_position (star y v i) (Euler.mkV2 (fin a) (fin b)) = star b' v i.
Proof. now intros -> ->. Qed.

Lemma column_pull_low y0 v0 y1 v1 (dt : R) :
  y0 < y1 ->
  Euler.gravitation_body (fin dt) 0 (column y0 v0 y1 v1) 1%nat
  = column y0 (v0 + pull (y1 - y0) * dt) y1 v1.
Proof.
  intros Hy. pose proof M_sun_pos as HM.
  rewrite (gravitation_body_real [0; 1]%nat) ;
    [| apply column_bodies | apply column_apart; lra | now left
     | right; now left].
  rewrite force_column_low by assumption.
  apply store2_ext.
  - rewrite upd_same. simpl.
    apply set_velocity_star; unfold pull; field; lra.
  - now rewrite upd_other by discriminate.
  - intros l. now rewrite upd_other by discriminate.
Qed.

Lemma column_pull_high y0 v0 y1 v1 (dt : R) :
  y0 < y1 ->
  Euler.gravitation_body (fin dt) 1 (column y0 v0 y1 v1) 0%nat
  = column y0 v0 y1 (v1 - pull (y1 - y0) * dt).
Proof.
  intros Hy. pose proof M_sun_pos as HM.
  rewrite (gravitation_body_real [0; 1]%nat) ;
    [| apply column_bodies | apply column_apart; lra | right; now left
     | now left].
  rewrite force_column_high by assumption.
  apply store2_ext.
  - now rewrite upd_other by discriminate.
  - rewrite upd_same. simpl.
    apply set_velocity_star; unfold pull; field; lra.
  - intros l. now rewrite upd_other by discriminate.
Qed.

Lemma column_move_low y0 v0 y1 v1 (dt : R) :
  Euler.update_position (fin dt) (column y0 v0 y1 v1) 0
  = column (y0 + v0 * dt) v0 y1 v1.
Proof.
  unfold Euler.update_position. apply store2_ext.
  - rewrite upd_same. simpl. apply set_position_star; ring.
  - now rewrite upd_other by discriminate.
  - intros l. now rewrite upd_other by discriminate.
Qed.

Lemma column_move_high y0 v0 y1 v1 (dt : R) :
  Euler.update_position (fin dt) (column y0 v0 y1 v1) 1
  = column y0 v0 (y1 + v1 * dt) v1.
Proof.
  unfold Euler.update_position. apply store2_ext.
  - now rewrite upd_other by discriminate.
  - rewrite upd_same. simpl. apply set_position_star; ring.
  - intros l. now rewrite upd_other by discriminate.
Qed.

Lemma gravitation_body_self dt p h : Euler.gravitation_body dt p h p = h.
Proof. unfold Euler.gravitation_body. now rewrite Z.eqb_refl. Qed.

(** One call of [gravitation] on the column: each star gains the pull of
    the other, once. *)
Lemma column_gravitation y0 v0 y1 v1 (dt : R) :
  y0 < y1 ->
  Euler.gravitation [0; 1]%nat (fin dt) (column y0 v0 y1 v1)
  = column y0 (v0 + pull (y1 - y0) * dt) y1 (v1 - pull (y1 - y0) * dt).
Proof.
  intros Hy. cbv [Euler.gravitation for_each fold_left].
  rewrite !gravitation_body_self.
  rewrite column_pull_low by assumption.
  now rewrite column_pull_high by assumption.
Qed.

(** One cycle on the column: [gravitation] runs twice, the second time
    after the lower star has moved. *)
Lemma column_cycle y0 v0 y1 v1 (dt : R) :
  let u0 := v0 + pull (y1 - y0) * dt in
  let u1 := v1 - pull (y1 - y0) * dt in
  let y0' := y0 + u0 * dt in
  let w0 := u0 + pull (y1 - y0') * dt in
  let w1 := u1 - pull (y1 - y0') * dt in
  y0 < y1 -> y0' < y1 ->
  Euler.cycle [0; 1]%nat (fin dt) (column y0 v0 y1 v1)
  = column y0' w0 (y1 + w1 * dt) w1.
Proof.
  intros u0 u1 y0' w0 w1 Hy Hy'. cbv [Euler.cycle for_each fold_left].
  rewrite column_gravitation by assumption.
  rewrite column_move_low. fold u0 u1 y0'.
  rewrite column_gravitation by assumption.
  fold w0 w1. apply column_move_high.
Qed.

(** ** Two balls on an axis (the Runge-Kutta script) *)

Lemma norm_fin (a b c : R) :
  RK4.norm (RK4.mkV3 (fin a) (fin b) (fin c))
  = fin (sqrt (a * a + b * b + c * c)).
Proof.
  unfold RK4.norm. cbv [RK4.c0 RK4.c1 RK4.c2].
  change (fin a * fin a + fin b * fin b + fin c * fin c)%num
    with (fin (a * a + b * b + c * c)).
  apply nsqrt_fin.
  pose proof (sq_nonneg a). pose proof (sq_nonneg b). pose proof (sq_nonneg c).
  lra.
Qed.

Lemma norm_axis (x : R) :
  0 < x ->
  RK4.norm (RK4.mkV3 (fin (- x)) (fin (0 - 0)) (fin (0 - 0))) = fin x.
Proof.
  intros Hx. rewrite norm_fin. f_equal. apply sqrt_lem_1; nra.
Qed.

Lemma norm_axis' (x : R) :
  0 < x ->
  RK4.norm (RK4.mkV3 (fin x) (fin (0 - 0)) (fin (0 - 0))) = fin x.
Proof.
  intros Hx. rewrite norm_fin. f_equal. apply sqrt_lem_1; nra.
Qed.

(** The acceleration of the lower ball, asked for at any finite candidate
    position: the distance is the stored one, so it is linear in the
    candidate position. *)
Lemma acceleration_axis_low XG x0 v0 x1 v1 m (p q r : R) :
  x0 < x1 -> 0 < m ->
  let k := XG * m / ((x1 - x0) * (x1 - x0) * (x1 - x0)) in
  RK4.acceleration XG (axis x0 v0 x1 v1 m) 0
    (RK4.mkV3 (fin p) (fin q) (fin r)) [0; 1]%nat
  = RK4.mkV3 (fin (k * (x1 - p))) (fin (k * (0 - q))) (fin (k * (0 - r))).
Proof.
  intros Hx Hm k.
  cbv [RK4.acceleration fold_left RK4.acceleration_body Nat.eqb RK4.dist_to].
  change (RK4.vsub (RK4.pos (axis x0 v0 x1 v1 m 0%nat))
            (RK4.pos (axis x0 v0 x1 v1 m 1%nat)))
    with (RK4.mkV3 (fin (x0 - x1)) (fin (0 - 0)) (fin (0 - 0))).
  replace (x0 - x1) with (- (x1 - x0)) by ring.
  rewrite norm_axis by lra.
  set (D := x1 - x0) in *. assert (HD : 0 < D) by (unfold D; lra).
  cbv [RK4.vadd RK4.smul RK4.sdiv RK4.vsub RK4.vmap RK4.zeros3
       RK4.c0 RK4.c1 RK4.c2 RK4.pos RK4.mas axis store2 store3 ball].
  num_eval. unfold k. f_equal; f_equal; field; lra.
Qed.

Lemma acceleration_axis_high XG x0 v0 x1 v1 m (p q r : R) :
  x0 < x1 -> 0 < m ->
  let k := XG * m / ((x1 - x0) * (x1 - x0) * (x1 - x0)) in
  RK4.acceleration XG (axis x0 v0 x1 v1 m) 1
    (RK4.mkV3 (fin p) (fin q) (fin r)) [0; 1]%nat
  = RK4.mkV3 (fin (k * (x0 - p))) (fin (k * (0 - q))) (fin (k * (0 - r))).
Proof.
  intros Hx Hm k.
  cbv [RK4.acceleration fold_left RK4.acceleration_body Nat.eqb RK4.dist_to].
  change (RK4.vsub (RK4.pos (axis x0 v0 x1 v1 m 1%nat))
            (RK4.pos (axis x0 v0 x1 v1 m 0%nat)))
    with (RK4.mkV3 (fin (x1 - x0)) (fin (0 - 0)) (fin (0 - 0))).
  rewrite norm_axis' by lra.
  set (D := x1 - x0) in *. assert (HD : 0 < D) by (unfold D; lra).
  cbv [RK4.vadd RK4.smul RK4.sdiv RK4.vsub RK4.vmap RK4.zeros3
       RK4.c0 RK4.c1 RK4.c2 RK4.pos RK4.mas axis store2 store3 ball].
  num_eval. unfold k. f_equal; f_equal; field; lra.
Qed.

Lemma nmul_fin (a b : R) : (fin a * fin b)%num = fin (a * b).
Proof. reflexivity. Qed.

Lemma vadd_fin (a b c a' b' c' : R) :
  RK4.vadd (RK4.mkV3 (fin a) (fin b) (fin c))
    (RK4.mkV3 (fin a') (fin b') (fin c'))
  = RK4.mkV3 (fin (a + a')) (fin (b + b')) (fin (c + c')).
Proof. reflexivity. Qed.

Lemma smul_fin (k a b c : R) :
  RK4.smul (fin k) (RK4.mkV3 (fin a) (fin b) (fin c))
  = RK4.mkV3 (fin (k * a)) (fin (k * b)) (fin (k * c)).
Proof. reflexivity. Qed.

Lemma rk4_axis_low XG x0 v0 x1 v1 m (dt : R) :
  x0 < x1 -> 0 < m ->
  let k := XG * m / ((x1 - x0) * (x1 - x0) * (x1 - x0)) in
  RK4.rk4 XG (axis x0 v0 x1 v1 m) 0 [0; 1]%nat (fin dt)
  = (RK4.mkV3 (fin (fst (rk4_line k x1 x0 v0 dt))) (fin 0) (fin 0),
     RK4.mkV3 (fin (snd (rk4_line k x1 x0 v0 dt))) (fin 0) (fin 0)).
Proof.
  intros Hx Hm k.
  pose proof (fun p q r => acceleration_axis_low XG x0 v0 x1 v1 m p q r Hx Hm)
    as Hacc.
  cbv zeta in Hacc. fold k in Hacc.
  set (h := axis x0 v0 x1 v1 m) in *.
  change (RK4.rk4 XG h 0 [0; 1]%nat (fin dt))
    with (let s := RK4.rk4_locals XG h 0 [0; 1]%nat (fin dt) in
          (RK4.new_pos s, RK4.new_vel s)).
  cbv [RK4.rk4_locals RK4.new_pos RK4.new_vel].
  change (RK4.pos (h 0%nat)) with (RK4.mkV3 (fin x0) (fin 0) (fin 0)).
  change (RK4.vel (h 0%nat)) with (RK4.mkV3 (fin v0) (fin 0) (fin 0)).
  rewrite ndiv_fin by lra.
  repeat first [ rewrite nmul_fin | rewrite smul_fin | rewrite vadd_fin
               | rewrite Hacc ].
  unfold rk4_line, fin; simpl fst; simpl snd.
  f_equal; f_equal; f_equal; ring.
Qed.

Lemma rk4_axis_high XG x0 v0 x1 v1 m (dt : R) :
  x0 < x1 -> 0 < m ->
  let k := XG * m / ((x1 - x0) * (x1 - x0) * (x1 - x0)) in
  RK4.rk4 XG (axis x0 v0 x1 v1 m) 1 [0; 1]%nat (fin dt)
  = (RK4.mkV3 (fin (fst (rk4_line k x0 x1 v1 dt))) (fin 0) (fin 0),
     RK4.mkV3 (fin (snd (rk4_line k x0 x1 v1 dt))) (fin 0) (fin 0)).
Proof.
  intros Hx Hm k.
  pose proof (fun p q r => acceleration_axis_high XG x0 v0 x1 v1 m p q r Hx Hm)
    as Hacc.
  cbv zeta in Hacc. fold k in Hacc.
  set (h := axis x0 v0 x1 v1 m) in *.
  change (RK4.rk4 XG h 1 [0; 1]%nat (fin dt))
    with (let s := RK4.rk4_locals XG h 1 [0; 1]%nat (fin dt) in
          (RK4.new_pos s, RK4.new_vel s)).
  cbv [RK4.rk4_locals RK4.new_pos RK4.new_vel].
  change (RK4.pos (h 1%nat)) with (RK4.mkV3 (fin x1) (fin 0) (fin 0)).
  change (RK4.vel (h 1%nat)) with (RK4.mkV3 (fin v1) (fin 0) (fin 0)).
  rewrite ndiv_fin by lra.
  repeat first [ rewrite nmul_fin | rewrite smul_fin | rewrite vadd_fin
               | rewrite Hacc ].
  unfold rk4_line, fin; simpl fst; simpl snd.
  f_equal; f_equal; f_equal; ring.
Qed.

(** One call of [update_particles] on the two balls: the lower ball is
    advanced first, and the upper ball is then advanced against the new
    position of the lower one. *)
Lemma update_particles_axis XG x0 v0 x1 v1 m (dt : R) :
  let k0 := XG * m / ((x1 - x0) * (x1 - x0) * (x1 - x0)) in
  let r0 := rk4_line k0 x1 x0 v0 dt in
  let k1 := XG * m / ((x1 - fst r0) * (x1 - fst r0) * (x1 - fst r0)) in
  let r1 := rk4_line k1 (fst r0) x1 v1 dt in
  x0 < x1 -> fst r0 < x1 -> 0 < m ->
  RK4.update_particles XG (axis x0 v0 x1 v1 m) [0; 1]%nat (fin dt)
  = axis (fst r0) (snd r0) (fst r1) (snd r1) m.
Proof.
  intros k0 r0 k1 r1 Hx Hx' Hm.
  cbv [RK4.update_particles for_each fold_left].
  assert (H0 : RK4.update_particle XG [0; 1]%nat (fin dt) (axis x0 v0 x1 v1 m) 0
               = axis (fst r0) (snd r0) x1 v1 m).
  { unfold RK4.update_particle. rewrite rk4_axis_low by assumption.
    fold k0 r0. apply store2_ext.
    - now rewrite upd_same.
    - now rewrite upd_other by discriminate.
    - intros l. now rewrite upd_other by discriminate. }
  rewrite H0.
  unfold RK4.update_particle. rewrite rk4_axis_high by assumption.
  fold k1 r1. apply store2_ext.
  - now rewrite upd_other by discriminate.
  - now rewrite upd_same.
  - intros l. now rewrite upd_other by discriminate.
Qed.

(** ** The worked run of nbody.py *)

Lemma column_eq y0 v0 y1 v1 y0' v0' y1' v1' :
  y0 = y0' -> v0 = v0' -> y1 = y1' -> v1 = v1' ->
  column y0 v0 y1 v1 = column y0' v0' y1' v1'.
Proof. now intros -> -> -> ->. Qed.

Lemma pull_wide : pull 10000000000 = 667 / 500.
Proof. unfold pull, Euler.grav_constant, Euler.M_sun. field. Qed.

Lemma pull_pos (D : R) : D <> 0 -> 0 < pull D.
Proof.
  intros HD. unfold pull.
  pose proof grav_constant_pos. pose proof M_sun_pos. pose proof (sq_pos D HD).
  apply Rdiv_lt_0_compat; nra.
Qed.

Lemma wide_column_gravitation :
  Euler.gravitation [0; 1]%nat (fin 1) wide_column
  = column 0 (667 / 500) 10000000000 (- (667 / 500)).
Proof.
  unfold wide_column. rewrite column_gravitation by lra.
  replace (10000000000 - 0) with 10000000000 by ring.
  rewrite pull_wide. apply column_eq; lra.
Qed.

Lemma wide_column_cycle :
  let a := 667 / 500 in
  let a' := pull (10000000000 - a) in
  Euler.cycle [0; 1]%nat (fin 1) wide_column
  = column a (a + a') (10000000000 - (a + a')) (- (a + a')).
Proof.
  intros a a'. unfold wide_column.
  pose proof (column_cycle 0 0 10000000000 0 1) as H. cbv zeta in H.
  replace (10000000000 - 0) with 10000000000 in H by ring.
  rewrite pull_wide in H.
  replace (0 + (0 + 667 / 500 * 1) * 1) with a in H by (unfold a; lra).
  fold a' in H.
  rewrite H by (unfold a; lra).
  apply column_eq; unfold a; lra.
Qed.

(** C5, as amended: under the Euler stepper of nbody.py the momentum of
    bodies of finite state and positive mass, listed once each, is after
    any number of cycles what it was at the start, as long as no two
    bodies coincide when [gravitation] is called. *)
Theorem gravitation_keeps_momentum (particles : list loc) (dt : R) (n : nat)
  (h : store Euler.Particle) :
  NoDup particles -> bodies_euler h particles ->
  run_apart particles (fin dt) n h ->
  momentum_euler (Euler.run particles (fin dt) n h) particles
  = momentum_euler h particles.
Proof.
  intros Hnd Hb Hsafe.
  destruct (run_momentum particles dt Hnd n h Hb Hsafe) as (Hb' & Hx & Hy).
  rewrite (momentum_real particles _ Hb'), (momentum_real particles h Hb).
  now rewrite Hx, Hy.
Qed.

Lemma NoDup_two : NoDup [0; 1]%nat.
Proof.
  constructor; [| constructor; [| constructor]]; simpl; intuition discriminate.
Qed.

Lemma wide_column_run_apart : run_apart [0; 1]%nat (fin 1) 1 wide_column.
Proof.
  simpl. split; [| exact I]. split.
  - apply column_apart. lra.
  - split; [| exact I].
    rewrite wide_column_gravitation, column_move_low.
    apply column_apart. lra.
Qed.

Lemma gravitation_keeps_momentum_witness :
  NoDup [0; 1]%nat
  /\ bodies_euler wide_column [0; 1]%nat
  /\ run_apart [0; 1]%nat (fin 1) 1 wide_column
  /\ momentum_euler (Euler.run [0; 1]%nat (fin 1) 1 wide_column) [0; 1]%nat
     = momentum_euler wide_column [0; 1]%nat.
Proof.
  split; [exact NoDup_two |].
  split; [apply column_bodies |].
  split; [exact wide_column_run_apart |].
  apply (gravitation_keeps_momentum [0; 1]%nat 1 1 wide_column).
  - exact NoDup_two.
  - apply column_bodies.
  - exact wide_column_run_apart.
Defined.

(** ** The worked run of the Runge-Kutta script *)

Lemma unit_mass_pos : 0 < 1 / C.XG.
Proof. pose proof C_XG_pos. apply Rdiv_lt_0_compat; lra. Qed.

Lemma axis_bodies x0 v0 x1 v1 m :
  0 < m -> bodies_rk4 (axis x0 v0 x1 v1 m) [0; 1]%nat.
Proof.
  intros Hm l [<- | [<- | []]]; simpl;
    (split; [repeat split; apply finite_fin |]);
    (split; [repeat split; apply finite_fin |]);
    exists m; split; auto.
Qed.

Lemma axis_apart x0 v0 x1 v1 m :
  x0 <> x1 -> apart_rk4 (axis x0 v0 x1 v1 m) [0; 1]%nat.
Proof.
  intros Hx l l' [<- | [<- | []]] [<- | [<- | []]] Hne; simpl;
    try (now contradiction Hne); intros E; injection E; intros; lra.
Qed.

(** One step on the unit axis. The lower ball, advanced first against the
    upper ball at 1, ends at 41/96 with velocity 79/96; the upper ball is
    then advanced against the lower ball at 41/96. *)
Lemma unit_axis_step :
  RK4.update_particles C.XG unit_axis [0; 1]%nat (fin 1)
  = axis (41 / 96) (79 / 96)
      (- (5915174784191 / 83733937890625))
      (- (197918959592448 / 83733937890625)) (1 / C.XG).
Proof.
  unfold unit_axis.
  pose proof (update_particles_axis C.XG 0 0 1 0 (1 / C.XG) 1) as H.
  cbv zeta in H.
  assert (Hk0 : C.XG * (1 / C.XG) / ((1 - 0) * (1 - 0) * (1 - 0)) = 1).
  { unfold C.XG, Euler.grav_constant. field. }
  rewrite Hk0 in H.
  assert (Hr0 : rk4_line 1 1 0 0 1 = (41 / 96, 79 / 96)).
  { unfold rk4_line. f_equal; field. }
  rewrite Hr0 in H. cbn [fst snd] in H.
  assert (Hk1 : C.XG * (1 / C.XG)
                / ((1 - 41 / 96) * (1 - 41 / 96) * (1 - 41 / 96))
                = 884736 / 166375).
  { unfold C.XG, Euler.grav_constant. field. }
  rewrite Hk1 in H.
  assert (Hr1 : rk4_line (884736 / 166375) (41 / 96) 1 0 1
                = (- (5915174784191 / 83733937890625),
                   - (197918959592448 / 83733937890625))).
  { unfold rk4_line. f_equal; field. }
  rewrite Hr1 in H. cbn [fst snd] in H.
  apply H; try lra. exact unit_mass_pos.
Qed.

(** The update of the upper ball from the state before the step. *)
Lemma unit_axis_rk4_upper :
  RK4.rk4 C.XG unit_axis 1 [0; 1]%nat (fin 1)
  = (RK4.mkV3 (fin (55 / 96)) (fin 0) (fin 0),
     RK4.mkV3 (fin (- (79 / 96))) (fin 0) (fin 0)).
Proof.
  unfold unit_axis.
  rewrite rk4_axis_high by (try lra; exact unit_mass_pos).
  assert (Hk0 : C.XG * (1 / C.XG) / ((1 - 0) * (1 - 0) * (1 - 0)) = 1).
  { unfold C.XG, Euler.grav_constant. field. }
  rewrite Hk0.
  assert (Hr : rk4_line 1 0 1 0 1 = (55 / 96, - (79 / 96))).
  { unfold rk4_line. f_equal; field. }
  now rewrite Hr.
Qed.

Lemma momentum_axis x0 v0 x1 v1 m :
  momentum_rk4 (axis x0 v0 x1 v1 m) [0; 1]%nat
  = RK4.mkV3 (fin (m * v0 + (m * v1 + 0))) (fin (m * 0 + (m * 0 + 0)))
      (fin (m * 0 + (m * 0 + 0))).
Proof. reflexivity. Qed.

(** C5, counterexample. One Runge-Kutta step on the unit axis: the
    momentum, zero before the step, is not zero after it. *)
Lemma rk4_step_changes_momentum :
  momentum_rk4 (RK4.update_particles C.XG unit_axis [0; 1]%nat (fin 1))
    [0; 1]%nat
  <> momentum_rk4 unit_axis [0; 1]%nat.
Proof.
  rewrite unit_axis_step. unfold unit_axis. rewrite !momentum_axis.
  intros E. apply (f_equal RK4.c0) in E. simpl in E.
  injection E as E.
  pose proof unit_mass_pos as Hm.
  set (m := 1 / C.XG) in *. nra.
Qed.

(** C4, counterexample. In the same step the upper ball, second in the
    list, is not advanced from the state before the step (which would
    leave it at 55/96 with velocity -79/96): its update reads the lower
    ball where the step has already put it. *)
Lemma later_body_reads_advanced_state :
  (RK4.pos (RK4.update_particles C.XG unit_axis [0; 1]%nat (fin 1) 1%nat),
   RK4.vel (RK4.update_particles C.XG unit_axis [0; 1]%nat (fin 1) 1%nat))
  <> RK4.rk4 C.XG unit_axis 1 [0; 1]%nat (fin 1).
Proof.
  rewrite unit_axis_step, unit_axis_rk4_upper. simpl.
  intros E. injection E as E _. lra.
Qed.

(** ** The order of the updates in [update_particles] *)

Lemma update_particle_elsewhere XG L dt h p l :
  l <> p -> RK4.update_particle XG L dt h p l = h l.
Proof.
  intros N. unfold RK4.update_particle.
  destruct (RK4.rk4 XG h p L dt) as [np nv]. now apply upd_other.
Qed.

Lemma update_particle_here XG L dt h p :
  (RK4.pos (RK4.update_particle XG L dt h p p),
   RK4.vel (RK4.update_particle XG L dt h p p)) = RK4.rk4 XG h p L dt.
Proof.
  unfold RK4.update_particle.
  destruct (RK4.rk4 XG h p L dt) as [np nv]. now rewrite upd_same.
Qed.

Lemma updates_elsewhere XG L dt todo :
  forall h l, ~ In l todo ->
    for_each todo (RK4.update_particle XG L dt) h l = h l.
Proof.
  unfold for_each.
  induction todo as [| p todo IH]; intros h l Hl; simpl; [reflexivity |].
  rewrite IH by (intros C; apply Hl; now right).
  apply update_particle_elsewhere. intros ->. apply Hl. now left.
Qed.

(** C4, as amended. [update_particles] advances the bodies one after the
    other, in the order of the list, in the store itself. The four stages
    of the update of a body [b] (listed once) read one store, the one left
    by the updates of the bodies before [b] in the list: a body that is
    not before [b] is there in its state from before the step, and a body
    before [b] (not listed again) is there in its state from after the
    step. *)
Theorem update_particles_in_order (XG : R) (h : store RK4.Particle)
  (pre : list loc) (b : loc) (post : list loc) (dt : num) :
  ~ In b post ->
  let Plist := pre ++ b :: post in
  let before := for_each pre (RK4.update_particle XG Plist dt) h in
  (RK4.pos (RK4.update_particles XG h Plist dt b),
   RK4.vel (RK4.update_particles XG h Plist dt b))
  = RK4.rk4 XG before b Plist dt
  /\ (forall l, ~ In l pre -> before l = h l)
  /\ (forall l, ~ In l (b :: post) ->
        before l = RK4.update_particles XG h Plist dt l).
Proof.
  intros Hb Plist before.
  assert (Hsplit : RK4.update_particles XG h Plist dt
                   = for_each post (RK4.update_particle XG Plist dt)
                       (RK4.update_particle XG Plist dt before b)).
  { unfold RK4.update_particles, before, for_each, Plist.
    now rewrite fold_left_app. }
  split; [| split].
  - rewrite Hsplit, updates_elsewhere by assumption.
    apply update_particle_here.
  - intros l Hl. unfold before. now apply updates_elsewhere.
  - intros l Hl. rewrite Hsplit.
    rewrite updates_elsewhere by (intros C; apply Hl; now right).
    symmetry. apply update_particle_elsewhere.
    intros ->. apply Hl. now left.
Qed.

Lemma update_particles_in_order_witness :
  ~ In 1%nat []
  /\ (RK4.pos (RK4.update_particles C.XG unit_axis [0; 1]%nat (fin 1) 1%nat),
      RK4.vel (RK4.update_particles C.XG unit_axis [0; 1]%nat (fin 1) 1%nat))
     = RK4.rk4 C.XG
         (for_each [0%nat] (RK4.update_particle C.XG [0; 1]%nat (fin 1))
            unit_axis)
         1 [0; 1]%nat (fin 1).
Proof.
  split; [intros [] |].
  apply (update_particles_in_order C.XG unit_axis [0%nat] 1%nat [] (fin 1)).
  intros [].
Defined.

(** ** A time step of zero *)

(** C8. With a time step of zero one step of either integrator leaves the
    position and the velocity of every body as they were, for bodies as
    the data model has them (finite position and velocity, positive mass)
    no two of which coincide. *)
Theorem zero_step_changes_nothing (XG : R) (h : store RK4.Particle)
  (Plist : list loc) (e : store Euler.Particle) (particles : list loc) :
  bodies_rk4 h Plist -> apart_rk4 h Plist ->
  bodies_euler e particles -> apart_euler e particles ->
  (forall l,
      RK4.pos (RK4.update_particles XG h Plist (fin 0) l) = RK4.pos (h l)
      /\ RK4.vel (RK4.update_particles XG h Plist (fin 0) l) = RK4.vel (h l))
  /\ (forall l,
        Euler.position (Euler.cycle particles (fin 0) e l)
        = Euler.position (e l)
        /\ Euler.velocity (Euler.cycle particles (fin 0) e l)
           = Euler.velocity (e l)).
Proof.
  intros Hb Ha Hb' Ha'. split; intros l.
  - now rewrite update_particles_zero_step.
  - now rewrite (cycle_zero particles e).
Qed.

Lemma zero_step_changes_nothing_witness :
  bodies_rk4 unit_axis [0; 1]%nat /\ apart_rk4 unit_axis [0; 1]%nat
  /\ bodies_euler wide_column [0; 1]%nat /\ apart_euler wide_column [0; 1]%nat
  /\ (forall l,
        RK4.pos (RK4.update_particles C.XG unit_axis [0; 1]%nat (fin 0) l)
        = RK4.pos (unit_axis l)
        /\ RK4.vel (RK4.update_particles C.XG unit_axis [0; 1]%nat (fin 0) l)
           = RK4.vel (unit_axis l))
  /\ (forall l,
        Euler.position (Euler.cycle [0; 1]%nat (fin 0) wide_column l)
        = Euler.position (wide_column l)
        /\ Euler.velocity (Euler.cycle [0; 1]%nat (fin 0) wide_column l)
           = Euler.velocity (wide_column l)).
Proof.
  assert (H1 : bodies_rk4 unit_axis [0; 1]%nat)
    by (apply axis_bodies, unit_mass_pos).
  assert (H2 : apart_rk4 unit_axis [0; 1]%nat) by (apply axis_apart; lra).
  assert (H3 : bodies_euler wide_column [0; 1]%nat) by apply column_bodies.
  assert (H4 : apart_euler wide_column [0; 1]%nat)
    by (apply column_apart; lra).
  split; [exact H1 |]. split; [exact H2 |].
  split; [exact H3 |]. split; [exact H4 |].
  exact (zero_step_changes_nothing C.XG unit_axis [0; 1]%nat wide_column
           [0; 1]%nat H1 H2 H3 H4).
Defined.

(** ** Construction and configuration *)

(** C7, counterexample. The particle of nbody.py built at the position
    (1, 0) is stored at (1, 0): the position is not multiplied by the
    solar radius. *)
Lemma nbody_position_kept_as_given :
  match Euler.Particle_init (Euler.mkV2 (fin 1) (fin 0))
          (Euler.mkV2 (fin 0) (fin 0)) (fin 1) (fin 1) 0 "#000000" with
  | Returns p =>
      Euler.position p = Euler.mkV2 (fin 1) (fin 0)
      /\ Euler.position p
         <> Euler.mkV2 (fin (1 * Euler.R_sun)) (fin (0 * Euler.R_sun))
  | Raises _ => False
  end.
Proof.
  simpl. split; [reflexivity |].
  intros E. injection E as E _. unfold Euler.R_sun in E. lra.
Qed.

(** C7, as amended. The particle of the Runge-Kutta script stores its
    position times XRSUN, its velocity times XKM and its mass times XMSUN
    (the constants of the missing module). The particle of nbody.py
    stores its velocity times 1000, its mass times 2e30 and its radius
    times 6.957e8, and its position as it is given. *)
Theorem constructors_convert_units (XRSUN XKM XMSUN : R)
  (init_pos init_vel : RK4.V3) (mass : num) (rad : Z) (col : Z * Z * Z)
  (init_pos' init_vel' : Euler.V2) (mass' radius' : num) (index' : Z)
  (colour' : string) :
  RK4.Particle_init XRSUN XKM XMSUN init_pos init_vel mass rad col
  = Returns
      (RK4.mkParticle
         (RK4.mkV3 (RK4.c0 init_pos * fin XRSUN) (RK4.c1 init_pos * fin XRSUN)
            (RK4.c2 init_pos * fin XRSUN))
         (RK4.mkV3 (RK4.c0 init_vel * fin XKM) (RK4.c1 init_vel * fin XKM)
            (RK4.c2 init_vel * fin XKM))
         (mass * fin XMSUN) rad col)
  /\ Euler.Particle_init init_pos' init_vel' mass' radius' index' colour'
     = Returns
         (Euler.mkParticle init_pos'
            (Euler.mkV2 (Euler.e0 init_vel' * fin 1000)
               (Euler.e1 init_vel' * fin 1000))
            (mass' * fin (2 * 10 ^ 30)) (radius' * fin 695700000)
            colour' index').
Proof. split; reflexivity. Qed.






(** ** The velocity of one particle across [gravitation] *)

Lemma gravitation_body_velocity L h p1 p2 (dt : R) :
  bodies_euler h L -> apart_euler h L -> In p1 L -> In p2 L ->
  vel_x (Euler.gravitation_body (fin dt) p1 h p2) p1
  = vel_x h p1 + fst (force h p1 p2) / mass_of h p1 * dt
  /\ (forall l, l <> p1 -> Euler.gravitation_body (fin dt) p1 h p2 l = h l).
Proof.
  intros Hb Ha H1 H2.
  rewrite (gravitation_body_real L h p1 p2 dt Hb Ha H1 H2). split.
  - unfold vel_x. rewrite upd_same. reflexivity.
  - intros l N. now apply upd_other.
Qed.

Lemma inner_loop_velocity L h0 p1 (dt : R) :
  NoDup L -> apart_euler h0 L -> In p1 L ->
  forall L2, incl L2 L ->
  forall h, bodies_euler h L -> same_geometry h0 h ->
    vel_x (for_each L2 (Euler.gravitation_body (fin dt) p1) h) p1
    = vel_x h p1
      + dt / mass_of h0 p1 * sum_over L2 (fun p2 => fst (force h0 p1 p2))
    /\ (forall l, l <> p1 ->
          for_each L2 (Euler.gravitation_body (fin dt) p1) h l = h l).
Proof.
  intros Hnd Ha0 H1. unfold for_each.
  induction L2 as [| p2 L2 IH]; intros Hincl h Hb Hg; simpl.
  - split; [lra | reflexivity].
  - assert (H2 : In p2 L) by (apply Hincl; now left).
    pose proof (apart_same_geometry h0 h L Hg Ha0) as Ha.
    destruct (gravitation_body_effect L h0 h p1 p2 dt Hnd Ha0 Hb Hg H1 H2)
      as (Hb' & Hg' & _).
    destruct (gravitation_body_velocity L h p1 p2 dt Hb Ha H1 H2) as [Hv Ho].
    destruct (IH (fun x Hx => Hincl x (or_intror Hx)) _ Hb' Hg') as [Hv' Ho'].
    split.
    + rewrite Hv', Hv, (force_same_geometry h0 h p1 p2 Hg).
      unfold mass_of. destruct (Hg p1) as (_ & -> & _).
      unfold Rdiv. ring.
    + intros l N. rewrite Ho' by assumption. now apply Ho.
Qed.

Lemma outer_loop_velocity L h0 (dt : R) :
  NoDup L -> apart_euler h0 L ->
  forall L1, incl L1 L -> NoDup L1 ->
  forall h, bodies_euler h L -> same_geometry h0 h ->
  forall p,
    (In p L1 ->
     vel_x (for_each L1
              (fun h p1 => for_each L (Euler.gravitation_body (fin dt) p1) h)
              h) p
     = vel_x h p
       + dt / mass_of h0 p * sum_over L (fun p2 => fst (force h0 p p2)))
    /\ (~ In p L1 ->
        for_each L1
          (fun h p1 => for_each L (Euler.gravitation_body (fin dt) p1) h) h p
        = h p).
Proof.
  intros Hnd Ha0. unfold for_each.
  induction L1 as [| p1 L1 IH]; intros Hincl Hnd1 h Hb Hg p; simpl.
  - split; [intros [] | reflexivity].
  - assert (H1 : In p1 L) by (apply Hincl; now left).
    inversion Hnd1 as [| ? ? Hnotin Hnd1']; subst.
    destruct (inner_loop_effect L h0 p1 dt Hnd Ha0 H1 L (incl_refl L) h Hb Hg)
      as (Hb' & Hg' & _).
    destruct (inner_loop_velocity L h0 p1 dt Hnd Ha0 H1 L (incl_refl L) h Hb Hg)
      as [Hv Ho].
    unfold for_each in Hb', Hg', Hv, Ho.
    destruct (IH (fun x Hx => Hincl x (or_intror Hx)) Hnd1' _ Hb' Hg' p)
      as [Hin Hout].
    split.
    + intros [-> | Hp].
      * unfold vel_x at 1. rewrite (Hout Hnotin). fold (vel_x
          (fold_left (Euler.gravitation_body (fin dt) p) L h) p).
        exact Hv.
      * rewrite (Hin Hp). unfold vel_x at 1.
        rewrite Ho by (intros ->; contradiction). reflexivity.
    + intros Hp. rewrite Hout by (intros C; apply Hp; now right).
      apply Ho. intros ->. apply Hp. now left.
Qed.

(** Across one call of [gravitation] the velocity of a particle of the
    list gains, along the first axis, the sum of the forces on it divided
    by its mass, times dt. *)
Lemma gravitation_velocity L h (dt : R) p :
  NoDup L -> bodies_euler h L -> apart_euler h L -> In p L ->
  vel_x (Euler.gravitation L (fin dt) h) p
  = vel_x h p + dt / mass_of h p * sum_over L (fun p2 => fst (force h p p2)).
Proof.
  intros Hnd Hb Ha Hp.
  destruct (outer_loop_velocity L h dt Hnd Ha L (incl_refl L) Hnd h Hb
              (same_geometry_refl h) p) as [Hin _].
  exact (Hin Hp).
Qed.

(** ** The first component of a force: sign and size *)

Lemma sin_arctan2_negative (y x : R) : y < 0 -> sin (arctan2 y x) < 0.
Proof.
  intros Hy. pose proof PI_RGT_0 as Hpi. unfold arctan2.
  destruct (Rlt_dec 0 x) as [Hx | Hx].
  - destruct (atan_bound (y / x)) as [Hlo _].
    assert (Hq : y / x < 0).
    { unfold Rdiv. pose proof (Rinv_0_lt_compat x Hx). nra. }
    pose proof (atan_increasing _ _ Hq) as Hup. rewrite atan_0 in Hup.
    apply sin_lt_0_var; lra.
  - destruct (Rlt_dec x 0) as [Hx' | Hx'].
    + destruct (Rle_dec 0 y) as [C | _]; [lra |].
      destruct (atan_bound (y / x)) as [_ Hhi].
      assert (Hq : 0 < y / x).
      { unfold Rdiv. pose proof (Rinv_lt_0_compat x Hx'). nra. }
      pose proof (atan_increasing _ _ Hq) as Hlo. rewrite atan_0 in Hlo.
      apply sin_lt_0_var; lra.
    + destruct (Rlt_dec 0 y) as [C | _]; [lra |].
      destruct (Rlt_dec y 0) as [_ | C]; [| lra].
      rewrite sin_neg, sin_PI2. lra.
Qed.

Lemma force_x_negative L h p1 p2 :
  bodies_euler h L -> In p1 L -> In p2 L ->
  Euler.index (h p1) <> Euler.index (h p2) ->
  pos_x h p2 < pos_x h p1 ->
  fst (force h p1 p2) < 0.
Proof.
  intros Hb H1 H2 Hidx Hx. unfold force, pos_x in *.
  destruct (Z.eqb (Euler.index (h p1)) (Euler.index (h p2))) eqn:E.
  { apply Z.eqb_eq in E. contradiction. }
  destruct (Hb p1 H1) as (_ & _ & m1 & Hm1 & Hm1pos).
  destruct (Hb p2 H2) as (_ & _ & m2 & Hm2 & Hm2pos).
  rewrite Hm1, Hm2. simpl real.
  set (dX := real (Euler.e0 (Euler.position (h p2)))
             - real (Euler.e0 (Euler.position (h p1)))) in *.
  set (dY := real (Euler.e1 (Euler.position (h p2)))
             - real (Euler.e1 (Euler.position (h p1)))).
  assert (HdX : dX < 0) by (unfold dX; lra).
  assert (Hs : 0 < dX * dX + dY * dY).
  { pose proof (sq_pos dX). pose proof (sq_nonneg dY). lra. }
  pose proof (sqrt_lt_R0 _ Hs) as Hd.
  set (d := sqrt (dX * dX + dY * dY)) in *.
  pose proof (sin_arctan2_negative dX dY HdX) as Hsin.
  pose proof grav_constant_pos as HG.
  assert (HF : 0 < Euler.grav_constant * m1 * m2 / (d * d)).
  { apply Rdiv_lt_0_compat; [| nra].
    apply Rmult_lt_0_compat; [nra | assumption]. }
  simpl fst. nra.
Qed.

Lemma force_x_bound L h p1 p2 (s : R) :
  bodies_euler h L -> In p1 L -> In p2 L ->
  0 < s -> s <= Rabs (pos_x h p2 - pos_x h p1) ->
  Rabs (fst (force h p1 p2))
  <= Euler.grav_constant * mass_of h p1 * mass_of h p2 / (s * s).
Proof.
  intros Hb H1 H2 Hs Hsep. unfold force, pos_x, mass_of in *.
  destruct (Hb p1 H1) as (_ & _ & m1 & Hm1 & Hm1pos).
  destruct (Hb p2 H2) as (_ & _ & m2 & Hm2 & Hm2pos).
  rewrite Hm1, Hm2. simpl real.
  pose proof grav_constant_pos as HG.
  assert (Hnum : 0 < Euler.grav_constant * m1 * m2).
  { apply Rmult_lt_0_compat; [nra | assumption]. }
  assert (Hss : 0 < s * s) by nra.
  destruct (Z.eqb (Euler.index (h p1)) (Euler.index (h p2))).
  { simpl fst. rewrite Rabs_R0. apply Rlt_le. now apply Rdiv_lt_0_compat. }
  set (dX := real (Euler.e0 (Euler.position (h p2)))
             - real (Euler.e0 (Euler.position (h p1)))) in *.
  set (dY := real (Euler.e1 (Euler.position (h p2)))
             - real (Euler.e1 (Euler.position (h p1)))).
  assert (HdX : s * s <= dX * dX).
  { unfold Rabs in Hsep. destruct (Rcase_abs dX); nra. }
  assert (Hsum : s * s <= dX * dX + dY * dY).
  { pose proof (sq_nonneg dY). lra. }
  assert (Hdd : sqrt (dX * dX + dY * dY) * sqrt (dX * dX + dY * dY)
                = dX * dX + dY * dY) by (apply sqrt_sqrt; lra).
  simpl fst. rewrite Hdd.
  set (q := dX * dX + dY * dY) in *.
  set (F := Euler.grav_constant * m1 * m2 / q).
  assert (HF : 0 < F) by (apply Rdiv_lt_0_compat; lra).
  assert (HFle : F <= Euler.grav_constant * m1 * m2 / (s * s)).
  { unfold F, Rdiv. apply Rmult_le_compat_l; [lra |].
    apply Rinv_le_contravar; lra. }
  destruct (SIN_bound (arctan2 dX dY)) as [Hlo Hhi].
  apply Rabs_le. split; nra.
Qed.

(** ** The first cycle of nbody.py as it is started *)

Lemma main_particles_no_option : Euler.main_particles no_option = Returns launch.
Proof.
  unfold Euler.main_particles, no_option, Euler.box_size. simpl truthy_int.
  rewrite nmul_fin, ndiv_fin by lra. reflexivity.
Qed.

Lemma main_no_option (n : nat) :
  Euler.main no_option n
  = Returns (Euler.run [0; 1; 2]%nat (fin (24 * 3600)) n launch).
Proof.
  unfold Euler.main. rewrite main_particles_no_option. reflexivity.
Qed.

Lemma NoDup_three : NoDup [0; 1; 2]%nat.
Proof.
  repeat constructor; simpl; intuition discriminate.
Qed.

Lemma launch_bodies : bodies_euler launch [0; 1; 2]%nat.
Proof.
  pose proof M_sun_pos as HM.
  intros l [<- | [<- | [<- | []]]]; simpl;
    (split; [split; apply finite_fin |]);
    (split; [split; apply finite_fin |]);
    eexists; (split; [reflexivity | lra]).
Qed.

Lemma Rabs_within (a b d : R) : Rabs (a - b) <= d -> b - d <= a <= b + d.
Proof. unfold Rabs. destruct (Rcase_abs (a - b)); lra. Qed.

Lemma Rabs_within' (a d : R) : Rabs a <= d -> - d <= a <= d.
Proof. unfold Rabs. destruct (Rcase_abs a); lra. Qed.

Lemma near_launch_start : near_launch launch 0 0.
Proof.
  split; [apply launch_bodies |]. split; [auto |].
  intros l [<- | [<- | [<- | []]]]; unfold pos_x, vel_x; simpl;
    split; rewrite ?Rminus_diag, ?Rmult_0_l, Rabs_R0; lra.
Qed.

(** Near [launch] the three particles keep their order along the first
    axis, more than 3.4e11 metres from one another. *)
Lemma near_launch_gaps h v d :
  near_launch h v d -> d <= 1600000000 ->
  pos_x h 1 + 340000000000 <= pos_x h 2
  /\ pos_x h 2 + 340000000000 <= pos_x h 0.
Proof.
  intros (_ & _ & Hnear) Hd.
  destruct (Hnear 0%nat) as [H0 _]; [simpl; auto |].
  destruct (Hnear 1%nat) as [H1 _]; [simpl; auto |].
  destruct (Hnear 2%nat) as [H2 _]; [simpl; auto |].
  apply Rabs_within in H0, H1, H2.
  unfold pos_x in *. simpl in H0, H1, H2. unfold Euler.R_sun in *.
  split; lra.
Qed.

Lemma near_launch_apart h v d :
  near_launch h v d -> d <= 1600000000 -> apart_euler h [0; 1; 2]%nat.
Proof.
  intros Hnear Hd.
  destruct (near_launch_gaps h v d Hnear Hd) as [H12 H20].
  assert (Hx : forall l l', pos_x h l <> pos_x h l' ->
                 Euler.position (h l) <> Euler.position (h l')).
  { intros l l' N E. apply N. unfold pos_x. now rewrite E. }
  intros l l' [<- | [<- | [<- | []]]] [<- | [<- | [<- | []]]] Hne;
    try (now contradiction Hne); apply Hx; lra.
Qed.

Lemma force_self h p : force h p p = (0, 0).
Proof. unfold force. now rewrite Z.eqb_refl. Qed.

Lemma near_launch_mass h v d :
  near_launch h v d ->
  mass_of h 0 = 99 / 10 * Euler.M_sun
  /\ mass_of h 1 = 11 / 10 * Euler.M_sun
  /\ mass_of h 2 = 13 / 10 * Euler.M_sun.
Proof.
  intros (_ & Hattr & _). unfold mass_of.
  destruct (Hattr 0%nat) as [-> _], (Hattr 1%nat) as [-> _],
    (Hattr 2%nat) as [-> _].
  repeat split; reflexivity.
Qed.

Lemma near_launch_force_bound h v d p1 p2 :
  near_launch h v d -> d <= 1600000000 ->
  In p1 [0; 1; 2]%nat -> In p2 [0; 1; 2]%nat -> p1 <> p2 ->
  Rabs (fst (force h p1 p2))
  <= Euler.grav_constant * mass_of h p1 * mass_of h p2
     / (340000000000 * 340000000000).
Proof.
  intros Hnear Hd H1 H2 Hne.
  destruct (near_launch_gaps h v d Hnear Hd) as [H12 H20].
  destruct Hnear as (Hb & _).
  apply (force_x_bound [0; 1; 2]%nat); trivial; [lra |].
  destruct H1 as [<- | [<- | [<- | []]]];
    destruct H2 as [<- | [<- | [<- | []]]];
    try (now contradiction Hne);
    unfold Rabs;
    match goal with |- context [Rcase_abs ?x] => destruct (Rcase_abs x) end;
    lra.
Qed.

(** The change of velocity in one call of [gravitation] near [launch], with
    the time step of one day, stays below 2000 m/s. *)
Lemma near_launch_kick h v d l :
  near_launch h v d -> d <= 1600000000 -> In l [0; 1; 2]%nat ->
  Rabs (24 * 3600 / mass_of h l
        * sum_over [0; 1; 2]%nat (fun p2 => fst (force h l p2))) <= 2000.
Proof.
  intros Hnear Hd Hl.
  destruct (near_launch_mass h v d Hnear) as (Hm0 & Hm1 & Hm2).
  pose proof (fun p1 p2 => near_launch_force_bound h v d p1 p2 Hnear Hd)
    as Hbound.
  assert (In0 : In 0%nat [0; 1; 2]%nat) by (simpl; auto).
  assert (In1 : In 1%nat [0; 1; 2]%nat) by (simpl; auto).
  assert (In2 : In 2%nat [0; 1; 2]%nat) by (simpl; auto).
  unfold sum_over; simpl fold_right.
  destruct Hl as [<- | [<- | [<- | []]]]; rewrite force_self; simpl fst.
  - pose proof (Hbound 0%nat 1%nat In0 In1 ltac:(discriminate)) as B1.
    pose proof (Hbound 0%nat 2%nat In0 In2 ltac:(discriminate)) as B2.
    rewrite Hm0, Hm1 in B1. rewrite Hm0, Hm2 in B2. rewrite Hm0.
    apply Rabs_within' in B1. apply Rabs_within' in B2.
    unfold Euler.grav_constant, Euler.M_sun in *.
    apply Rabs_le. split; lra.
  - pose proof (Hbound 1%nat 0%nat In1 In0 ltac:(discriminate)) as B1.
    pose proof (Hbound 1%nat 2%nat In1 In2 ltac:(discriminate)) as B2.
    rewrite Hm1, Hm0 in B1. rewrite Hm1, Hm2 in B2. rewrite Hm1.
    apply Rabs_within' in B1. apply Rabs_within' in B2.
    unfold Euler.grav_constant, Euler.M_sun in *.
    apply Rabs_le. split; lra.
  - pose proof (Hbound 2%nat 0%nat In2 In0 ltac:(discriminate)) as B1.
    pose proof (Hbound 2%nat 1%nat In2 In1 ltac:(discriminate)) as B2.
    rewrite Hm2, Hm0 in B1. rewrite Hm2, Hm1 in B2. rewrite Hm2.
    apply Rabs_within' in B1. apply Rabs_within' in B2.
    unfold Euler.grav_constant, Euler.M_sun in *.
    apply Rabs_le. split; lra.
Qed.

Lemma near_launch_gravitation h v d :
  near_launch h v d -> d <= 1600000000 ->
  near_launch (Euler.gravitation [0; 1; 2]%nat (fin (24 * 3600)) h)
    (v + 2000) d.
Proof.
  intros Hnear Hd.
  pose proof (near_launch_apart h v d Hnear Hd) as Ha.
  pose proof (fun l => near_launch_kick h v d l Hnear Hd) as Hkick.
  destruct Hnear as (Hb & Hattr & Hxv).
  destruct (gravitation_momentum [0; 1; 2]%nat h (24 * 3600) NoDup_three Hb Ha)
    as (Hb' & Hg & _ & _).
  split; [exact Hb' |]. split.
  - intros l. destruct (Hg l) as (_ & -> & ->). apply Hattr.
  - intros l Hl. destruct (Hxv l Hl) as [Hx Hv]. split.
    + unfold pos_x. destruct (Hg l) as (-> & _). exact Hx.
    + rewrite (gravitation_velocity [0; 1; 2]%nat h (24 * 3600) l
                 NoDup_three Hb Ha Hl).
      specialize (Hkick l Hl).
      apply Rabs_within' in Hv. apply Rabs_within' in Hkick.
      apply Rabs_le. lra.
Qed.

Lemma near_launch_moved h v d p :
  near_launch h v d -> 0 <= v -> In p [0; 1; 2]%nat ->
  near_launch (Euler.update_position (fin (24 * 3600)) h p) v
    (d + v * (24 * 3600)).
Proof.
  intros (Hb & Hattr & Hxv) Hv0 Hp.
  destruct (update_position_momentum [0; 1; 2]%nat h p (24 * 3600) Hb)
    as (Hb' & _).
  split; [exact Hb' |]. split.
  - intros l.
    destruct (update_position_attributes (fin (24 * 3600)) h p l)
      as (-> & _ & _ & ->).
    apply Hattr.
  - intros l Hl. destruct (Hxv l Hl) as [Hx Hv].
    apply Rabs_within' in Hx. apply Rabs_within' in Hv.
    unfold pos_x, vel_x in *. unfold Euler.update_position.
    destruct (Nat.eq_dec l p) as [-> | N].
    + rewrite upd_same. simpl.
      destruct (Hb p Hp) as (([x Ex] & _) & ([vx Evx] & _) & _).
      rewrite Ex, Evx in *. simpl in *.
      split; apply Rabs_le; nra.
    + rewrite upd_other by assumption.
      split; apply Rabs_le; nra.
Qed.

Lemma update_position_vel_x dt h p l :
  vel_x (Euler.update_position dt h p) l = vel_x h l.
Proof.
  unfold vel_x, Euler.update_position.
  destruct (Nat.eq_dec l p) as [-> | N].
  - now rewrite upd_same.
  - now rewrite upd_other.
Qed.

(** Near [launch] every call of [gravitation] pulls the first particle,
    the rightmost one, to the left. *)
Lemma near_launch_pull h v d :
  near_launch h v d -> d <= 1600000000 ->
  vel_x (Euler.gravitation [0; 1; 2]%nat (fin (24 * 3600)) h) 0 < vel_x h 0.
Proof.
  intros Hnear Hd.
  pose proof (near_launch_apart h v d Hnear Hd) as Ha.
  destruct (near_launch_gaps h v d Hnear Hd) as [H12 H20].
  destruct (near_launch_mass h v d Hnear) as (Hm0 & _).
  destruct Hnear as (Hb & Hattr & _).
  assert (In0 : In 0%nat [0; 1; 2]%nat) by (simpl; auto).
  assert (In1 : In 1%nat [0; 1; 2]%nat) by (simpl; auto).
  assert (In2 : In 2%nat [0; 1; 2]%nat) by (simpl; auto).
  rewrite (gravitation_velocity [0; 1; 2]%nat h (24 * 3600) 0%nat
             NoDup_three Hb Ha In0).
  unfold sum_over; simpl fold_right. rewrite force_self. simpl fst.
  assert (F1 : fst (force h 0 1) < 0).
  { apply (force_x_negative [0; 1; 2]%nat); trivial; [| lra].
    destruct (Hattr 0%nat) as [_ ->], (Hattr 1%nat) as [_ ->].
    simpl. discriminate. }
  assert (F2 : fst (force h 0 2) < 0).
  { apply (force_x_negative [0; 1; 2]%nat); trivial; [| lra].
    destruct (Hattr 0%nat) as [_ ->], (Hattr 2%nat) as [_ ->].
    simpl. discriminate. }
  rewrite Hm0. pose proof M_sun_pos as HM.
  assert (Hk : 0 < 24 * 3600 / (99 / 10 * Euler.M_sun)).
  { apply Rdiv_lt_0_compat; lra. }
  nra.
Qed.

Lemma finite_vel_x L h l :
  bodies_euler h L -> In l L ->
  Euler.e0 (Euler.velocity (h l)) = fin (vel_x h l).
Proof.
  intros Hb Hl. destruct (Hb l Hl) as (_ & ([vx Evx] & _) & _).
  unfold vel_x. now rewrite Evx.
Qed.

(** In the first cycle of nbody.py started with no option, the velocity
    of the first particle along the first axis ends below the value that
    one call of [gravitation] gives it: the later calls of the same cycle
    pull it again. *)
Lemma first_cycle_pulls_again :
  exists u w,
    Euler.e0 (Euler.velocity
                (Euler.gravitation [0; 1; 2]%nat (fin (24 * 3600)) launch 0%nat))
    = fin u
    /\ Euler.e0 (Euler.velocity
                   (Euler.cycle [0; 1; 2]%nat (fin (24 * 3600)) launch 0%nat))
       = fin w
    /\ w < u.
Proof.
  set (L := [0; 1; 2]%nat). set (dt := fin (24 * 3600)).
  set (g1 := Euler.gravitation L dt launch).
  set (m1 := Euler.update_position dt g1 0).
  set (g2 := Euler.gravitation L dt m1).
  set (m2 := Euler.update_position dt g2 1).
  set (g3 := Euler.gravitation L dt m2).
  set (m3 := Euler.update_position dt g3 2).
  assert (Hcycle : Euler.cycle L dt launch = m3) by reflexivity.
  assert (N1 : near_launch g1 (0 + 2000) 0).
  { apply near_launch_gravitation; [apply near_launch_start | lra]. }
  assert (N2 : near_launch m1 (0 + 2000) (0 + (0 + 2000) * (24 * 3600))).
  { apply near_launch_moved; [exact N1 | lra | simpl; auto]. }
  assert (N3 : near_launch g2 (0 + 2000 + 2000)
                 (0 + (0 + 2000) * (24 * 3600))).
  { apply near_launch_gravitation; [exact N2 | lra]. }
  assert (N4 : near_launch m2 (0 + 2000 + 2000)
                 (0 + (0 + 2000) * (24 * 3600)
                  + (0 + 2000 + 2000) * (24 * 3600))).
  { apply near_launch_moved; [exact N3 | lra | simpl; auto]. }
  assert (N5 : near_launch g3 (0 + 2000 + 2000 + 2000)
                 (0 + (0 + 2000) * (24 * 3600)
                  + (0 + 2000 + 2000) * (24 * 3600))).
  { apply near_launch_gravitation; [exact N4 | lra]. }
  assert (N6 : near_launch m3 (0 + 2000 + 2000 + 2000)
                 (0 + (0 + 2000) * (24 * 3600)
                  + (0 + 2000 + 2000) * (24 * 3600)
                  + (0 + 2000 + 2000 + 2000) * (24 * 3600))).
  { apply near_launch_moved; [exact N5 | lra | simpl; auto]. }
  assert (P2 : vel_x g2 0 < vel_x m1 0).
  { eapply near_launch_pull; [exact N2 | lra]. }
  assert (P3 : vel_x g3 0 < vel_x m2 0).
  { eapply near_launch_pull; [exact N4 | lra]. }
  unfold m1 in P2. rewrite update_position_vel_x in P2.
  unfold m2 in P3. rewrite update_position_vel_x in P3.
  exists (vel_x g1 0), (vel_x m3 0).
  split; [| split].
  - apply (finite_vel_x L); [apply N1 | simpl; auto].
  - rewrite Hcycle. apply (finite_vel_x L); [apply N6 | simpl; auto].
  - unfold m3. rewrite update_position_vel_x. lra.
Qed.

(** C3 (the code departs from the claim). The main loop calls
    [gravitation], which updates the velocity of every particle, once for
    each particle of the list, so in one cycle a velocity is updated as
    many times as there are particles.

    As the program is started with no option: the first cycle leaves the
    first particle with a velocity along the first axis strictly below
    the one that a single call of [gravitation] gives.

    With exact numbers, for two stars of one solar mass at rest, 10^10
    metres apart, and a time step of one second: one call of
    [gravitation] gives each star the velocity 1.334 m/s towards the
    other, the single update the claim describes; one cycle leaves the
    first star with the velocity 1.334 + a', a' the pull at the distance
    10^10 - 1.334, and at the height 1.334, where it was moved between
    the two calls, and not at the new velocity times the time step. *)
Theorem cycle_pulls_twice :
  (Euler.main no_option 1
   = Returns (Euler.cycle [0; 1; 2]%nat (fin (24 * 3600)) launch)
   /\ exists u w,
       Euler.e0 (Euler.velocity
                   (Euler.gravitation [0; 1; 2]%nat (fin (24 * 3600)) launch 0%nat))
       = fin u
       /\ Euler.e0 (Euler.velocity
                      (Euler.cycle [0; 1; 2]%nat (fin (24 * 3600)) launch 0%nat))
          = fin w
       /\ w < u)
  /\ let a := 667 / 500 in
     let a' := pull (10000000000 - a) in
     Euler.gravitation [0; 1]%nat (fin 1) wide_column
       = column 0 a 10000000000 (- a)
     /\ Euler.cycle [0; 1]%nat (fin 1) wide_column
       = column a (a + a') (10000000000 - (a + a')) (- (a + a'))
     /\ Euler.velocity (Euler.cycle [0; 1]%nat (fin 1) wide_column 0%nat)
       = Euler.mkV2 (fin 0) (fin (a + a'))
     /\ Euler.position (Euler.cycle [0; 1]%nat (fin 1) wide_column 0%nat)
       = Euler.mkV2 (fin 0) (fin a)
     /\ a + a' <> a.
Proof.
  split.
  - split; [apply main_no_option | exact first_cycle_pulls_again].
  - intros a a'.
    split; [exact wide_column_gravitation |].
    split; [exact wide_column_cycle |].
    rewrite wide_column_cycle. fold a a'.
    split; [reflexivity |]. split; [reflexivity |].
    assert (0 < a') by (apply pull_pos; unfold a; lra).
    lra.
Qed.

(** * Further properties of the two programs *)

(** ** Distances *)

Lemma nsub_swap_sq (a b : num) :
  ((a - b) * (a - b))%num = ((b - a) * (b - a))%num.
Proof.
  destruct a as [x |], b as [y |]; simpl; try reflexivity.
  f_equal. ring.
Qed.

Lemma norm_vsub_swap (u v : RK4.V3) :
  RK4.norm (RK4.vsub u v) = RK4.norm (RK4.vsub v u).
Proof.
  unfold RK4.norm, RK4.vsub. cbn [RK4.c0 RK4.c1 RK4.c2].
  now rewrite (nsub_swap_sq (RK4.c0 u)), (nsub_swap_sq (RK4.c1 u)),
    (nsub_swap_sq (RK4.c2 u)).
Qed.

(** X1. Both distance functions are symmetric: the distance from [a] to
    [b] is the distance from [b] to [a], whatever the two positions hold
    (values that are not finite included). *)
Theorem distance_is_symmetric (h : store RK4.Particle)
  (e : store Euler.Particle) (a b : loc) :
  RK4.dist_to h a b = RK4.dist_to h b a
  /\ Euler.distance_to e a b = Euler.distance_to e b a.
Proof.
  split.
  - unfold RK4.dist_to. apply norm_vsub_swap.
  - unfold Euler.distance_to, nsqr.
    now rewrite (nsub_swap_sq (Euler.e0 (Euler.position (e b)))),
      (nsub_swap_sq (Euler.e1 (Euler.position (e b)))).
Qed.

Lemma squares_zero3 (a b c : R) :
  a * a + b * b + c * c = 0 -> a = 0 /\ b = 0 /\ c = 0.
Proof.
  intros E. pose proof (sq_nonneg a). pose proof (sq_nonneg b).
  pose proof (sq_nonneg c).
  assert (a * a = 0) by lra. assert (b * b = 0) by lra.
  assert (c * c = 0) by lra.
  repeat split; apply Rsqr_0_uniq; assumption.
Qed.

Lemma squares_zero2 (a b : R) : a * a + b * b = 0 -> a = 0 /\ b = 0.
Proof.
  intros E. destruct (squares_zero3 a b 0) as (? & ? & _); [lra | tauto].
Qed.

Lemma dist_to_zero_iff (h : store RK4.Particle) (a b : loc) :
  finite3 (RK4.pos (h a)) -> finite3 (RK4.pos (h b)) ->
  exists d, RK4.dist_to h a b = fin d /\ 0 <= d
            /\ (d = 0 <-> RK4.pos (h a) = RK4.pos (h b)).
Proof.
  unfold RK4.dist_to.
  destruct (RK4.pos (h a)) as [a0 a1 a2], (RK4.pos (h b)) as [b0 b1 b2].
  unfold finite3, finite. cbn [RK4.c0 RK4.c1 RK4.c2].
  intros ([x ->] & [y ->] & [z ->]) ([x' ->] & [y' ->] & [z' ->]).
  unfold RK4.vsub. cbn [RK4.c0 RK4.c1 RK4.c2]. simpl nsub.
  rewrite norm_fin. eexists. split; [reflexivity |]. split.
  - apply sqrt_pos.
  - split.
    + intros E. apply sqrt_eq_0 in E.
      * apply squares_zero3 in E. destruct E as (E0 & E1 & E2).
        unfold fin. repeat f_equal; lra.
      * pose proof (sq_nonneg (x - x')). pose proof (sq_nonneg (y - y')).
        pose proof (sq_nonneg (z - z')). lra.
    + intros E. injection E as -> -> ->.
      replace ((x' - x') * (x' - x') + (y' - y') * (y' - y')
               + (z' - z') * (z' - z')) with 0 by ring.
      apply sqrt_0.
Qed.

Lemma distance_to_zero_iff (e : store Euler.Particle) (a b : loc) :
  finite2 (Euler.position (e a)) -> finite2 (Euler.position (e b)) ->
  exists d, Euler.distance_to e a b = fin d /\ 0 <= d
            /\ (d = 0 <-> Euler.position (e a) = Euler.position (e b)).
Proof.
  unfold Euler.distance_to.
  destruct (Euler.position (e a)) as [a0 a1],
    (Euler.position (e b)) as [b0 b1].
  unfold finite2, finite. cbn [Euler.e0 Euler.e1].
  intros ([x ->] & [y ->]) ([x' ->] & [y' ->]).
  unfold nsqr. simpl nsub. rewrite !nmul_fin.
  simpl nadd.
  pose proof (sq_nonneg (x' - x)). pose proof (sq_nonneg (y' - y)).
  rewrite nsqrt_fin by lra.
  eexists. split; [reflexivity |]. split.
  - apply sqrt_pos.
  - split.
    + intros E. apply sqrt_eq_0 in E; [| lra].
      apply squares_zero2 in E. destruct E as (E0 & E1).
      unfold fin. repeat f_equal; lra.
    + intros E. injection E as -> ->.
      replace ((x' - x') * (x' - x') + (y' - y') * (y' - y')) with 0 by ring.
      apply sqrt_0.
Qed.

(** X2. Between two particles whose positions are finite the distance is
    a finite real, not negative, and it is zero exactly when the two
    positions are equal (in both programs). *)
Theorem distance_is_zero_only_at_the_same_place (h : store RK4.Particle)
  (e : store Euler.Particle) (a b : loc) :
  finite3 (RK4.pos (h a)) -> finite3 (RK4.pos (h b)) ->
  finite2 (Euler.position (e a)) -> finite2 (Euler.position (e b)) ->
  (exists d, RK4.dist_to h a b = fin d /\ 0 <= d
             /\ (d = 0 <-> RK4.pos (h a) = RK4.pos (h b)))
  /\ (exists d, Euler.distance_to e a b = fin d /\ 0 <= d
                /\ (d = 0 <-> Euler.position (e a) = Euler.position (e b))).
Proof.
  intros Ha Hb Ea Eb. split.
  - now apply dist_to_zero_iff.
  - now apply distance_to_zero_iff.
Qed.

Lemma distance_is_zero_only_at_the_same_place_witness :
  (exists d, RK4.dist_to unit_axis 0%nat 1%nat = fin d /\ 0 <= d
             /\ (d = 0 <-> RK4.pos (unit_axis 0%nat)
                           = RK4.pos (unit_axis 1%nat)))
  /\ (exists d, Euler.distance_to wide_column 0%nat 1%nat = fin d /\ 0 <= d
                /\ (d = 0 <-> Euler.position (wide_column 0%nat)
                              = Euler.position (wide_column 1%nat))).
Proof.
  apply (distance_is_zero_only_at_the_same_place unit_axis wide_column
           0%nat 1%nat).
  - repeat split; eexists; reflexivity.
  - repeat split; eexists; reflexivity.
  - repeat split; eexists; reflexivity.
  - repeat split; eexists; reflexivity.
Defined.

(** ** The list of particles given to [acceleration] *)

Lemma nadd_swap (a x y : num) : (a + x + y)%num = (a + y + x)%num.
Proof.
  destruct a, x, y; simpl; try reflexivity. f_equal. ring.
Qed.

Lemma vadd_swap (a x y : RK4.V3) :
  RK4.vadd (RK4.vadd a x) y = RK4.vadd (RK4.vadd a y) x.
Proof.
  unfold RK4.vadd. cbn [RK4.c0 RK4.c1 RK4.c2].
  now rewrite (nadd_swap (RK4.c0 a)), (nadd_swap (RK4.c1 a)),
    (nadd_swap (RK4.c2 a)).
Qed.

Lemma acceleration_body_swap XG h self q a p1 p2 :
  RK4.acceleration_body XG h self q (RK4.acceleration_body XG h self q a p1) p2
  = RK4.acceleration_body XG h self q
      (RK4.acceleration_body XG h self q a p2) p1.
Proof.
  unfold RK4.acceleration_body.
  destruct (Nat.eqb p1 self), (Nat.eqb p2 self); try reflexivity.
  apply vadd_swap.
Qed.

Lemma fold_left_swap {A B : Type} (f : A -> B -> A) :
  (forall a x y, f (f a x) y = f (f a y) x) ->
  forall L L', Permutation L L' ->
  forall a, fold_left f L a = fold_left f L' a.
Proof.
  intros C L L' P.
  induction P as [| x L L' P IH | x y L | L L' L'' P1 IH1 P2 IH2];
    intros a; simpl.
  - reflexivity.
  - apply IH.
  - now rewrite C.
  - now rewrite IH1.
Qed.

(** X3. The acceleration of a body does not depend on the order in which
    the particles are listed: two lists that are permutations of each
    other give the same acceleration at every candidate position. *)
Theorem acceleration_ignores_list_order (XG : R) (h : store RK4.Particle)
  (self : loc) (q : RK4.V3) (L L' : list loc) :
  Permutation L L' ->
  RK4.acceleration XG h self q L = RK4.acceleration XG h self q L'.
Proof.
  intros P. unfold RK4.acceleration.
  apply fold_left_swap; [| exact P].
  intros a x y. apply acceleration_body_swap.
Qed.

Lemma acceleration_from XG h self q L :
  forall a,
    fold_left (RK4.acceleration_body XG h self q) L a
    = fold_left (RK4.acceleration_body XG h self q)
        (filter (fun p => negb (Nat.eqb p self)) L) a.
Proof.
  induction L as [| p L IH]; intros a; simpl; [reflexivity |].
  unfold RK4.acceleration_body at 2.
  destruct (Nat.eqb p self) eqn:E; simpl.
  - apply IH.
  - rewrite IH. unfold RK4.acceleration_body at 3. now rewrite E.
Qed.

Lemma acceleration_of_self_only XG h self q (n : nat) :
  forall a, fold_left (RK4.acceleration_body XG h self q) (repeat self n) a = a.
Proof.
  induction n as [| n IH]; intros a; simpl; [reflexivity |].
  unfold RK4.acceleration_body at 2. rewrite Nat.eqb_refl. apply IH.
Qed.

(** X4. A body never pulls on itself, however often it is listed: the
    acceleration over a list is the acceleration over the list with every
    entry that is the body itself removed, and over a list that holds the
    body alone, any number of times, it is zero. *)
Theorem acceleration_skips_self (XG : R) (h : store RK4.Particle)
  (self : loc) (q : RK4.V3) (L : list loc) (n : nat) :
  RK4.acceleration XG h self q L
  = RK4.acceleration XG h self q (filter (fun p => negb (Nat.eqb p self)) L)
  /\ RK4.acceleration XG h self q (repeat self n) = RK4.zeros3.
Proof.
  split.
  - apply acceleration_from.
  - apply acceleration_of_self_only.
Qed.

(** ** Two bodies at the same place *)

Lemma ndiv_none (a : num) : (a / None)%num = None.
Proof. now destruct a. Qed.

Lemma nmul_none (a : num) : (a * None)%num = None.
Proof. now destruct a. Qed.

Lemma nadd_none (a : num) : (a + None)%num = None.
Proof. now destruct a. Qed.

Lemma vadd_nowhere (a : RK4.V3) : RK4.vadd a nowhere = nowhere.
Proof.
  unfold RK4.vadd, nowhere. cbn [RK4.c0 RK4.c1 RK4.c2].
  now rewrite !nadd_none.
Qed.

Lemma nowhere_vadd (a : RK4.V3) : RK4.vadd nowhere a = nowhere.
Proof. reflexivity. Qed.

Lemma smul_nowhere (k : num) : RK4.smul k nowhere = nowhere.
Proof.
  unfold RK4.smul, RK4.vmap, nowhere. cbn [RK4.c0 RK4.c1 RK4.c2].
  now rewrite !nmul_none.
Qed.

Lemma none_smul (v : RK4.V3) : RK4.smul None v = nowhere.
Proof. reflexivity. Qed.

(** The square of the distance of a place from itself is zero, or not a
    finite real: a float divided by it is not a finite real. *)
Lemma over_no_distance (a : num) (u : RK4.V3) :
  (a / nsqr (RK4.norm (RK4.vsub u u)))%num = None.
Proof.
  destruct u as [[x |] [y |] [z |]]; unfold RK4.vsub;
    cbn [RK4.c0 RK4.c1 RK4.c2]; simpl nsub;
    try (unfold RK4.norm; cbn [RK4.c0 RK4.c1 RK4.c2]; simpl;
         now destruct a).
  rewrite norm_fin.
  replace ((x - x) * (x - x) + (y - y) * (y - y) + (z - z) * (z - z))
    with 0 by ring.
  rewrite sqrt_0. unfold nsqr. rewrite nmul_fin, Rmult_0_l.
  apply ndiv_zero.
Qed.

Lemma acceleration_body_coincident XG h self q a p1 :
  p1 <> self -> RK4.pos (h p1) = RK4.pos (h self) ->
  RK4.acceleration_body XG h self q a p1 = nowhere.
Proof.
  intros N E. unfold RK4.acceleration_body.
  apply Nat.eqb_neq in N. rewrite N.
  unfold RK4.dist_to. rewrite E, over_no_distance.
  change (None / RK4.mas (h self))%num with (@None R).
  rewrite none_smul. apply vadd_nowhere.
Qed.

Lemma acceleration_body_nowhere XG h self q p1 :
  RK4.acceleration_body XG h self q nowhere p1 = nowhere.
Proof.
  unfold RK4.acceleration_body. now destruct (Nat.eqb p1 self).
Qed.

Lemma acceleration_from_nowhere XG h self q L :
  fold_left (RK4.acceleration_body XG h self q) L nowhere = nowhere.
Proof.
  induction L as [| p L IH]; simpl; [reflexivity |].
  now rewrite acceleration_body_nowhere.
Qed.

Lemma acceleration_coincident XG h self o q L :
  In o L -> o <> self -> RK4.pos (h o) = RK4.pos (h self) ->
  RK4.acceleration XG h self q L = nowhere.
Proof.
  intros Hin N E. unfold RK4.acceleration. generalize RK4.zeros3.
  induction L as [| p L IH]; intros a; simpl; [destruct Hin |].
  destruct Hin as [-> | Hin].
  - rewrite acceleration_body_coincident by assumption.
    apply acceleration_from_nowhere.
  - now apply IH.
Qed.

Lemma rk4_coincident XG h self o L dt :
  In o L -> o <> self -> RK4.pos (h o) = RK4.pos (h self) ->
  RK4.rk4 XG h self L dt = (nowhere, nowhere).
Proof.
  intros Hin N E.
  assert (A : forall q, RK4.acceleration XG h self q L = nowhere)
    by (intros q; now apply (acceleration_coincident XG h self o)).
  unfold RK4.rk4, RK4.rk4_locals. cbn [RK4.new_pos RK4.new_vel].
  rewrite !A.
  repeat first [rewrite smul_nowhere | rewrite vadd_nowhere
                | rewrite nowhere_vadd].
  reflexivity.
Qed.

(** X5. When another body of the list is at the very place where the
    body itself is stored, no component of the acceleration of the body
    is a finite real, at any candidate position; and [rk4] then returns a
    position and a velocity without one finite component, whatever the
    time step (zero included). *)
Theorem coincident_bodies_give_no_finite_state (XG : R)
  (h : store RK4.Particle) (self o : loc) (L : list loc) (dt : num) :
  In o L -> o <> self -> RK4.pos (h o) = RK4.pos (h self) ->
  (forall q, RK4.acceleration XG h self q L = nowhere)
  /\ RK4.rk4 XG h self L dt = (nowhere, nowhere).
Proof.
  intros Hin N E. split.
  - intros q. now apply (acceleration_coincident XG h self o).
  - now apply (rk4_coincident XG h self o).
Qed.

Lemma coincident_bodies_give_no_finite_state_witness :
  In 1%nat [0; 1]%nat /\ 1%nat <> 0%nat
  /\ RK4.pos (store2 origin_body origin_body origin_body 1%nat)
     = RK4.pos (store2 origin_body origin_body origin_body 0%nat)
  /\ RK4.rk4 C.XG (store2 origin_body origin_body origin_body) 0%nat
       [0; 1]%nat (fin 0) = (nowhere, nowhere).
Proof.
  assert (H1 : In 1%nat [0; 1]%nat) by (right; now left).
  assert (H2 : 1%nat <> 0%nat) by discriminate.
  split; [exact H1 |]. split; [exact H2 |]. split; [reflexivity |].
  exact (proj2 (coincident_bodies_give_no_finite_state C.XG
                  (store2 origin_body origin_body origin_body) 0%nat 1%nat
                  [0; 1]%nat (fin 0) H1 H2 eq_refl)).
Defined.

Lemma gravitation_keeps_refl h : gravitation_keeps h h.
Proof. split; [now split | auto]. Qed.

Lemma gravitation_keeps_trans h1 h2 h3 :
  gravitation_keeps h1 h2 -> gravitation_keeps h2 h3 ->
  gravitation_keeps h1 h3.
Proof.
  intros [P12 V12] [P23 V23]. split.
  - intros l. destruct (P12 l) as [<- <-]. apply P23.
  - intros l E. apply V23, V12, E.
Qed.

Lemma gravitation_body_keeps dt p1 h p2 :
  gravitation_keeps h (Euler.gravitation_body dt p1 h p2).
Proof.
  unfold Euler.gravitation_body.
  destruct (Z.eqb (Euler.index (h p1)) (Euler.index (h p2)));
    [apply gravitation_keeps_refl |].
  split; intros l; unfold upd; destruct (Nat.eqb l p1) eqn:E;
    try (apply Nat.eqb_eq in E; subst l); cbn; auto.
  intros ->. reflexivity.
Qed.

Lemma inner_loop_keeps dt p1 L h :
  gravitation_keeps h (for_each L (Euler.gravitation_body dt p1) h).
Proof.
  apply (for_each_rel gravitation_keeps gravitation_keeps_refl
           gravitation_keeps_trans).
  intros h' p2. apply gravitation_body_keeps.
Qed.

Lemma outer_loop_keeps dt L L1 h :
  gravitation_keeps h
    (for_each L1 (fun h p1 => for_each L (Euler.gravitation_body dt p1) h) h).
Proof.
  apply (for_each_rel gravitation_keeps gravitation_keeps_refl
           gravitation_keeps_trans).
  intros h' p1. apply inner_loop_keeps.
Qed.

Lemma over_no_distance2 (a : num) (h : store Euler.Particle) (p1 p2 : loc) :
  Euler.position (h p2) = Euler.position (h p1) ->
  (a / nsqr (Euler.distance_to h p1 p2))%num = None.
Proof.
  intros E. unfold Euler.distance_to. rewrite E.
  destruct (Euler.position (h p1)) as [[x |] [y |]];
    cbn [Euler.e0 Euler.e1]; unfold nsqr; simpl nsub; simpl nmul;
    simpl nadd; try (simpl; now destruct a).
  change (Some ((x - x) * (x - x) + (y - y) * (y - y)))
    with (fin ((x - x) * (x - x) + (y - y) * (y - y))).
  replace ((x - x) * (x - x) + (y - y) * (y - y)) with 0 by ring.
  change (nsqrt (fin 0)) with
    (if Rlt_dec 0 0 then @None R else Some (sqrt 0)).
  destruct (Rlt_dec 0 0) as [C | _]; [lra |].
  rewrite sqrt_0. change (Some 0) with (fin 0).
  rewrite nmul_fin, Rmult_0_l.
  apply ndiv_zero.
Qed.

Lemma gravitation_body_coincident dt p1 h p2 :
  Euler.index (h p1) <> Euler.index (h p2) ->
  Euler.position (h p2) = Euler.position (h p1) ->
  Euler.velocity (Euler.gravitation_body dt p1 h p2 p1) = nowhere2.
Proof.
  intros N E. unfold Euler.gravitation_body.
  apply Z.eqb_neq in N. rewrite N.
  rewrite upd_same, over_no_distance2 by assumption.
  cbn. now rewrite !nadd_none.
Qed.

Lemma inner_loop_coincident dt p1 p2 L h :
  In p2 L ->
  Euler.index (h p1) <> Euler.index (h p2) ->
  Euler.position (h p2) = Euler.position (h p1) ->
  Euler.velocity (for_each L (Euler.gravitation_body dt p1) h p1) = nowhere2.
Proof.
  intros Hin N E.
  destruct (in_split _ _ Hin) as (pre & post & ->).
  unfold for_each. rewrite fold_left_app. simpl.
  fold (for_each pre (Euler.gravitation_body dt p1) h).
  set (h1 := for_each pre (Euler.gravitation_body dt p1) h).
  destruct (inner_loop_keeps dt p1 pre h) as [K _]. fold h1 in K.
  destruct (K p1) as [P1 I1], (K p2) as [P2 I2].
  destruct (inner_loop_keeps dt p1 post (Euler.gravitation_body dt p1 h1 p2))
    as [_ V].
  apply V. apply gravitation_body_coincident; congruence.
Qed.

Lemma gravitation_coincident dt p1 p2 L h :
  In p1 L -> In p2 L ->
  Euler.index (h p1) <> Euler.index (h p2) ->
  Euler.position (h p2) = Euler.position (h p1) ->
  Euler.velocity (Euler.gravitation L dt h p1) = nowhere2.
Proof.
  intros H1 H2 N E. unfold Euler.gravitation.
  destruct (in_split _ _ H1) as (pre & post & HL).
  rewrite HL at 1. unfold for_each at 1. rewrite fold_left_app. simpl.
  set (body := fun h p1 => for_each L (Euler.gravitation_body dt p1) h).
  fold (for_each pre body h).
  destruct (outer_loop_keeps dt L pre h) as [K _]. fold body in K.
  set (h1 := for_each pre body h) in *.
  destruct (K p1) as [P1 I1], (K p2) as [P2 I2].
  destruct (outer_loop_keeps dt L post (body h1 p1)) as [_ V].
  apply V. unfold body.
  apply (inner_loop_coincident dt p1 p2 L h1 H2); congruence.
Qed.

(** X6. In nbody.py, two particles of the list with different indices
    that are at the same place leave [gravitation] each with a velocity
    of which no component is a finite real: the force between them is a
    division by a zero distance. *)
Theorem gravitation_at_no_distance (particles : list loc) (dt : num)
  (e : store Euler.Particle) (p1 p2 : loc) :
  In p1 particles -> In p2 particles ->
  Euler.index (e p1) <> Euler.index (e p2) ->
  Euler.position (e p2) = Euler.position (e p1) ->
  Euler.velocity (Euler.gravitation particles dt e p1) = nowhere2
  /\ Euler.velocity (Euler.gravitation particles dt e p2) = nowhere2.
Proof.
  intros H1 H2 N E. split.
  - now apply (gravitation_coincident dt p1 p2).
  - apply (gravitation_coincident dt p2 p1); auto.
Qed.

Lemma gravitation_at_no_distance_witness :
  In 0%nat [0; 1]%nat /\ In 1%nat [0; 1]%nat
  /\ Euler.index (column 5 0 5 0 0%nat) <> Euler.index (column 5 0 5 0 1%nat)
  /\ Euler.position (column 5 0 5 0 1%nat)
     = Euler.position (column 5 0 5 0 0%nat)
  /\ Euler.velocity
       (Euler.gravitation [0; 1]%nat (fin 1) (column 5 0 5 0) 0%nat)
     = nowhere2.
Proof.
  assert (H0 : In 0%nat [0; 1]%nat) by now left.
  assert (H1 : In 1%nat [0; 1]%nat) by (right; now left).
  assert (N : Euler.index (column 5 0 5 0 0%nat)
              <> Euler.index (column 5 0 5 0 1%nat)) by (simpl; discriminate).
  split; [exact H0 |]. split; [exact H1 |]. split; [exact N |].
  split; [reflexivity |].
  exact (proj1 (gravitation_at_no_distance [0; 1]%nat (fin 1)
                  (column 5 0 5 0) 0%nat 1%nat H0 H1 N eq_refl)).
Defined.

(** ** Particles that share an index *)

Lemma inner_loop_same_index dt p1 L2 h :
  (forall p2, In p2 L2 -> Euler.index (h p1) = Euler.index (h p2)) ->
  for_each L2 (Euler.gravitation_body dt p1) h = h.
Proof.
  unfold for_each. induction L2 as [| p2 L2 IH]; intros S; simpl;
    [reflexivity |].
  unfold Euler.gravitation_body at 2.
  rewrite (S p2) by now left. rewrite Z.eqb_refl.
  apply IH. intros p Hp. apply S. now right.
Qed.

Lemma outer_loop_same_index dt L L1 h :
  (forall p q, In p L1 -> In q L -> Euler.index (h p) = Euler.index (h q)) ->
  for_each L1 (fun h p1 => for_each L (Euler.gravitation_body dt p1) h) h = h.
Proof.
  unfold for_each at 1. induction L1 as [| p1 L1 IH]; intros S; simpl;
    [reflexivity |].
  rewrite inner_loop_same_index
    by (intros p2 Hp; apply S; [now left | exact Hp]).
  apply IH. intros p q Hp Hq. apply S; [now right | exact Hq].
Qed.

(** X7. In nbody.py a particle is told from another by its [index]
    alone: when all the particles of the list carry the same index,
    [gravitation] changes nothing, wherever they are and however heavy. *)
Theorem gravitation_needs_distinct_indices (particles : list loc) (dt : num)
  (e : store Euler.Particle) :
  (forall p q, In p particles -> In q particles ->
     Euler.index (e p) = Euler.index (e q)) ->
  Euler.gravitation particles dt e = e.
Proof.
  intros S. unfold Euler.gravitation. now apply outer_loop_same_index.
Qed.

Lemma gravitation_needs_distinct_indices_witness :
  (forall p q, In p [0; 1]%nat -> In q [0; 1]%nat ->
     Euler.index (store2 (star 0 0 7) (star 5 0 7) (star 0 0 7) p)
     = Euler.index (store2 (star 0 0 7) (star 5 0 7) (star 0 0 7) q))
  /\ Euler.gravitation [0; 1]%nat (fin 1)
       (store2 (star 0 0 7) (star 5 0 7) (star 0 0 7))
     = store2 (star 0 0 7) (star 5 0 7) (star 0 0 7).
Proof.
  assert (S : forall p q, In p [0; 1]%nat -> In q [0; 1]%nat ->
     Euler.index (store2 (star 0 0 7) (star 5 0 7) (star 0 0 7) p)
     = Euler.index (store2 (star 0 0 7) (star 5 0 7) (star 0 0 7) q)).
  { intros p q _ _. destruct p as [| [| p]], q as [| [| q]]; reflexivity. }
  split; [exact S |].
  exact (gravitation_needs_distinct_indices [0; 1]%nat (fin 1)
           (store2 (star 0 0 7) (star 5 0 7) (star 0 0 7)) S).
Defined.

(** ** What a step does not touch *)


Lemma rk4_run_elsewhere XG dt L l n :
  ~ In l L -> forall h, RK4.run XG h L dt n l = h l.
Proof.
  intros HL. induction n as [| n IH]; intros h; simpl; [reflexivity |].
  rewrite IH. unfold RK4.update_particles. now apply updates_elsewhere.
Qed.

Lemma update_position_velocity dt h self l :
  Euler.velocity (Euler.update_position dt h self l) = Euler.velocity (h l).
Proof.
  unfold Euler.update_position, upd.
  destruct (Nat.eqb l self) eqn:E; [| reflexivity].
  apply Nat.eqb_eq in E. now subst l.
Qed.

(** X9. The two halves of the Euler step are separate: [gravitation]
    changes no position, of any particle, and [update_position] changes
    no velocity. *)
Theorem gravitation_and_move_are_separate (particles : list loc) (dt : num)
  (e : store Euler.Particle) (self l : loc) :
  Euler.position (Euler.gravitation particles dt e l) = Euler.position (e l)
  /\ Euler.velocity (Euler.update_position dt e self l) = Euler.velocity (e l).
Proof.
  split.
  - unfold Euler.gravitation.
    destruct (outer_loop_keeps dt particles particles e) as [K _].
    apply K.
  - apply update_position_velocity.
Qed.

(** ** A body alone *)

Lemma rk4_alone XG h b (x y z u v w dt : R) :
  RK4.pos (h b) = RK4.mkV3 (fin x) (fin y) (fin z) ->
  RK4.vel (h b) = RK4.mkV3 (fin u) (fin v) (fin w) ->
  RK4.rk4 XG h b [b] (fin dt)
  = (RK4.mkV3 (fin (x + dt * u)) (fin (y + dt * v)) (fin (z + dt * w)),
     RK4.mkV3 (fin u) (fin v) (fin w)).
Proof.
  intros Hp Hv.
  unfold RK4.rk4, RK4.rk4_locals. cbn [RK4.new_pos RK4.new_vel].
  rewrite !acceleration_alone, Hp, Hv, sixth.
  rewrite ndiv_fin by lra. unfold RK4.zeros3.
  rewrite !nmul_fin.
  repeat first [rewrite smul_fin | rewrite vadd_fin].
  f_equal; unfold fin; f_equal; f_equal; field.
Qed.

Lemma rk4_run_alone XG b (u v w dt : R) (n : nat) :
  forall h (x y z : R),
    RK4.pos (h b) = RK4.mkV3 (fin x) (fin y) (fin z) ->
    RK4.vel (h b) = RK4.mkV3 (fin u) (fin v) (fin w) ->
    RK4.pos (RK4.run XG h [b] (fin dt) n b)
    = RK4.mkV3 (fin (x + INR n * dt * u)) (fin (y + INR n * dt * v))
        (fin (z + INR n * dt * w)).
Proof.
  induction n as [| n IH]; intros h x y z Hp Hv.
  - simpl. rewrite Hp. unfold fin. f_equal; f_equal; ring.
  - cbn [RK4.run].
    assert (S1 : RK4.update_particles XG h [b] (fin dt) b
                 = RK4.mkParticle
                     (RK4.mkV3 (fin (x + dt * u)) (fin (y + dt * v))
                        (fin (z + dt * w)))
                     (RK4.mkV3 (fin u) (fin v) (fin w))
                     (RK4.mas (h b)) (RK4.rad (h b)) (RK4.col (h b))).
    { unfold RK4.update_particles, for_each. simpl.
      unfold RK4.update_particle.
      rewrite (rk4_alone XG h b x y z u v w dt Hp Hv). apply upd_same. }
    rewrite (IH _ (x + dt * u) (y + dt * v) (z + dt * w));
      [| now rewrite S1 | now rewrite S1].
    rewrite S_INR. unfold fin. f_equal; f_equal; ring.
Qed.

(** X10. A body alone in the list of the Runge-Kutta script moves in a
    straight line at constant speed: from a finite position and velocity,
    after [n] steps of length [dt] the position is the first position
    plus [n * dt] times the velocity, whatever the mass. *)
Theorem lone_body_moves_uniformly (XG : R) (h : store RK4.Particle) (b : loc)
  (x y z u v w dt : R) (n : nat) :
  RK4.pos (h b) = RK4.mkV3 (fin x) (fin y) (fin z) ->
  RK4.vel (h b) = RK4.mkV3 (fin u) (fin v) (fin w) ->
  RK4.pos (RK4.run XG h [b] (fin dt) n b)
  = RK4.mkV3 (fin (x + INR n * dt * u)) (fin (y + INR n * dt * v))
      (fin (z + INR n * dt * w)).
Proof. intros Hp Hv. now apply rk4_run_alone. Qed.

Lemma lone_body_moves_uniformly_witness :
  RK4.pos (RK4.run C.XG (store2 (ball 3 2 1) (ball 0 0 1) (ball 0 0 1))
             [0%nat] (fin 5) 4 0%nat)
  = RK4.mkV3 (fin (3 + INR 4 * 5 * 2)) (fin (0 + INR 4 * 5 * 0))
      (fin (0 + INR 4 * 5 * 0)).
Proof.
  exact (lone_body_moves_uniformly C.XG
           (store2 (ball 3 2 1) (ball 0 0 1) (ball 0 0 1)) 0%nat
           3 0 0 2 0 0 5 4 eq_refl eq_refl).
Defined.

Lemma euler_run_alone p (u v dt : R) (n : nat) :
  forall e (x y : R),
    Euler.position (e p) = Euler.mkV2 (fin x) (fin y) ->
    Euler.velocity (e p) = Euler.mkV2 (fin u) (fin v) ->
    Euler.position (Euler.run [p] (fin dt) n e p)
    = Euler.mkV2 (fin (x + INR n * dt * u)) (fin (y + INR n * dt * v)).
Proof.
  induction n as [| n IH]; intros e x y Hp Hv.
  - simpl. rewrite Hp. unfold fin. f_equal; f_equal; ring.
  - cbn [Euler.run].
    assert (S1 : Euler.cycle [p] (fin dt) e p
                 = Euler.set_position (e p)
                     (Euler.mkV2 (fin (x + u * dt)) (fin (y + v * dt)))).
    { unfold Euler.cycle, for_each. simpl. rewrite gravitation_alone.
      unfold Euler.update_position. rewrite upd_same, Hp, Hv. reflexivity. }
    rewrite (IH _ (x + u * dt) (y + v * dt));
      [| now rewrite S1 | now rewrite S1].
    rewrite S_INR. unfold fin. f_equal; f_equal; ring.
Qed.

(** X11. A particle alone in the list of nbody.py moves in a straight
    line at constant speed: after [n] cycles of length [dt] its position
    is the first position plus [n * dt] times the velocity. *)
Theorem lone_particle_moves_uniformly (e : store Euler.Particle) (p : loc)
  (x y u v dt : R) (n : nat) :
  Euler.position (e p) = Euler.mkV2 (fin x) (fin y) ->
  Euler.velocity (e p) = Euler.mkV2 (fin u) (fin v) ->
  Euler.position (Euler.run [p] (fin dt) n e p)
  = Euler.mkV2 (fin (x + INR n * dt * u)) (fin (y + INR n * dt * v)).
Proof. intros Hp Hv. now apply euler_run_alone. Qed.

Lemma lone_particle_moves_uniformly_witness :
  Euler.position (Euler.run [0%nat] (fin 5) 4 (column 3 2 9 0) 0%nat)
  = Euler.mkV2 (fin (0 + INR 4 * 5 * 0)) (fin (3 + INR 4 * 5 * 2)).
Proof.
  exact (lone_particle_moves_uniformly (column 3 2 9 0) 0%nat
           0 3 0 2 5 4 eq_refl eq_refl).
Defined.

(** ** Moving the whole system *)

Lemma nsub_shift (x y : num) (t : R) :
  ((x + fin t) - (y + fin t))%num = (x - y)%num.
Proof.
  destruct x, y; simpl; try reflexivity. f_equal. ring.
Qed.

Lemma vsub_shift (u v : RK4.V3) (a b c : R) :
  RK4.vsub (RK4.vadd u (RK4.mkV3 (fin a) (fin b) (fin c)))
    (RK4.vadd v (RK4.mkV3 (fin a) (fin b) (fin c)))
  = RK4.vsub u v.
Proof.
  unfold RK4.vsub, RK4.vadd. cbn [RK4.c0 RK4.c1 RK4.c2].
  now rewrite !nsub_shift.
Qed.

Lemma for_each_commute {A B : Type} (T : store A -> store A)
  (body : store A -> B -> store A) (xs : list B) :
  (forall h x, body (T h) x = T (body h x)) ->
  forall h, for_each xs body (T h) = T (for_each xs body h).
Proof.
  intros C. unfold for_each.
  induction xs as [| x xs IH]; intros h; simpl; [reflexivity |].
  now rewrite C, IH.
Qed.

Lemma acceleration_body_moved XG a b c h self q acc p1 :
  RK4.acceleration_body XG (moved a b c h) self
    (RK4.vadd q (RK4.mkV3 (fin a) (fin b) (fin c))) acc p1
  = RK4.acceleration_body XG h self q acc p1.
Proof.
  unfold RK4.acceleration_body, RK4.dist_to, moved.
  cbn [RK4.pos RK4.mas]. now rewrite !vsub_shift.
Qed.

Lemma acceleration_moved XG a b c h self q L :
  RK4.acceleration XG (moved a b c h) self
    (RK4.vadd q (RK4.mkV3 (fin a) (fin b) (fin c))) L
  = RK4.acceleration XG h self q L.
Proof.
  unfold RK4.acceleration. generalize RK4.zeros3.
  induction L as [| p L IH]; intros acc; simpl; [reflexivity |].
  now rewrite acceleration_body_moved, IH.
Qed.

Lemma rk4_moved XG a b c h p L dt :
  RK4.rk4 XG (moved a b c h) p L dt
  = (RK4.vadd (fst (RK4.rk4 XG h p L dt)) (RK4.mkV3 (fin a) (fin b) (fin c)),
     snd (RK4.rk4 XG h p L dt)).
Proof.
  unfold RK4.rk4, RK4.rk4_locals. cbn [RK4.new_pos RK4.new_vel fst snd].
  change (RK4.pos (moved a b c h p))
    with (RK4.vadd (RK4.pos (h p)) (RK4.mkV3 (fin a) (fin b) (fin c))).
  change (RK4.vel (moved a b c h p)) with (RK4.vel (h p)).
  rewrite !(vadd_swap (RK4.pos (h p)) (RK4.mkV3 (fin a) (fin b) (fin c))).
  rewrite !acceleration_moved. reflexivity.
Qed.

Lemma update_particle_moved XG a b c L dt h p :
  RK4.update_particle XG L dt (moved a b c h) p
  = moved a b c (RK4.update_particle XG L dt h p).
Proof.
  unfold RK4.update_particle. rewrite rk4_moved.
  destruct (RK4.rk4 XG h p L dt) as [np nv]. cbn [fst snd].
  apply functional_extensionality. intros l.
  unfold moved, upd.
  destruct (Nat.eqb l p); reflexivity.
Qed.

Lemma update_particles_moved XG a b c L dt h :
  RK4.update_particles XG (moved a b c h) L dt
  = moved a b c (RK4.update_particles XG h L dt).
Proof.
  unfold RK4.update_particles. apply for_each_commute.
  intros h' p. apply update_particle_moved.
Qed.

(** X12. The Runge-Kutta run does not depend on where the system is:
    when every particle starts displaced by the same vector, the run
    gives, after any number of steps, the same velocities and the same
    positions displaced by that vector. *)
Theorem rk4_run_commutes_with_displacement (XG : R) (h : store RK4.Particle)
  (Plist : list loc) (dt : num) (n : nat) (a b c : R) :
  RK4.run XG (moved a b c h) Plist dt n
  = moved a b c (RK4.run XG h Plist dt n).
Proof.
  revert h. induction n as [| n IH]; intros h; simpl; [reflexivity |].
  now rewrite update_particles_moved, IH.
Qed.

Lemma gravitation_body_moved a b dt p1 e p2 :
  Euler.gravitation_body dt p1 (moved2 a b e) p2
  = moved2 a b (Euler.gravitation_body dt p1 e p2).
Proof.
  unfold Euler.gravitation_body, Euler.distance_to.
  change (Euler.index (moved2 a b e p1)) with (Euler.index (e p1)).
  change (Euler.index (moved2 a b e p2)) with (Euler.index (e p2)).
  destruct (Z.eqb (Euler.index (e p1)) (Euler.index (e p2)));
    [reflexivity |].
  change (Euler.mass (moved2 a b e p1)) with (Euler.mass (e p1)).
  change (Euler.mass (moved2 a b e p2)) with (Euler.mass (e p2)).
  change (Euler.velocity (moved2 a b e p1)) with (Euler.velocity (e p1)).
  change (Euler.position (moved2 a b e p1))
    with (Euler.mkV2 (Euler.e0 (Euler.position (e p1)) + fin a)
            (Euler.e1 (Euler.position (e p1)) + fin b)).
  change (Euler.position (moved2 a b e p2))
    with (Euler.mkV2 (Euler.e0 (Euler.position (e p2)) + fin a)
            (Euler.e1 (Euler.position (e p2)) + fin b)).
  cbn [Euler.e0 Euler.e1].
  rewrite !nsub_shift.
  apply functional_extensionality. intros l.
  unfold moved2, upd. destruct (Nat.eqb l p1); reflexivity.
Qed.

Lemma gravitation_moved a b L dt e :
  Euler.gravitation L dt (moved2 a b e) = moved2 a b (Euler.gravitation L dt e).
Proof.
  unfold Euler.gravitation. apply for_each_commute.
  intros h p1. apply for_each_commute.
  intros h' p2. apply gravitation_body_moved.
Qed.

Lemma update_position_moved a b dt e p :
  Euler.update_position dt (moved2 a b e) p
  = moved2 a b (Euler.update_position dt e p).
Proof.
  unfold Euler.update_position.
  apply functional_extensionality. intros l.
  unfold moved2, upd. destruct (Nat.eqb l p); [| reflexivity].
  cbn. now rewrite (nadd_swap (Euler.e0 (Euler.position (e p)))),
    (nadd_swap (Euler.e1 (Euler.position (e p)))).
Qed.

Lemma cycle_moved a b L dt e :
  Euler.cycle L dt (moved2 a b e) = moved2 a b (Euler.cycle L dt e).
Proof.
  unfold Euler.cycle. apply for_each_commute.
  intros h pj. now rewrite gravitation_moved, update_position_moved.
Qed.

(** X13. The run of nbody.py does not depend on where the system is:
    when every particle starts displaced by the same vector, the run
    gives, after any number of cycles, the same velocities and the same
    positions displaced by that vector. *)
Theorem euler_run_commutes_with_displacement (particles : list loc)
  (dt : num) (n : nat) (e : store Euler.Particle) (a b : R) :
  Euler.run particles dt n (moved2 a b e)
  = moved2 a b (Euler.run particles dt n e).
Proof.
  revert e. induction n as [| n IH]; intros e; simpl; [reflexivity |].
  now rewrite cycle_moved, IH.
Qed.

(** ** The acceleration in closed form *)

Lemma acceleration_body_newton XG h L self (qx qy qz ax ay az : R) p1 :
  bodies_rk4 h L -> apart_rk4 h L -> In self L -> In p1 L ->
  RK4.acceleration_body XG h self (RK4.mkV3 (fin qx) (fin qy) (fin qz))
    (RK4.mkV3 (fin ax) (fin ay) (fin az)) p1
  = RK4.mkV3 (fin (ax + tug XG h self p1 * (px h p1 - qx)))
      (fin (ay + tug XG h self p1 * (py h p1 - qy)))
      (fin (az + tug XG h self p1 * (pz h p1 - qz))).
Proof.
  intros Hb Ha Hself Hp1. unfold RK4.acceleration_body, tug.
  destruct (Nat.eqb p1 self) eqn:E.
  - unfold fin. f_equal; f_equal; ring.
  - apply Nat.eqb_neq in E.
    destruct (Hb self Hself) as (Hps & _ & ms & Hms & Hms0).
    destruct (Hb p1 Hp1) as (Hp1s & _ & m1 & Hm1 & _).
    assert (Hne : RK4.pos (h self) <> RK4.pos (h p1)) by (apply Ha; auto).
    unfold RK4.dist_to, gap, px, py, pz. rewrite Hms, Hm1.
    destruct (RK4.pos (h self)) as [s0 s1 s2],
      (RK4.pos (h p1)) as [o0 o1 o2].
    unfold finite3, finite in Hps, Hp1s. cbn [RK4.c0 RK4.c1 RK4.c2] in *.
    destruct Hps as ([xs ->] & [ys ->] & [zs ->]).
    destruct Hp1s as ([xo ->] & [yo ->] & [zo ->]).
    unfold RK4.vsub. cbn [RK4.c0 RK4.c1 RK4.c2 real fin]. simpl nsub.
    change (Some (xs - xo)) with (fin (xs - xo)).
    change (Some (ys - yo)) with (fin (ys - yo)).
    change (Some (zs - zo)) with (fin (zs - zo)).
    rewrite norm_fin.
    set (s := (xs - xo) * (xs - xo) + (ys - yo) * (ys - yo)
              + (zs - zo) * (zs - zo)).
    assert (Hs : 0 < s).
    { pose proof (sq_nonneg (xs - xo)). pose proof (sq_nonneg (ys - yo)).
      pose proof (sq_nonneg (zs - zo)).
      destruct (Req_dec xs xo) as [-> | Nx].
      - destruct (Req_dec ys yo) as [-> | Ny].
        + destruct (Req_dec zs zo) as [-> | Nz]; [now contradiction Hne |].
          pose proof (sq_pos (zs - zo)). unfold s. lra.
        + pose proof (sq_pos (ys - yo)). unfold s. lra.
      - pose proof (sq_pos (xs - xo)). unfold s. lra. }
    pose proof (sqrt_lt_R0 s Hs) as Hd.
    set (d := sqrt s) in *.
    assert (Hdd : d * d <> 0) by nra.
    unfold RK4.sdiv, RK4.smul, RK4.vmap, RK4.vadd, nsqr.
    cbn [RK4.c0 RK4.c1 RK4.c2].
    rewrite !nmul_fin. simpl nsub.
    change (Some (xo - qx)) with (fin (xo - qx)).
    change (Some (yo - qy)) with (fin (yo - qy)).
    change (Some (zo - qz)) with (fin (zo - qz)).
    rewrite (ndiv_fin _ (d * d)) by assumption.
    rewrite (ndiv_fin _ ms) by lra.
    rewrite !(ndiv_fin _ d) by lra.
    rewrite !nmul_fin. simpl nadd. unfold fin.
    f_equal; f_equal; field; lra.
Qed.

Lemma acceleration_newton_from XG h L self (qx qy qz : R) :
  bodies_rk4 h L -> apart_rk4 h L -> In self L ->
  forall L', incl L' L ->
  forall ax ay az : R,
    fold_left
      (RK4.acceleration_body XG h self (RK4.mkV3 (fin qx) (fin qy) (fin qz)))
      L' (RK4.mkV3 (fin ax) (fin ay) (fin az))
    = RK4.mkV3
        (fin (ax + sum_over L' (fun o => tug XG h self o * (px h o - qx))))
        (fin (ay + sum_over L' (fun o => tug XG h self o * (py h o - qy))))
        (fin (az + sum_over L' (fun o => tug XG h self o * (pz h o - qz)))).
Proof.
  intros Hb Ha Hself.
  induction L' as [| p1 L' IH]; intros Hincl ax ay az; simpl.
  - unfold fin. f_equal; f_equal; ring.
  - rewrite (acceleration_body_newton XG h L) by
      (try assumption; apply Hincl; now left).
    rewrite IH by (intros x Hx; apply Hincl; now right).
    unfold fin. f_equal; f_equal; ring.
Qed.

Lemma acceleration_newton XG h L self (qx qy qz : R) :
  bodies_rk4 h L -> apart_rk4 h L -> In self L ->
  RK4.acceleration XG h self (RK4.mkV3 (fin qx) (fin qy) (fin qz)) L
  = RK4.mkV3
      (fin (sum_over L (fun o => tug XG h self o * (px h o - qx))))
      (fin (sum_over L (fun o => tug XG h self o * (py h o - qy))))
      (fin (sum_over L (fun o => tug XG h self o * (pz h o - qz)))).
Proof.
  intros Hb Ha Hself. unfold RK4.acceleration, RK4.zeros3.
  rewrite (acceleration_newton_from XG h L self qx qy qz Hb Ha Hself L
             (incl_refl L)).
  unfold fin. f_equal; f_equal; ring.
Qed.

(** X14. The acceleration in closed form. For bodies with finite
    positions and positive masses, no two at the same place, the
    acceleration of [self] at the candidate position [q] is the sum over
    the other listed bodies [o] of [G m_o / d^3 * (pos o - q)], [d] being
    the distance between the stored positions of [self] and [o]: it does
    not depend on the mass or the velocity of [self], and at the stored
    position of [self] it is Newton's law of gravitation. *)
Theorem acceleration_in_closed_form (XG : R) (h : store RK4.Particle)
  (L : list loc) (self : loc) (qx qy qz : R) :
  bodies_rk4 h L -> apart_rk4 h L -> In self L ->
  RK4.acceleration XG h self (RK4.mkV3 (fin qx) (fin qy) (fin qz)) L
  = RK4.mkV3
      (fin (sum_over L (fun o => tug XG h self o * (px h o - qx))))
      (fin (sum_over L (fun o => tug XG h self o * (py h o - qy))))
      (fin (sum_over L (fun o => tug XG h self o * (pz h o - qz)))).
Proof. apply acceleration_newton. Qed.

Lemma acceleration_in_closed_form_witness :
  bodies_rk4 unit_axis [0; 1]%nat /\ apart_rk4 unit_axis [0; 1]%nat
  /\ In 0%nat [0; 1]%nat
  /\ RK4.acceleration C.XG unit_axis 0%nat
       (RK4.mkV3 (fin 2) (fin 3) (fin 4)) [0; 1]%nat
     = RK4.mkV3
         (fin (sum_over [0; 1]%nat
                 (fun o => tug C.XG unit_axis 0%nat o * (px unit_axis o - 2))))
         (fin (sum_over [0; 1]%nat
                 (fun o => tug C.XG unit_axis 0%nat o * (py unit_axis o - 3))))
         (fin (sum_over [0; 1]%nat
                 (fun o => tug C.XG unit_axis 0%nat o * (pz unit_axis o - 4)))).
Proof.
  assert (Hb : bodies_rk4 unit_axis [0; 1]%nat)
    by (apply axis_bodies, unit_mass_pos).
  assert (Ha : apart_rk4 unit_axis [0; 1]%nat) by (apply axis_apart; lra).
  assert (H0 : In 0%nat [0; 1]%nat) by now left.
  split; [exact Hb |]. split; [exact Ha |]. split; [exact H0 |].
  exact (acceleration_in_closed_form C.XG unit_axis [0; 1]%nat 0%nat 2 3 4
           Hb Ha H0).
Defined.

(** ** Newton's third law *)

Lemma sum_over_times L (k : R) f :
  sum_over L (fun l => k * f l) = k * sum_over L f.
Proof.
  induction L as [| x L IH]; simpl; [ring |]. rewrite IH. ring.
Qed.

Lemma gap_sym h a b : gap h a b = gap h b a.
Proof. unfold gap. f_equal. ring. Qed.

Lemma tug_opposite XG h a b (u v : R) :
  real (RK4.mas (h a)) * (tug XG h a b * (u - v))
  = - (real (RK4.mas (h b)) * (tug XG h b a * (v - u))).
Proof.
  unfold tug. rewrite (Nat.eqb_sym a b), (gap_sym h b a).
  destruct (Nat.eqb b a); [ring |].
  unfold Rdiv. ring.
Qed.

Lemma own_position h L a :
  bodies_rk4 h L -> In a L ->
  RK4.pos (h a) = RK4.mkV3 (fin (px h a)) (fin (py h a)) (fin (pz h a)).
Proof.
  intros Hb Ha. destruct (Hb a Ha) as (Hp & _). unfold px, py, pz.
  destruct (RK4.pos (h a)) as [x y z].
  unfold finite3, finite in Hp. cbn [RK4.c0 RK4.c1 RK4.c2] in *.
  destruct Hp as ([x' ->] & [y' ->] & [z' ->]). reflexivity.
Qed.

Lemma forces_cancel_along XG h L (p : store RK4.Particle -> loc -> R) :
  sum_over L
    (fun a =>
       real (RK4.mas (h a))
       * sum_over L (fun o => tug XG h a o * (p h o - p h a))) = 0.
Proof.
  rewrite (sum_over_ext L _
             (fun a => sum_over L
                         (fun o => real (RK4.mas (h a))
                                   * (tug XG h a o * (p h o - p h a))))).
  - apply sum_over_pairs. intros a b _ _. apply tug_opposite.
  - intros a _. symmetry. apply sum_over_times.
Qed.

(** X15. Newton's third law at the first stage of the Runge-Kutta step.
    For bodies with finite positions and positive masses, no two at the
    same place, the accelerations taken at the stored positions, each
    times the mass of its body, sum to zero over the list, in each of
    the three components. *)
Theorem forces_at_stored_positions_cancel (XG : R) (h : store RK4.Particle)
  (L : list loc) :
  bodies_rk4 h L -> apart_rk4 h L ->
  sum_over L
    (fun a => real (RK4.mas (h a))
              * real (RK4.c0 (RK4.acceleration XG h a (RK4.pos (h a)) L))) = 0
  /\ sum_over L
       (fun a => real (RK4.mas (h a))
                 * real (RK4.c1 (RK4.acceleration XG h a (RK4.pos (h a)) L)))
     = 0
  /\ sum_over L
       (fun a => real (RK4.mas (h a))
                 * real (RK4.c2 (RK4.acceleration XG h a (RK4.pos (h a)) L)))
     = 0.
Proof.
  intros Hb Ha.
  split; [| split].
  - rewrite <- (forces_cancel_along XG h L px). apply sum_over_ext.
    intros a Hin. rewrite (own_position h L a Hb Hin) at 1.
    now rewrite (acceleration_newton XG h L a _ _ _ Hb Ha Hin).
  - rewrite <- (forces_cancel_along XG h L py). apply sum_over_ext.
    intros a Hin. rewrite (own_position h L a Hb Hin) at 1.
    now rewrite (acceleration_newton XG h L a _ _ _ Hb Ha Hin).
  - rewrite <- (forces_cancel_along XG h L pz). apply sum_over_ext.
    intros a Hin. rewrite (own_position h L a Hb Hin) at 1.
    now rewrite (acceleration_newton XG h L a _ _ _ Hb Ha Hin).
Qed.

Lemma forces_at_stored_positions_cancel_witness :
  bodies_rk4 unit_axis [0; 1]%nat /\ apart_rk4 unit_axis [0; 1]%nat
  /\ sum_over [0; 1]%nat
       (fun a => real (RK4.mas (unit_axis a))
                 * real (RK4.c0 (RK4.acceleration C.XG unit_axis a
                                   (RK4.pos (unit_axis a)) [0; 1]%nat))) = 0.
Proof.
  assert (Hb : bodies_rk4 unit_axis [0; 1]%nat)
    by (apply axis_bodies, unit_mass_pos).
  assert (Ha : apart_rk4 unit_axis [0; 1]%nat) by (apply axis_apart; lra).
  split; [exact Hb |]. split; [exact Ha |].
  exact (proj1 (forces_at_stored_positions_cancel C.XG unit_axis [0; 1]%nat
                  Hb Ha)).
Defined.

(** ** The direction of the force in [gravitation] *)

Lemma sqrt_ratio (x y : R) :
  0 < x -> sqrt (1 + (y / x)²) = sqrt (x * x + y * y) / x.
Proof.
  intros Hx.
  pose proof (sq_nonneg x). pose proof (sq_nonneg y).
  pose proof (sq_pos x ltac:(lra)) as Hxx.
  assert (Hs : 0 < x * x + y * y) by lra.
  pose proof (sqrt_lt_R0 _ Hs) as Hd.
  apply sqrt_lem_1.
  - unfold Rsqr. pose proof (sq_nonneg (y / x)). lra.
  - apply Rlt_le. apply Rdiv_lt_0_compat; assumption.
  - unfold Rsqr.
    replace (sqrt (x * x + y * y) / x * (sqrt (x * x + y * y) / x))
      with (sqrt (x * x + y * y) * sqrt (x * x + y * y) / (x * x))
      by (field; lra).
    rewrite sqrt_sqrt by lra. field. lra.
Qed.

Lemma sqrt_ratio_neg (x y : R) :
  x < 0 -> sqrt (1 + (y / x)²) = sqrt (x * x + y * y) / - x.
Proof.
  intros Hx.
  replace (y / x) with (- y / - x) by (field; lra).
  rewrite sqrt_ratio by lra.
  f_equal. f_equal. ring.
Qed.

(** The sine and the cosine of the angle of a point other than the
    origin. *)
Lemma sin_cos_arctan2 (y x : R) :
  ~ (x = 0 /\ y = 0) ->
  sin (arctan2 y x) = y / sqrt (x * x + y * y)
  /\ cos (arctan2 y x) = x / sqrt (x * x + y * y).
Proof.
  intros Horigin.
  assert (Hs : 0 < x * x + y * y).
  { pose proof (sq_nonneg x). pose proof (sq_nonneg y).
    destruct (Req_dec x 0) as [-> | Nx].
    - destruct (Req_dec y 0) as [-> | Ny]; [exfalso; auto |].
      pose proof (sq_pos y Ny). lra.
    - pose proof (sq_pos x Nx). lra. }
  pose proof (sqrt_lt_R0 _ Hs) as Hd.
  unfold arctan2.
  destruct (Rlt_dec 0 x) as [Hx | Hx].
  - rewrite sin_atan, cos_atan, sqrt_ratio by assumption.
    split; field; lra.
  - destruct (Rlt_dec x 0) as [Hx' | Hx'].
    + destruct (Rle_dec 0 y) as [_ | _].
      * rewrite neg_sin, neg_cos, sin_atan, cos_atan, sqrt_ratio_neg
          by assumption.
        split; field; lra.
      * replace (atan (y / x) - PI) with (- (PI - atan (y / x))) by ring.
        rewrite sin_neg, cos_neg.
        replace (PI - atan (y / x)) with (- atan (y / x) + PI) by ring.
        rewrite neg_sin, neg_cos, sin_neg, cos_neg, sin_atan, cos_atan,
          sqrt_ratio_neg by assumption.
        split; field; lra.
    + assert (x = 0) by lra. subst x.
      replace (0 * 0 + y * y) with (y * y) in * by ring.
      destruct (Rlt_dec 0 y) as [Hy | Hy].
      * rewrite sin_PI2, cos_PI2.
        replace (sqrt (y * y)) with y by (symmetry; apply sqrt_lem_1; lra).
        split; field; lra.
      * destruct (Rlt_dec y 0) as [Hy' | Hy'].
        -- rewrite sin_neg, cos_neg, sin_PI2, cos_PI2.
           replace (sqrt (y * y)) with (- y)
             by (symmetry; apply sqrt_lem_1; lra).
           split; field; lra.
        -- exfalso. apply Horigin. split; lra.
Qed.

Lemma force_newton L h p1 p2 :
  bodies_euler h L -> apart_euler h L -> In p1 L -> In p2 L ->
  Euler.index (h p1) <> Euler.index (h p2) ->
  force h p1 p2
  = (Euler.grav_constant * mass_of h p1 * mass_of h p2
     / (gap2 h p1 p2 * gap2 h p1 p2 * gap2 h p1 p2)
     * (pos_x h p2 - pos_x h p1),
     Euler.grav_constant * mass_of h p1 * mass_of h p2
     / (gap2 h p1 p2 * gap2 h p1 p2 * gap2 h p1 p2)
     * (pos_y h p2 - pos_y h p1)).
Proof.
  intros Hb Ha H1 H2 N.
  assert (Hne : p1 <> p2) by (intros ->; now apply N).
  pose proof (Ha p1 p2 H1 H2 Hne) as Hpos.
  destruct (Hb p1 H1) as (([x1 Hx1] & [y1 Hy1]) & _).
  destruct (Hb p2 H2) as (([x2 Hx2] & [y2 Hy2]) & _).
  unfold force, gap2, pos_x, pos_y, mass_of.
  apply Z.eqb_neq in N. rewrite N.
  rewrite Hx1, Hy1, Hx2, Hy2. cbn [real fin].
  set (dX := x2 - x1). set (dY := y2 - y1).
  assert (Horigin : ~ (dY = 0 /\ dX = 0)).
  { intros [EY EX]. apply Hpos.
    rewrite <- (V2_eta (Euler.position (h p1))).
    rewrite <- (V2_eta (Euler.position (h p2))).
    rewrite Hx1, Hy1, Hx2, Hy2. unfold dX, dY in *.
    unfold fin. f_equal; f_equal; lra. }
  destruct (sin_cos_arctan2 dX dY Horigin) as [-> ->].
  replace (dY * dY + dX * dX) with (dX * dX + dY * dY) by ring.
  assert (Hs : 0 < dX * dX + dY * dY).
  { pose proof (sq_nonneg dX). pose proof (sq_nonneg dY).
    destruct (Req_dec dX 0) as [EX | NX].
    - destruct (Req_dec dY 0) as [EY | NY]; [exfalso; auto |].
      pose proof (sq_pos dY NY). lra.
    - pose proof (sq_pos dX NX). lra. }
  pose proof (sqrt_lt_R0 _ Hs) as Hd.
  set (d := sqrt (dX * dX + dY * dY)) in *.
  f_equal; field; lra.
Qed.

(** X16. The force of [gravitation] is Newton's, along the line that
    joins the two particles. For particles with finite positions and
    velocities and positive masses, no two at the same place, one
    pairing of [p1] with a particle [p2] of another index changes the
    velocity of [p1] by [G m2 dt / d^3] times the vector from [p1] to
    [p2], [d] being their distance; the mass of [p1] does not matter. *)
Theorem gravitation_pulls_along_the_line (L : list loc)
  (h : store Euler.Particle) (p1 p2 : loc) (dt : R) :
  bodies_euler h L -> apart_euler h L -> In p1 L -> In p2 L ->
  Euler.index (h p1) <> Euler.index (h p2) ->
  Euler.velocity (Euler.gravitation_body (fin dt) p1 h p2 p1)
  = Euler.mkV2
      (fin (vel_x h p1
            + Euler.grav_constant * mass_of h p2
              / (gap2 h p1 p2 * gap2 h p1 p2 * gap2 h p1 p2)
              * (pos_x h p2 - pos_x h p1) * dt))
      (fin (vel_y h p1
            + Euler.grav_constant * mass_of h p2
              / (gap2 h p1 p2 * gap2 h p1 p2 * gap2 h p1 p2)
              * (pos_y h p2 - pos_y h p1) * dt)).
Proof.
  intros Hb Ha H1 H2 N.
  rewrite (gravitation_body_real L h p1 p2 dt Hb Ha H1 H2), upd_same.
  rewrite (force_newton L h p1 p2 Hb Ha H1 H2 N).
  cbn [Euler.velocity Euler.set_velocity fst snd].
  destruct (Hb p1 H1) as (_ & _ & m1 & Hm1 & Hm1pos).
  assert (Hne : p1 <> p2) by (intros ->; now apply N).
  pose proof (Ha p1 p2 H1 H2 Hne) as Hpos.
  destruct (distance_to_zero_iff h p1 p2) as (d & Hd & Hd0 & Hiff).
  { apply (Hb p1 H1). }
  { apply (Hb p2 H2). }
  assert (Hgap : gap2 h p1 p2 = d).
  { destruct (Hb p1 H1) as (([x1 Hx1] & [y1 Hy1]) & _).
    destruct (Hb p2 H2) as (([x2 Hx2] & [y2 Hy2]) & _).
    unfold Euler.distance_to in Hd. unfold gap2, pos_x, pos_y.
    rewrite Hx1, Hy1, Hx2, Hy2 in *. cbn [real fin].
    unfold nsqr in Hd. simpl nsub in Hd. simpl nmul in Hd. simpl nadd in Hd.
    change (Some ((x2 - x1) * (x2 - x1) + (y2 - y1) * (y2 - y1)))
      with (fin ((x2 - x1) * (x2 - x1) + (y2 - y1) * (y2 - y1))) in Hd.
    rewrite nsqrt_fin in Hd.
    - now injection Hd.
    - pose proof (sq_nonneg (x2 - x1)). pose proof (sq_nonneg (y2 - y1)). lra. }
  assert (Hdpos : 0 < d).
  { destruct (Req_dec d 0) as [E | NE]; [| lra].
    exfalso. apply Hpos. now apply Hiff. }
  rewrite Hgap. unfold vel_x, vel_y, mass_of. rewrite Hm1. cbn [real fin].
  unfold fin. f_equal; f_equal; field; lra.
Qed.

Lemma gravitation_pulls_along_the_line_witness :
  bodies_euler wide_column [0; 1]%nat /\ apart_euler wide_column [0; 1]%nat
  /\ In 0%nat [0; 1]%nat /\ In 1%nat [0; 1]%nat
  /\ Euler.index (wide_column 0%nat) <> Euler.index (wide_column 1%nat)
  /\ Euler.velocity (Euler.gravitation_body (fin 1) 0 wide_column 1%nat 0%nat)
     = Euler.mkV2
         (fin (vel_x wide_column 0%nat
               + Euler.grav_constant * mass_of wide_column 1%nat
                 / (gap2 wide_column 0%nat 1%nat * gap2 wide_column 0%nat 1%nat
                    * gap2 wide_column 0%nat 1%nat)
                 * (pos_x wide_column 1%nat - pos_x wide_column 0%nat) * 1))
         (fin (vel_y wide_column 0%nat
               + Euler.grav_constant * mass_of wide_column 1%nat
                 / (gap2 wide_column 0%nat 1%nat * gap2 wide_column 0%nat 1%nat
                    * gap2 wide_column 0%nat 1%nat)
                 * (pos_y wide_column 1%nat - pos_y wide_column 0%nat) * 1)).
Proof.
  assert (Hb : bodies_euler wide_column [0; 1]%nat) by apply column_bodies.
  assert (Ha : apart_euler wide_column [0; 1]%nat)
    by (apply column_apart; lra).
  assert (H0 : In 0%nat [0; 1]%nat) by now left.
  assert (H1 : In 1%nat [0; 1]%nat) by (right; now left).
  assert (N : Euler.index (wide_column 0%nat)
              <> Euler.index (wide_column 1%nat)) by (simpl; discriminate).
  split; [exact Hb |]. split; [exact Ha |]. split; [exact H0 |].
  split; [exact H1 |]. split; [exact N |].
  exact (gravitation_pulls_along_the_line [0; 1]%nat wide_column 0%nat 1%nat 1
           Hb Ha H0 H1 N).
Defined.

(** ** Drawing the particles (the Runge-Kutta script) *)

Lemma draw_returns XRSUN SCALE p :
  drawable XRSUN SCALE p -> exists c, Display.draw XRSUN p SCALE = Returns c.
Proof.
  intros ([x Hx] & [y Hy] & [r Hr]). unfold Display.draw.
  rewrite Hx, Hy, Hr. simpl. eexists. reflexivity.
Qed.

Lemma draw_raises XRSUN SCALE p :
  ~ drawable XRSUN SCALE p -> exists e, Display.draw XRSUN p SCALE = Raises e.
Proof.
  intros N. unfold Display.draw, drawable, finite in *.
  destruct (RK4.c0 (RK4.pos p) / fin XRSUN * SCALE)%num as [x |];
    [| simpl; eexists; reflexivity].
  destruct (RK4.c1 (RK4.pos p) / fin XRSUN * SCALE)%num as [y |];
    [| simpl; eexists; reflexivity].
  destruct (fin (IZR (RK4.rad p)) * SCALE)%num as [r |];
    [| simpl; eexists; reflexivity].
  exfalso. apply N. repeat split; eexists; reflexivity.
Qed.

Lemma update_and_draw_raised XG XRSUN Plist dt SCALE todo e :
  fold_left (Display.update_and_draw XG XRSUN Plist dt SCALE) todo (Raises e)
  = Raises e.
Proof. induction todo as [| p todo IH]; simpl; [reflexivity | exact IH]. Qed.


Lemma update_and_draw_exact XG XRSUN Plist dt SCALE todo :
  NoDup todo ->
  forall h win,
    let final := for_each todo (RK4.update_particle XG Plist dt) h in
    ((forall p, In p todo -> drawable XRSUN SCALE (final p)) ->
     exists circles,
       fold_left (Display.update_and_draw XG XRSUN Plist dt SCALE) todo
         (Returns (h, win)) = Returns (final, win ++ circles)
       /\ Forall2 (fun p c => Display.draw XRSUN (final p) SCALE = Returns c)
            todo circles)
    /\ ((exists p, In p todo /\ ~ drawable XRSUN SCALE (final p)) ->
        exists e,
          fold_left (Display.update_and_draw XG XRSUN Plist dt SCALE) todo
            (Returns (h, win)) = Raises e).
Proof.
  unfold for_each.
  induction todo as [| p todo IH]; intros Hnd h win; simpl.
  - split.
    + intros _. exists []. rewrite app_nil_r.
      split; [reflexivity | constructor].
    + intros (p & [] & _).
  - inversion Hnd as [| ? ? Hnotin Hnd']; subst.
    set (h1 := RK4.update_particle XG Plist dt h p).
    assert (Hp : fold_left (RK4.update_particle XG Plist dt) todo h1 p = h1 p)
      by (apply (updates_elsewhere XG Plist dt todo h1 p Hnotin)).
    split.
    + intros Hall.
      assert (Hd : drawable XRSUN SCALE (h1 p))
        by (rewrite <- Hp; apply Hall; now left).
      destruct (draw_returns XRSUN SCALE (h1 p) Hd) as [c Hc].
      rewrite Hc. simpl.
      destruct (IH Hnd' h1 (win ++ [c])) as [Hret _].
      destruct Hret as (circles & Hfold & Hcircles).
      { intros q Hq. apply Hall. now right. }
      exists (c :: circles). split.
      * rewrite Hfold. now rewrite <- app_assoc.
      * constructor; [now rewrite Hp | exact Hcircles].
    + intros (q & Hq & Hnot).
      destruct (Display.draw XRSUN (h1 p) SCALE) as [c | e] eqn:Hc; simpl.
      * destruct Hq as [-> | Hq].
        -- exfalso. apply Hnot. rewrite Hp.
           unfold drawable, finite. unfold Display.draw in Hc.
           destruct (RK4.c0 (RK4.pos (h1 q)) / fin XRSUN * SCALE)%num
             as [x |]; [| discriminate].
           destruct (RK4.c1 (RK4.pos (h1 q)) / fin XRSUN * SCALE)%num
             as [y |]; [| discriminate].
           destruct (fin (IZR (RK4.rad (h1 q))) * SCALE)%num
             as [r |]; [| discriminate].
           repeat split; eexists; reflexivity.
        -- destruct (IH Hnd' h1 (win ++ [c])) as [_ Hraise].
           apply Hraise. exists q. split; assumption.
      * exists e. apply update_and_draw_raised.
Qed.

(** X18. [update_particles] with its drawing, on a list without
    repetition. When every listed particle can be drawn where the step
    leaves it (its two screen coordinates and its screen radius are
    finite reals), the call returns, the particles are as the step
    without drawing leaves them, and one circle is added per particle,
    in the order of the list, each the drawing of its particle as the
    step leaves it. When some listed particle cannot be drawn there, the
    call raises. *)
Theorem update_particles_draws_or_raises (XG XRSUN : R)
  (h : store RK4.Particle) (win : list Display.drawn) (Plist : list loc)
  (dt SCALE : num) :
  NoDup Plist ->
  let final := RK4.update_particles XG h Plist dt in
  ((forall p, In p Plist -> drawable XRSUN SCALE (final p)) ->
   exists circles,
     Display.update_particles XG XRSUN h win Plist dt SCALE
     = Returns (final, win ++ circles)
     /\ Forall2 (fun p c => Display.draw XRSUN (final p) SCALE = Returns c)
          Plist circles)
  /\ ((exists p, In p Plist /\ ~ drawable XRSUN SCALE (final p)) ->
      exists e,
        Display.update_particles XG XRSUN h win Plist dt SCALE = Raises e).
Proof.
  intros Hnd. apply (update_and_draw_exact XG XRSUN Plist dt SCALE Plist Hnd).
Qed.

Lemma unit_axis_step_drawable (p : loc) :
  In p [0; 1]%nat ->
  drawable C.XRSUN (fin 1)
    (RK4.update_particles C.XG unit_axis [0; 1]%nat (fin 1) p).
Proof.
  intros Hp. rewrite unit_axis_step.
  assert (HR : C.XRSUN <> 0) by (unfold C.XRSUN, Euler.R_sun; lra).
  destruct Hp as [<- | [<- | []]];
    unfold drawable, axis, store2, store3, ball;
    cbn [RK4.pos RK4.rad RK4.c0 RK4.c1];
    (split; [| split]);
    rewrite ?(ndiv_fin _ C.XRSUN) by exact HR;
    rewrite ?nmul_fin; apply finite_fin.
Qed.

Lemma update_particles_draws_or_raises_witness :
  NoDup [0; 1]%nat
  /\ exists circles,
       Display.update_particles C.XG C.XRSUN unit_axis [] [0; 1]%nat
         (fin 1) (fin 1)
       = Returns (RK4.update_particles C.XG unit_axis [0; 1]%nat (fin 1),
                  [] ++ circles)
       /\ Forall2
            (fun p c =>
               Display.draw C.XRSUN
                 (RK4.update_particles C.XG unit_axis [0; 1]%nat (fin 1) p)
                 (fin 1) = Returns c)
            [0; 1]%nat circles.
Proof.
  split; [exact NoDup_two |].
  exact (proj1 (update_particles_draws_or_raises C.XG C.XRSUN unit_axis []
                  [0; 1]%nat (fin 1) (fin 1) NoDup_two)
           unit_axis_step_drawable).
Defined.

(** X19. Two bodies at one place stop the program: when the first
    particle of the list has another listed particle at its place,
    [update_particles] raises at the first drawing, the new position of
    that particle having no finite coordinate to turn into a pixel. *)
Theorem coincident_bodies_stop_the_drawing (XG XRSUN : R)
  (h : store RK4.Particle) (win : list Display.drawn) (b o : loc)
  (rest : list loc) (dt SCALE : num) :
  In o (b :: rest) -> o <> b -> RK4.pos (h o) = RK4.pos (h b) ->
  exists e,
    Display.update_particles XG XRSUN h win (b :: rest) dt SCALE = Raises e.
Proof.
  intros Hin N E. unfold Display.update_particles. simpl.
  unfold RK4.update_particle.
  rewrite (rk4_coincident XG h b o (b :: rest) dt Hin N E).
  rewrite upd_same. unfold Display.draw. simpl.
  eexists. apply update_and_draw_raised.
Qed.

Lemma coincident_bodies_stop_the_drawing_witness :
  In 1%nat [0; 1]%nat /\ 1%nat <> 0%nat
  /\ RK4.pos (store2 origin_body origin_body origin_body 1%nat)
     = RK4.pos (store2 origin_body origin_body origin_body 0%nat)
  /\ exists e,
       Display.update_particles C.XG C.XRSUN
         (store2 origin_body origin_body origin_body) [] [0; 1]%nat
         (fin 1) (fin 1) = Raises e.
Proof.
  assert (H1 : In 1%nat [0; 1]%nat) by (right; now left).
  assert (H2 : 1%nat <> 0%nat) by discriminate.
  split; [exact H1 |]. split; [exact H2 |]. split; [reflexivity |].
  exact (coincident_bodies_stop_the_drawing C.XG C.XRSUN
           (store2 origin_body origin_body origin_body) [] 0%nat 1%nat
           [1%nat] (fin 1) (fin 1) H1 H2 eq_refl).
Defined.




(** ** The command line and the axes (the Runge-Kutta script) *)











Lemma in_range (n i : Z) : In i (range n) -> (0 <= i < n)%Z.
Proof.
  unfold range. rewrite in_map_iff. intros (k & <- & Hk).
  apply in_seq in Hk. lia.
Qed.

Lemma tick_inside (W T i : Z) :
  (0 < T)%Z -> (0 <= W)%Z -> (0 <= i < T)%Z ->
  exists c, (fin (IZR i) * (fin (IZR W) / fin (IZR T)))%num = fin c
            /\ 0 <= c <= IZR W.
Proof.
  intros HT HW Hi.
  assert (HT' : 0 < IZR T) by now apply IZR_lt.
  assert (HW' : 0 <= IZR W) by now apply IZR_le.
  assert (Hi0 : 0 <= IZR i) by (apply IZR_le; lia).
  assert (Hi1 : IZR i <= IZR T) by (apply IZR_le; lia).
  rewrite ndiv_fin, nmul_fin by lra.
  eexists. split; [reflexivity |].
  assert (Hr : 0 <= IZR W / IZR T)
    by (apply Rle_mult_inv_pos; assumption).
  assert (Hq : IZR W / IZR T * IZR T = IZR W) by (field; lra).
  split; nra.
Qed.

(** X24. No tick leaves the window: when the number of ticks is positive
    and the tick length is between 0 and the window size, both ends of
    every line that [draw_axes] draws have finite coordinates between 0
    and the window size. *)
Theorem ticks_stay_in_the_window (XRSUN : R) (lw lh : num -> Z)
  (W T L : Z) (B : num) (axes : list Display.drawn) (a b : num * num) :
  (0 < T)%Z -> (0 <= L <= W)%Z ->
  Display.draw_axes XRSUN lw lh W B T L = Returns axes ->
  In (Display.Line a b) axes ->
  inside W a /\ inside W b.
Proof.
  intros HT HL Haxes Hin. unfold Display.draw_axes in Haxes.
  assert (E : Z.eqb T 0 = false) by (apply Z.eqb_neq; lia).
  rewrite E in Haxes. injection Haxes as <-.
  apply in_app_or in Hin. destruct Hin as [Hin | Hin].
  - apply in_flat_map in Hin. destruct Hin as (i & Hi & Hin).
    apply in_range in Hi.
    destruct (tick_inside W T i HT ltac:(lia) Hi) as (c & Hc & Hc0 & Hc1).
    cbv [Display.ticks ndiv fin] in Hin. cbv [ndiv fin] in Hc.
    rewrite Hc in Hin.
    assert (HL0 : 0 <= IZR L <= IZR W) by (split; apply IZR_le; lia).
    assert (HL1 : 0 <= IZR (W - L) <= IZR W) by (split; apply IZR_le; lia).
    assert (HW : 0 <= IZR W) by (apply IZR_le; lia).
    destruct Hin as [Hin | [Hin | [Hin | [Hin | []]]]];
      injection Hin as <- <-; split; eexists; eexists;
      (split; [reflexivity | split; lra]).
  - apply in_flat_map in Hin. destruct Hin as (i & _ & Hin).
    destruct Hin as [Hin | [Hin | []]]; discriminate.
Qed.

Lemma ticks_stay_in_the_window_witness :
  (0 < 1)%Z /\ (0 <= 20 <= 1000)%Z
  /\ inside 1000 (fin (IZR (1000 - 20)), (fin (IZR 0) * (fin 1000 / fin 1))%num)
  /\ inside 1000 (fin 1000, (fin (IZR 0) * (fin 1000 / fin 1))%num).
Proof.
  assert (H1 : (0 < 1)%Z) by lia.
  assert (H2 : (0 <= 20 <= 1000)%Z) by lia.
  split; [exact H1 |]. split; [exact H2 |].
  apply (ticks_stay_in_the_window C.XRSUN (fun _ => 40%Z) (fun _ => 10%Z)
           1000 1 20 (fin 1000)
           (Display.ticks 1000 20 (fin 1000 / fin 1)%num 0 ++ [])
           _ _ H1 H2).
  - reflexivity.
  - apply in_or_app. left. right. left. reflexivity.
Defined.

(** ** The loop of [main] with its window *)






(** ** The canvas of nbody.py *)

Lemma shifted_edge (x s r k dx : num) :
  (x * s - r * s - k + dx * s)%num = ((x + dx) * s - r * s - k)%num.
Proof.
  destruct x, s, r, k, dx; simpl; try reflexivity. f_equal. ring.
Qed.

Lemma shifted_edge' (x s r k dx : num) :
  (x * s + r * s - k + dx * s)%num = ((x + dx) * s + r * s - k)%num.
Proof.
  destruct x, s, r, k, dx; simpl; try reflexivity. f_equal. ring.
Qed.

Lemma move_in t dx dy canvas it :
  In it canvas ->
  In (match it with
      | Canvas.Oval t' x0 y0 x1 y1 =>
          if Canvas.tag_eqb t' t
          then Canvas.Oval t' (x0 + dx) (y0 + dy) (x1 + dx) (y1 + dy)
          else it
      | Canvas.Line t' x0 y0 x1 y1 =>
          if Canvas.tag_eqb t' t
          then Canvas.Line t' (x0 + dx) (y0 + dy) (x1 + dx) (y1 + dy)
          else it
      | _ => it
      end)%num (Canvas.move t dx dy canvas).
Proof.
  intros Hin. unfold Canvas.move.
  apply (in_map (fun it =>
         match it with
         | Canvas.Oval t' x0 y0 x1 y1 =>
             if Canvas.tag_eqb t' t
             then Canvas.Oval t' (x0 + dx) (y0 + dy) (x1 + dx) (y1 + dy)
             else it
         | Canvas.Line t' x0 y0 x1 y1 =>
             if Canvas.tag_eqb t' t
             then Canvas.Line t' (x0 + dx) (y0 + dy) (x1 + dx) (y1 + dy)
             else it
         | _ => it
         end)%num) in Hin.
  exact Hin.
Qed.







(** ** The whole run of nbody.py on its canvas *)


Lemma update_position_canvas scale dt c tracks h canvas pj :
  fst (Canvas.update_position scale dt c tracks (h, canvas) pj)
  = Euler.update_position dt h pj.
Proof. reflexivity. Qed.








Lemma length_move t dx dy canvas :
  List.length (Canvas.move t dx dy canvas) = List.length canvas.
Proof. unfold Canvas.move. apply length_map. Qed.

Lemma turn_length scale dt W L particles c s pj :
  List.length (snd (Canvas.turn scale dt W L particles c s pj))
  = (List.length (snd s) + 2)%nat.
Proof.
  destruct s as [h canvas]. unfold Canvas.turn, Canvas.update_position.
  cbn [andb snd]. rewrite Bool.andb_false_r.
  rewrite length_app, length_move. reflexivity.
Qed.

Lemma turns_length scale dt W L particles c todo :
  forall s,
    List.length
      (snd (fold_left (Canvas.turn scale dt W L particles c) todo s))
    = (List.length (snd s) + 2 * List.length todo)%nat.
Proof.
  induction todo as [| pj todo IH]; intros s; simpl; [lia |].
  rewrite IH, turn_length. lia.
Qed.

(** X30. The canvas of nbody.py grows with every cycle: [time_display]
    creates a rectangle and a text each time it is called and nothing is
    ever deleted, so that after [n] cycles the canvas holds two more
    items for each cycle and each particle of the list. *)
Theorem canvas_grows_with_every_cycle (scale dt : num) (W L : Z)
  (particles : list loc) (c : Z) (n : nat)
  (s : store Euler.Particle * list Canvas.item) :
  List.length (snd (Canvas.cycles scale dt W L particles c n s))
  = (List.length (snd s) + 2 * List.length particles * n)%nat.
Proof.
  revert c s. induction n as [| n IH]; intros c s; simpl; [lia |].
  rewrite IH, turns_length. lia.
Qed.

(** ** The stages of [rk4] against the force model of the specification *)

Lemma ForceModel_axis_low XG x0 v0 x1 v1 m (p : R) :
  p < x1 -> 0 < m ->
  Spec.ForceModel XG (axis x0 v0 x1 v1 m) 0
    (RK4.mkV3 (fin p) (fin 0) (fin 0)) [0; 1]%nat
  = RK4.mkV3 (fin (XG * m / ((x1 - p) * (x1 - p)))) (fin 0) (fin 0).
Proof.
  intros Hp Hm.
  cbv [Spec.ForceModel fold_left Spec.ForceModel_body Nat.eqb].
  change (RK4.vsub (RK4.pos (axis x0 v0 x1 v1 m 1%nat))
            (RK4.mkV3 (fin p) (fin 0) (fin 0)))
    with (RK4.mkV3 (fin (x1 - p)) (fin (0 - 0)) (fin (0 - 0))).
  rewrite norm_axis' by lra.
  set (D := x1 - p) in *. assert (HD : 0 < D) by (unfold D; lra).
  cbv [RK4.vadd RK4.smul RK4.sdiv RK4.vsub RK4.vmap RK4.zeros3
       RK4.c0 RK4.c1 RK4.c2 RK4.pos RK4.mas axis store2 store3 ball].
  num_eval. f_equal; f_equal; field; lra.
Qed.

Lemma on_the_axis (a b c a' : R) :
  a = a' -> b = 0 -> c = 0 ->
  RK4.mkV3 (fin a) (fin b) (fin c) = RK4.mkV3 (fin a') (fin 0) (fin 0).
Proof. now intros -> -> ->. Qed.

Lemma unit_pull (D : R) : D <> 0 -> C.XG * (1 / C.XG) / (D * D) = 1 / (D * D).
Proof.
  intros HD. pose proof C_XG_pos. field. split; lra.
Qed.

(** The stages of [rk4] on the lower ball of the unit axis, with a time
    step of one second. *)
Lemma unit_axis_stages :
  let s := RK4.rk4_locals C.XG unit_axis 0%nat [0; 1]%nat (fin 1) in
  RK4.kp2 s = RK4.mkV3 (fin (1 / 4)) (fin 0) (fin 0)
  /\ RK4.ka2 s = RK4.mkV3 (fin (3 / 4)) (fin 0) (fin 0)
  /\ RK4.new_vel s = RK4.mkV3 (fin (79 / 96)) (fin 0) (fin 0)
  /\ RK4.new_pos s = RK4.mkV3 (fin (41 / 96)) (fin 0) (fin 0).
Proof.
  pose proof unit_mass_pos as Hm.
  pose proof (fun p q r =>
                acceleration_axis_low C.XG 0 0 1 0 (1 / C.XG) p q r
                  ltac:(lra) Hm) as Hacc.
  cbv zeta in Hacc.
  assert (Hk : C.XG * (1 / C.XG) / ((1 - 0) * (1 - 0) * (1 - 0)) = 1).
  { unfold C.XG, Euler.grav_constant. field. }
  rewrite Hk in Hacc. fold unit_axis in Hacc.
  cbv [RK4.rk4_locals RK4.kp2 RK4.ka2 RK4.new_vel RK4.new_pos].
  change (RK4.pos (unit_axis 0%nat)) with (RK4.mkV3 (fin 0) (fin 0) (fin 0)).
  change (RK4.vel (unit_axis 0%nat)) with (RK4.mkV3 (fin 0) (fin 0) (fin 0)).
  rewrite ndiv_fin by lra.
  repeat first [ rewrite nmul_fin | rewrite smul_fin | rewrite vadd_fin
               | rewrite Hacc ].
  repeat split; apply on_the_axis; field.
Qed.

(** The same stages as the specification words them. *)
Lemma unit_axis_stages_specified :
  let s' := Spec.RungeKutta4 C.XG unit_axis 0%nat [0; 1]%nat (fin 1) in
  RK4.kp2 s' = RK4.mkV3 (fin (1 / 4)) (fin 0) (fin 0)
  /\ RK4.ka2 s' = RK4.mkV3 (fin (16 / 9)) (fin 0) (fin 0)
  /\ RK4.new_vel s' = RK4.mkV3 (fin (1606 / 675)) (fin 0) (fin 0)
  /\ RK4.new_pos s' = RK4.mkV3 (fin (677 / 675)) (fin 0) (fin 0).
Proof.
  pose proof unit_mass_pos as Hm.
  pose proof (fun p Hp =>
                ForceModel_axis_low C.XG 0 0 1 0 (1 / C.XG) p Hp Hm) as Hf.
  fold unit_axis in Hf.
  cbv [Spec.RungeKutta4 RK4.kp2 RK4.ka2 RK4.new_vel RK4.new_pos].
  change (RK4.pos (unit_axis 0%nat)) with (RK4.mkV3 (fin 0) (fin 0) (fin 0)).
  change (RK4.vel (unit_axis 0%nat)) with (RK4.mkV3 (fin 0) (fin 0) (fin 0)).
  rewrite ndiv_fin by lra. rewrite nmul_fin.
  (* stage 1 *)
  rewrite (Hf 0) by lra. rewrite unit_pull by lra.
  set (ka1 := RK4.mkV3 (fin (1 / ((1 - 0) * (1 - 0)))) (fin 0) (fin 0)).
  assert (K1 : ka1 = RK4.mkV3 (fin 1) (fin 0) (fin 0))
    by (apply on_the_axis; field).
  clearbody ka1. subst ka1.
  (* stage 2 *)
  repeat first [rewrite smul_fin | rewrite vadd_fin].
  set (kp2 := RK4.mkV3 (fin (0 + 1 / 2 * 1 * (0 + 1 / 2 * 1 * 1)))
                (fin (0 + 1 / 2 * 1 * (0 + 1 / 2 * 1 * 0)))
                (fin (0 + 1 / 2 * 1 * (0 + 1 / 2 * 1 * 0)))).
  assert (P2 : kp2 = RK4.mkV3 (fin (1 / 4)) (fin 0) (fin 0))
    by (apply on_the_axis; field).
  clearbody kp2. subst kp2.
  rewrite (Hf (1 / 4)) by lra. rewrite unit_pull by lra.
  set (ka2 := RK4.mkV3 (fin (1 / ((1 - 1 / 4) * (1 - 1 / 4)))) (fin 0) (fin 0)).
  assert (K2 : ka2 = RK4.mkV3 (fin (16 / 9)) (fin 0) (fin 0))
    by (apply on_the_axis; field).
  clearbody ka2. subst ka2.
  (* stage 3 *)
  repeat first [rewrite smul_fin | rewrite vadd_fin].
  set (kp3 := RK4.mkV3 (fin (0 + 1 / 2 * 1 * (0 + 1 / 2 * 1 * (16 / 9))))
                (fin (0 + 1 / 2 * 1 * (0 + 1 / 2 * 1 * 0)))
                (fin (0 + 1 / 2 * 1 * (0 + 1 / 2 * 1 * 0)))).
  assert (P3 : kp3 = RK4.mkV3 (fin (4 / 9)) (fin 0) (fin 0))
    by (apply on_the_axis; field).
  clearbody kp3. subst kp3.
  rewrite (Hf (4 / 9)) by lra. rewrite unit_pull by lra.
  set (ka3 := RK4.mkV3 (fin (1 / ((1 - 4 / 9) * (1 - 4 / 9)))) (fin 0) (fin 0)).
  assert (K3 : ka3 = RK4.mkV3 (fin (81 / 25)) (fin 0) (fin 0))
    by (apply on_the_axis; field).
  clearbody ka3. subst ka3.
  repeat first [rewrite smul_fin | rewrite vadd_fin].
  repeat split; apply on_the_axis; field.
Qed.

(** C2 (the code departs from the claim). The stages of [rk4] are laid
    out as the claim lists them, but the acceleration that the code takes
    at a staged position is not the force model of the specification
    there: [Particle.acceleration] keeps the distance between the stored
    positions. On the lower of two balls at rest one metre apart, each of
    the mass for which G times the mass is 1, with a time step of one
    second, the second stage is at a quarter of a metre; there the code
    takes the acceleration 3/4 where the force model gives 16/9, and
    [rk4] returns the velocity 79/96 and the position 41/96 where the
    staged values of the claim give 1606/675 and 677/675. *)
Theorem rk4_stages_take_stored_distance :
  let s := RK4.rk4_locals C.XG unit_axis 0%nat [0; 1]%nat (fin 1) in
  let s' := Spec.RungeKutta4 C.XG unit_axis 0%nat [0; 1]%nat (fin 1) in
  RK4.kp2 s = RK4.mkV3 (fin (1 / 4)) (fin 0) (fin 0)
  /\ RK4.ka2 s = RK4.mkV3 (fin (3 / 4)) (fin 0) (fin 0)
  /\ Spec.ForceModel C.XG unit_axis 0%nat (RK4.kp2 s) [0; 1]%nat
     = RK4.mkV3 (fin (16 / 9)) (fin 0) (fin 0)
  /\ RK4.ka2 s <> Spec.ForceModel C.XG unit_axis 0%nat (RK4.kp2 s) [0; 1]%nat
  /\ RK4.rk4 C.XG unit_axis 0%nat [0; 1]%nat (fin 1)
     = (RK4.mkV3 (fin (41 / 96)) (fin 0) (fin 0),
        RK4.mkV3 (fin (79 / 96)) (fin 0) (fin 0))
  /\ (RK4.new_pos s', RK4.new_vel s')
     = (RK4.mkV3 (fin (677 / 675)) (fin 0) (fin 0),
        RK4.mkV3 (fin (1606 / 675)) (fin 0) (fin 0))
  /\ RK4.rk4 C.XG unit_axis 0%nat [0; 1]%nat (fin 1)
     <> (RK4.new_pos s', RK4.new_vel s').
Proof.
  intros s s'.
  destruct unit_axis_stages as (P2 & K2 & V & P).
  destruct unit_axis_stages_specified as (P2' & K2' & V' & P').
  fold s in P2, K2, V, P. fold s' in P2', K2', V', P'.
  assert (F : Spec.ForceModel C.XG unit_axis 0%nat (RK4.kp2 s) [0; 1]%nat
              = RK4.mkV3 (fin (16 / 9)) (fin 0) (fin 0)).
  { rewrite P2. unfold unit_axis.
    rewrite (ForceModel_axis_low C.XG 0 0 1 0 (1 / C.XG) (1 / 4))
      by (try lra; exact unit_mass_pos).
    rewrite unit_pull by lra. apply on_the_axis; field. }
  assert (Hrk4 : RK4.rk4 C.XG unit_axis 0%nat [0; 1]%nat (fin 1)
                 = (RK4.new_pos s, RK4.new_vel s)) by reflexivity.
  split; [exact P2 |]. split; [exact K2 |]. split; [exact F |].
  split.
  { rewrite K2, F. intros E. apply (f_equal RK4.c0) in E. simpl in E.
    injection E as E. lra. }
  split; [now rewrite Hrk4, P, V |].
  split; [now rewrite P', V' |].
  rewrite Hrk4, P, V, P', V'. intros E. injection E as E _. lra.
Qed.

(** ** Shared position lists (nbody.py) *)

Lemma look_gravitation_body dt p1 s p2 :
  Shared.look (Shared.gravitation_body dt p1 s p2)
  = Euler.gravitation_body dt p1 (Shared.look s) p2.
Proof.
  unfold Shared.gravitation_body, Euler.gravitation_body.
  change (Euler.index (Shared.look s p1))
    with (Shared.index (Shared.particles s p1)).
  change (Euler.index (Shared.look s p2))
    with (Shared.index (Shared.particles s p2)).
  destruct (Z.eqb (Shared.index (Shared.particles s p1))
              (Shared.index (Shared.particles s p2))); [reflexivity |].
  apply functional_extensionality. intros l.
  unfold Shared.look, Shared.place, upd.
  cbn [Shared.particles Shared.lists].
  destruct (Nat.eqb l p1); reflexivity.
Qed.

Lemma fold_left_look {B : Type} (f : Shared.State -> B -> Shared.State)
  (g : store Euler.Particle -> B -> store Euler.Particle) (xs : list B) :
  (forall s x, Shared.look (f s x) = g (Shared.look s) x) ->
  forall s, Shared.look (fold_left f xs s) = fold_left g xs (Shared.look s).
Proof.
  intros H. induction xs as [| x xs IH]; intros s; simpl; [reflexivity |].
  now rewrite IH, H.
Qed.

Lemma look_gravitation L dt s :
  Shared.look (Shared.gravitation L dt s)
  = Euler.gravitation L dt (Shared.look s).
Proof.
  unfold Shared.gravitation, Euler.gravitation, for_each.
  apply fold_left_look. intros s1 p1.
  apply fold_left_look. intros s2 p2. apply look_gravitation_body.
Qed.

Lemma same_places_refl s : same_places s s.
Proof. intros l. reflexivity. Qed.

Lemma same_places_trans s1 s2 s3 :
  same_places s1 s2 -> same_places s2 s3 -> same_places s1 s3.
Proof. intros H12 H23 l. now rewrite H23, H12. Qed.

Lemma fold_left_places {B : Type} (f : Shared.State -> B -> Shared.State)
  (xs : list B) :
  (forall s x, same_places s (f s x)) ->
  forall s, same_places s (fold_left f xs s).
Proof.
  intros H. induction xs as [| x xs IH]; intros s; simpl.
  - apply same_places_refl.
  - eapply same_places_trans; [apply H | apply IH].
Qed.

Lemma gravitation_body_places dt p1 s p2 :
  same_places s (Shared.gravitation_body dt p1 s p2).
Proof.
  unfold Shared.gravitation_body.
  destruct (Z.eqb (Shared.index (Shared.particles s p1))
              (Shared.index (Shared.particles s p2)));
    [apply same_places_refl |].
  intros l. cbn [Shared.particles]. unfold upd.
  destruct (Nat.eqb l p1) eqn:E; [| reflexivity].
  apply Nat.eqb_eq in E. now subst l.
Qed.

Lemma gravitation_places L dt s : same_places s (Shared.gravitation L dt s).
Proof.
  unfold Shared.gravitation. apply fold_left_places. intros s1 p1.
  apply fold_left_places. intros s2 p2. apply gravitation_body_places.
Qed.

Lemma update_position_places dt s self :
  same_places s (Shared.update_position dt s self).
Proof. intros l. reflexivity. Qed.

Lemma cycle_places L dt s : same_places s (Shared.cycle L dt s).
Proof.
  unfold Shared.cycle. apply fold_left_places. intros s1 pj.
  eapply same_places_trans;
    [apply gravitation_places | apply update_position_places].
Qed.

Lemma unshared_places L s s' :
  same_places s s' -> unshared L s -> unshared L s'.
Proof.
  intros Hp Hu p l Hin Hne. rewrite !Hp. now apply Hu.
Qed.

Lemma look_update_position dt s self :
  (forall l, l <> self ->
     Shared.position (Shared.particles s l)
     <> Shared.position (Shared.particles s self)) ->
  Shared.look (Shared.update_position dt s self)
  = Euler.update_position dt (Shared.look s) self.
Proof.
  intros Hu. apply functional_extensionality. intros l.
  unfold Euler.update_position, Shared.update_position, Shared.look,
    Shared.place.
  cbn [Shared.particles Shared.lists].
  unfold upd at 2. destruct (Nat.eqb l self) eqn:E.
  - apply Nat.eqb_eq in E. subst l. now rewrite upd_same.
  - apply Nat.eqb_neq in E. rewrite upd_other by (now apply Hu).
    reflexivity.
Qed.

Lemma look_cycle_from L dt todo :
  incl todo L ->
  forall s, unshared L s ->
    Shared.look
      (fold_left
         (fun s pj => Shared.update_position dt (Shared.gravitation L dt s) pj)
         todo s)
    = for_each todo
        (fun h pj => Euler.update_position dt (Euler.gravitation L dt h) pj)
        (Shared.look s).
Proof.
  unfold for_each.
  induction todo as [| pj todo IH]; intros Hincl s Hu; simpl; [reflexivity |].
  assert (Hu1 : unshared L (Shared.gravitation L dt s))
    by (apply (unshared_places L s); [apply gravitation_places | exact Hu]).
  rewrite IH.
  - rewrite look_update_position, look_gravitation; [reflexivity |].
    intros l Hne. apply Hu1; [apply Hincl; now left | exact Hne].
  - intros x Hx. apply Hincl. now right.
  - apply (unshared_places L (Shared.gravitation L dt s));
      [apply update_position_places | exact Hu1].
Qed.

Lemma look_run L dt n :
  forall s, unshared L s ->
    Shared.look (Shared.run L dt n s) = Euler.run L dt n (Shared.look s).
Proof.
  induction n as [| n IH]; intros s Hu; simpl; [reflexivity |].
  rewrite IH.
  - unfold Shared.cycle, Euler.cycle.
    now rewrite (look_cycle_from L dt L (incl_refl L) s Hu).
  - apply (unshared_places L s); [apply cycle_places | exact Hu].
Qed.

Lemma shared_move dt s self q :
  Euler.position (Shared.look (Shared.update_position dt s self) q)
  = if Nat.eqb (Shared.position (Shared.particles s q))
         (Shared.position (Shared.particles s self))
    then Euler.mkV2
           (Euler.e0 (Euler.position (Shared.look s self))
            + Euler.e0 (Euler.velocity (Shared.look s self)) * dt)
           (Euler.e1 (Euler.position (Shared.look s self))
            + Euler.e1 (Euler.velocity (Shared.look s self)) * dt)
    else Euler.position (Shared.look s q).
Proof.
  unfold Shared.look, Shared.update_position, Shared.place.
  cbn [Euler.position Euler.velocity Shared.particles Shared.lists].
  unfold upd. reflexivity.
Qed.

(** X17. The position lists of nbody.py are shared objects.
    [update_position] moves, with its particle, exactly the particles
    that hold the same position list: each of them is afterwards where
    the moved particle is, and every other particle is where it was.
    When no other particle holds the position list of a particle of the
    list, the run on shared lists is, seen as values, the run in which
    each particle has a position of its own. *)
Theorem position_lists_are_shared (L : list loc) (dt : num) (n : nat)
  (s : Shared.State) (self q : loc) :
  Euler.position (Shared.look (Shared.update_position dt s self) q)
  = (if Nat.eqb (Shared.position (Shared.particles s q))
          (Shared.position (Shared.particles s self))
     then Euler.mkV2
            (Euler.e0 (Euler.position (Shared.look s self))
             + Euler.e0 (Euler.velocity (Shared.look s self)) * dt)
            (Euler.e1 (Euler.position (Shared.look s self))
             + Euler.e1 (Euler.velocity (Shared.look s self)) * dt)
     else Euler.position (Shared.look s q))
  /\ (unshared L s ->
      Shared.look (Shared.run L dt n s) = Euler.run L dt n (Shared.look s)).
Proof.
  split.
  - apply shared_move.
  - apply look_run.
Qed.

Lemma apart_lists_unshared L : unshared L apart_lists.
Proof. intros p l _ Hne. exact Hne. Qed.

Lemma position_lists_are_shared_witness :
  Euler.position
    (Shared.look (Shared.update_position (fin 2) twins 0%nat) 1%nat)
  = Euler.mkV2 (fin 0 + fin 1 * fin 2) (fin 0 + fin 0 * fin 2)
  /\ unshared [0; 1; 2]%nat apart_lists
  /\ Shared.look (Shared.run [0; 1; 2]%nat (fin 2) 3 apart_lists)
     = Euler.run [0; 1; 2]%nat (fin 2) 3 (Shared.look apart_lists).
Proof.
  pose proof (position_lists_are_shared [0; 1; 2]%nat (fin 2) 3 twins
                0%nat 1%nat) as [Hmove _].
  pose proof (position_lists_are_shared [0; 1; 2]%nat (fin 2) 3 apart_lists
                0%nat 1%nat) as [_ Hrun].
  split; [exact Hmove |].
  split; [apply apart_lists_unshared |].
  apply Hrun. apply apart_lists_unshared.
Defined.

(** ** What a step does not touch, with shared lists *)

Lemma untouched_look l s s' :
  untouched l s s' -> Shared.look s' l = Shared.look s l.
Proof.
  intros (Hp & Hl & _). unfold Shared.look, Shared.place.
  now rewrite Hp, Hl.
Qed.

Lemma untouched_refl l s : untouched l s s.
Proof. repeat split. Qed.

Lemma untouched_trans l s1 s2 s3 :
  untouched l s1 s2 -> untouched l s2 s3 -> untouched l s1 s3.
Proof.
  intros (P12 & L12 & S12) (P23 & L23 & S23). split; [| split].
  - now rewrite P23.
  - rewrite <- L12. rewrite <- P12. exact L23.
  - now apply (same_places_trans s1 s2 s3).
Qed.

Lemma gravitation_body_untouched dt p1 s p2 l :
  l <> p1 -> untouched l s (Shared.gravitation_body dt p1 s p2).
Proof.
  intros Hne. split; [| split].
  - unfold Shared.gravitation_body.
    destruct (Z.eqb (Shared.index (Shared.particles s p1))
                (Shared.index (Shared.particles s p2))); [reflexivity |].
    cbn [Shared.particles]. now apply upd_other.
  - unfold Shared.gravitation_body.
    destruct (Z.eqb (Shared.index (Shared.particles s p1))
                (Shared.index (Shared.particles s p2))); reflexivity.
  - apply gravitation_body_places.
Qed.

Lemma inner_loop_untouched dt p1 L2 l :
  l <> p1 ->
  forall s, untouched l s (fold_left (Shared.gravitation_body dt p1) L2 s).
Proof.
  intros Hne. induction L2 as [| p2 L2 IH]; intros s; simpl.
  - apply untouched_refl.
  - apply (untouched_trans l s (Shared.gravitation_body dt p1 s p2));
      [now apply gravitation_body_untouched | apply IH].
Qed.

Lemma outer_loop_untouched dt L L1 l :
  ~ In l L1 ->
  forall s,
    untouched l s
      (fold_left (fun s p1 => fold_left (Shared.gravitation_body dt p1) L s)
         L1 s).
Proof.
  induction L1 as [| p1 L1 IH]; intros Hl s; simpl.
  - apply untouched_refl.
  - apply (untouched_trans l s
             (fold_left (Shared.gravitation_body dt p1) L s)).
    + apply inner_loop_untouched. intros ->. apply Hl. now left.
    + apply IH. intros C. apply Hl. now right.
Qed.

Lemma update_position_untouched dt s self l :
  Shared.position (Shared.particles s self)
  <> Shared.position (Shared.particles s l) ->
  untouched l s (Shared.update_position dt s self).
Proof.
  intros Hne. split; [reflexivity | split].
  - unfold Shared.update_position. cbn [Shared.lists].
    apply upd_other. intros E. apply Hne. now symmetry.
  - apply update_position_places.
Qed.

Lemma cycle_untouched dt L l todo :
  ~ In l L ->
  forall s,
    (forall p, In p todo ->
       Shared.position (Shared.particles s p)
       <> Shared.position (Shared.particles s l)) ->
    untouched l s
      (fold_left
         (fun s pj => Shared.update_position dt (Shared.gravitation L dt s) pj)
         todo s).
Proof.
  intros HL. induction todo as [| pj todo IH]; intros s Hs; simpl.
  - apply untouched_refl.
  - assert (Hg : untouched l s (Shared.gravitation L dt s))
      by (unfold Shared.gravitation; now apply outer_loop_untouched).
    assert (Hu : untouched l s
                   (Shared.update_position dt (Shared.gravitation L dt s) pj)).
    { eapply untouched_trans; [exact Hg |].
      apply update_position_untouched.
      destruct Hg as (_ & _ & Hp). rewrite !Hp. apply Hs. now left. }
    eapply untouched_trans; [exact Hu |].
    apply IH. intros p Hp.
    destruct Hu as (_ & _ & Hpl). rewrite !Hpl. apply Hs. now right.
Qed.

Lemma shared_run_untouched dt L l n :
  ~ In l L ->
  forall s,
    (forall p, In p L ->
       Shared.position (Shared.particles s p)
       <> Shared.position (Shared.particles s l)) ->
    untouched l s (Shared.run L dt n s).
Proof.
  intros HL. induction n as [| n IH]; intros s Hs; simpl.
  - apply untouched_refl.
  - assert (Hc : untouched l s (Shared.cycle L dt s))
      by (unfold Shared.cycle; now apply cycle_untouched).
    eapply untouched_trans; [exact Hc |].
    apply IH. intros p Hp.
    destruct Hc as (_ & _ & Hpl). rewrite !Hpl. now apply Hs.
Qed.

(** ** Three bodies in two orders *)

(** On the first of the three balls both others pull: G from the ball
    one metre away and G/9 from the ball three metres away. *)
Lemma trio_acceleration :
  RK4.acceleration C.XG trio 0%nat RK4.zeros3 [0; 1; 2]%nat
  = RK4.mkV3 (fin (C.XG + C.XG / 9)) (fin 0) (fin 0).
Proof.
  pose proof C_XG_pos as HG.
  cbv [RK4.acceleration fold_left RK4.acceleration_body Nat.eqb
       RK4.dist_to RK4.norm RK4.vsub RK4.vadd RK4.smul RK4.sdiv RK4.vmap
       RK4.zeros3 trio store3 ball
       RK4.pos RK4.mas RK4.c0 RK4.c1 RK4.c2].
  num_eval. sqrt_is 1. sqrt_is 3. num_eval. f_equal; f_equal; field.
Qed.

Lemma acceleration_ignores_list_order_witness :
  Permutation [0; 1; 2]%nat [2; 1; 0]%nat
  /\ RK4.acceleration C.XG trio 0%nat RK4.zeros3 [0; 1; 2]%nat
     = RK4.acceleration C.XG trio 0%nat RK4.zeros3 [2; 1; 0]%nat
  /\ RK4.acceleration C.XG trio 0%nat RK4.zeros3 [0; 1; 2]%nat
     = RK4.mkV3 (fin (C.XG + C.XG / 9)) (fin 0) (fin 0).
Proof.
  split; [exact (Permutation_rev [0; 1; 2]%nat) |].
  split; [| exact trio_acceleration].
  exact (acceleration_ignores_list_order C.XG trio 0%nat RK4.zeros3
           [0; 1; 2]%nat [2; 1; 0]%nat (Permutation_rev [0; 1; 2]%nat)).
Defined.

(** ** What a run does not touch *)

(** X8. A run changes only the particles of its list and, in nbody.py,
    the particles that hold the position list of one of them. After any
    number of steps a particle object that is not in the list has all
    its attributes as before in the Runge-Kutta script, and in nbody.py
    too when no particle of the list holds its position list (a
    particle built from the list of a listed particle moves with it). *)
Theorem unlisted_particles_are_untouched (XG : R) (h : store RK4.Particle)
  (Plist : list loc) (s : Shared.State) (particles : list loc)
  (dt : num) (n : nat) (l : loc) :
  ~ In l Plist -> ~ In l particles ->
  (forall p, In p particles ->
     Shared.position (Shared.particles s p)
     <> Shared.position (Shared.particles s l)) ->
  RK4.run XG h Plist dt n l = h l
  /\ Shared.look (Shared.run particles dt n s) l = Shared.look s l.
Proof.
  intros H1 H2 H3. split.
  - now apply rk4_run_elsewhere.
  - apply untouched_look. now apply shared_run_untouched.
Qed.

Lemma unlisted_particles_are_untouched_witness :
  ~ In 2%nat [0; 1]%nat
  /\ (forall p, In p [0; 1]%nat ->
        Shared.position (Shared.particles twins p)
        <> Shared.position (Shared.particles twins 2%nat))
  /\ RK4.run C.XG unit_axis [0; 1]%nat (fin 1) 3 2%nat = unit_axis 2%nat
  /\ Shared.look (Shared.run [0; 1]%nat (fin 1) 3 twins) 2%nat
     = Shared.look twins 2%nat.
Proof.
  assert (N : ~ In 2%nat [0; 1]%nat).
  { intros [C | [C | []]]; discriminate. }
  assert (P : forall p, In p [0; 1]%nat ->
                Shared.position (Shared.particles twins p)
                <> Shared.position (Shared.particles twins 2%nat)).
  { intros p [<- | [<- | []]]; simpl; discriminate. }
  split; [exact N |]. split; [exact P |].
  exact (unlisted_particles_are_untouched C.XG unit_axis [0; 1]%nat
           twins [0; 1]%nat (fin 1) 3 2%nat N N P).
Defined.

(** ** The shape of a particle on the canvas *)

Lemma shape_follows_shared (scale dt : num) (cycle : Z) (tracks : bool)
  (s : Shared.State) (canvas : list Canvas.item) (self q : loc) :
  In (Canvas.draw scale (Shared.look s q)) canvas ->
  q = self
  \/ (Shared.index (Shared.particles s q)
      <> Shared.index (Shared.particles s self)
      /\ Shared.position (Shared.particles s q)
         <> Shared.position (Shared.particles s self)) ->
  In (Canvas.draw scale
        (Shared.look
           (fst (Shared.update_position_on_canvas scale dt cycle tracks
                   (s, canvas) self)) q))
     (snd (Shared.update_position_on_canvas scale dt cycle tracks
             (s, canvas) self)).
Proof.
  intros Hin Hq. unfold Shared.update_position_on_canvas. cbn [fst snd].
  set (canvas' := if andb (Z.eqb (cycle mod 2) 0) tracks then _ else canvas).
  assert (Hin' : In (Canvas.draw scale (Shared.look s q)) canvas').
  { unfold canvas'. destruct (andb (Z.eqb (cycle mod 2) 0) tracks);
      [apply in_or_app; now left | exact Hin]. }
  change (Shared.index
            (Shared.particles (Shared.update_position dt s self) self))
    with (Shared.index (Shared.particles s self)).
  apply (move_in (Canvas.Shape (Shared.index (Shared.particles s self)))
           (Euler.e0 (Shared.velocity (Shared.particles s self)) * dt
            * scale)%num
           (Euler.e1 (Shared.velocity (Shared.particles s self)) * dt
            * scale)%num) in Hin'.
  unfold Canvas.draw at 1 in Hin'.
  cbn [Canvas.tag_eqb Euler.index Shared.look] in Hin'.
  destruct Hq as [-> | [Hidx Hpl]].
  - rewrite Z.eqb_refl in Hin'.
    rewrite !shifted_edge, !shifted_edge' in Hin'.
    unfold Canvas.draw at 1.
    unfold Shared.look at 1 2 3 4 5 6 7 8 9.
    cbn [Euler.index Euler.position Euler.radius].
    unfold Shared.place at 1 2 3 4. unfold Shared.update_position.
    cbn [Shared.particles Shared.lists]. rewrite upd_same.
    cbn [Euler.e0 Euler.e1]. exact Hin'.
  - apply Z.eqb_neq in Hidx. rewrite Hidx in Hin'.
    assert (E : Shared.look (Shared.update_position dt s self) q
                = Shared.look s q).
    { apply untouched_look. apply update_position_untouched.
      intros C. apply Hpl. now symmetry. }
    rewrite E. exact Hin'.
Qed.

(** X26. The shape on the canvas follows its particle. When the canvas
    holds the oval that [draw] draws for a particle [q], and [q] is the
    particle that [update_position] moves, or has another index than it
    and does not hold its position list, then after the call the canvas
    holds the oval that [draw] would draw for [q] where it is now: the
    shape of the moved particle is shifted by its displacement times the
    scale, and the shape of a particle with another index and a list of
    its own stays with it. *)
Theorem shape_follows_the_particle (scale dt : num) (cycle : Z)
  (tracks : bool) (s : Shared.State) (canvas : list Canvas.item)
  (self q : loc) :
  In (Canvas.draw scale (Shared.look s q)) canvas ->
  q = self
  \/ (Shared.index (Shared.particles s q)
      <> Shared.index (Shared.particles s self)
      /\ Shared.position (Shared.particles s q)
         <> Shared.position (Shared.particles s self)) ->
  In (Canvas.draw scale
        (Shared.look
           (fst (Shared.update_position_on_canvas scale dt cycle tracks
                   (s, canvas) self)) q))
     (snd (Shared.update_position_on_canvas scale dt cycle tracks
             (s, canvas) self)).
Proof. apply shape_follows_shared. Qed.

Lemma shape_follows_the_particle_witness :
  In (Canvas.draw (fin 1) (Shared.look twins 2%nat))
     [Canvas.draw (fin 1) (Shared.look twins 0%nat);
      Canvas.draw (fin 1) (Shared.look twins 2%nat)]
  /\ (Shared.index (Shared.particles twins 2%nat)
      <> Shared.index (Shared.particles twins 0%nat)
      /\ Shared.position (Shared.particles twins 2%nat)
         <> Shared.position (Shared.particles twins 0%nat))
  /\ In (Canvas.draw (fin 1)
           (Shared.look
              (fst (Shared.update_position_on_canvas (fin 1) (fin 3) 0 false
                      (twins,
                       [Canvas.draw (fin 1) (Shared.look twins 0%nat);
                        Canvas.draw (fin 1) (Shared.look twins 2%nat)])
                      0%nat)) 2%nat))
        (snd (Shared.update_position_on_canvas (fin 1) (fin 3) 0 false
                (twins,
                 [Canvas.draw (fin 1) (Shared.look twins 0%nat);
                  Canvas.draw (fin 1) (Shared.look twins 2%nat)]) 0%nat))
  /\ In (Canvas.draw (fin 1)
           (Shared.look
              (fst (Shared.update_position_on_canvas (fin 1) (fin 3) 0 false
                      (twins,
                       [Canvas.draw (fin 1) (Shared.look twins 0%nat);
                        Canvas.draw (fin 1) (Shared.look twins 2%nat)])
                      0%nat)) 0%nat))
        (snd (Shared.update_position_on_canvas (fin 1) (fin 3) 0 false
                (twins,
                 [Canvas.draw (fin 1) (Shared.look twins 0%nat);
                  Canvas.draw (fin 1) (Shared.look twins 2%nat)]) 0%nat)).
Proof.
  assert (H2 : In (Canvas.draw (fin 1) (Shared.look twins 2%nat))
                 [Canvas.draw (fin 1) (Shared.look twins 0%nat);
                  Canvas.draw (fin 1) (Shared.look twins 2%nat)])
    by (right; now left).
  assert (H0 : In (Canvas.draw (fin 1) (Shared.look twins 0%nat))
                 [Canvas.draw (fin 1) (Shared.look twins 0%nat);
                  Canvas.draw (fin 1) (Shared.look twins 2%nat)])
    by now left.
  assert (N : Shared.index (Shared.particles twins 2%nat)
              <> Shared.index (Shared.particles twins 0%nat)
              /\ Shared.position (Shared.particles twins 2%nat)
                 <> Shared.position (Shared.particles twins 0%nat))
    by (split; simpl; discriminate).
  split; [exact H2 |]. split; [exact N |]. split.
  - exact (shape_follows_the_particle (fin 1) (fin 3) 0 false twins _
             0%nat 2%nat H2 (or_intror N)).
  - exact (shape_follows_the_particle (fin 1) (fin 3) 0 false twins _
             0%nat 0%nat H0 (or_introl eq_refl)).
Defined.
